(** * bash-parser-ast: the scanner and the syntax builder

    A shallow embedding of the class [Tokenizer] (the module
    [./tokenizer], in [src/src/ast.ts] after the tree shapes of [./ast])
    and of the class [BashParser] (the module [./parser], in
    [src/unnamed/part_001]), with the [ParseError] of [./errors]
    ([src/unnamed/part_000]).

    Strings are [string]s over [ascii]; a character the source obtains as
    a string of length one ([this.current()]) is a [string] here as well,
    and the empty string stands for the [''] that [current()] yields past
    the end of the input.  The scanner tells apart only characters of the
    ASCII range; a code unit beyond it behaves like any character outside
    its classes.  Numbers are [nat]. *)

From Stdlib Require Import String Ascii List Arith Bool Lia DecimalString.
Import ListNotations.
Open Scope string_scope.

(** ** Source positions and tokens *)

Module Position.
Record t := mk { start : nat; end_ : nat; line : nat; column : nat }.
End Position.

(** The members of the enum [TokenType].  [INHERITED] is not a member of
    the enum: it stands for the value that the reserved-word lookup
    [keywords[value]] finds on [Object.prototype] for a word such as
    [constructor] or [toString]; stored in a token's [type] it compares
    unequal to every member of the enum. *)
Inductive TokenType :=
| WORD | PIPE | REDIRECT_OUT | REDIRECT_IN | REDIRECT_APPEND | SEMICOLON
| AMPERSAND | AND | OR | LPAREN | RPAREN | LBRACE | RBRACE
| IF | THEN | ELSE | FI | FOR | WHILE | DO | DONE | FUNCTION
| NEWLINE | EOF | VARIABLE | QUOTED_STRING | COMMENT
| INHERITED.

Scheme Equality for TokenType.

Module Token.
Record t := mk { type : TokenType; value : string; position : Position.t }.
End Token.

(** Characters that cannot be written inside a string literal. *)
Definition NL : string := String "010"%char EmptyString.
Definition TAB : string := String "009"%char EmptyString.
Definition DQUOTE : string := String "034"%char EmptyString.

(** ** The scanner *)

Module Tokenizer.

Record t := mk { input : list ascii; position : nat; line : nat; column : nat }.

Definition init (source : string) : t :=
  mk (list_ascii_of_string source) 0 1 1.

(** [this.input[this.position] || ''] *)
Definition current (s : t) : string :=
  match nth_error (input s) (position s) with
  | Some c => String c EmptyString
  | None => EmptyString
  end.

Definition advance (s : t) : t :=
  if current s =? NL
  then mk (input s) (S (position s)) (S (line s)) 1
  else mk (input s) (S (position s)) (line s) (S (column s)).

Definition getPosition (s : t) : Position.t :=
  Position.mk (position s) (position s) (line s) (column s).

(** [{ type, value, position: { ...pos, end: this.position } }] with
    [pos = start || this.getPosition()]. *)
Definition createToken (type : TokenType) (value : string)
           (start : option Position.t) (s : t) : Token.t :=
  let pos := match start with Some p => p | None => getPosition s end in
  Token.mk type value
           (Position.mk (Position.start pos) (position s)
                        (Position.line pos) (Position.column pos)).

Definition inRange (lo hi : nat) (c : ascii) : bool :=
  ((lo <=? nat_of_ascii c) && (nat_of_ascii c <=? hi))%nat.

(** The class [[a-zA-Z0-9_.\/-]]. *)
Definition wordClass (c : ascii) : bool :=
  inRange 97 122 c || inRange 65 90 c || inRange 48 57 c
  || Ascii.eqb c "_" || Ascii.eqb c "." || Ascii.eqb c "/" || Ascii.eqb c "-".

(** The class [[ \t]]. *)
Definition blankClass (c : ascii) : bool :=
  Ascii.eqb c " " || Ascii.eqb c "009".

(** [regex.test(char)]: some character of the string is in the class. *)
Definition test (class : ascii -> bool) (char : string) : bool :=
  existsb class (list_ascii_of_string char).

Definition isWordChar (char : string) : bool := test wordClass char.

(** [this.position < this.input.length] *)
Definition inBounds (s : t) : bool := (position s <? length (input s))%nat.

(** The number of characters not yet read: the bound of each scanning
    loop below.  A loop that has used it up stands at the end of the
    input, where its own condition [position < input.length] fails. *)
Definition left (s : t) : nat := length (input s) - position s.

(** [while (position < length && /[ \t]/.test(current())) advance();] *)
Fixpoint skipWhitespace_loop (n : nat) (s : t) : t :=
  match n with
  | 0 => s
  | S n' =>
      if inBounds s && test blankClass (current s)
      then skipWhitespace_loop n' (advance s)
      else s
  end.

Definition skipWhitespace (s : t) : t := skipWhitespace_loop (left s) s.

(** [while (position < length && cond(current())) { value += current(); advance(); }],
    the loop of [readComment], [readVariable] and [readWord]. *)
Fixpoint collect_loop (cond : string -> bool) (n : nat) (value : string) (s : t)
  : string * t :=
  match n with
  | 0 => (value, s)
  | S n' =>
      if inBounds s && cond (current s)
      then collect_loop cond n' (value ++ current s) (advance s)
      else (value, s)
  end.

Definition collect (cond : string -> bool) (value : string) (s : t) : string * t :=
  collect_loop cond (left s) value s.

Definition readComment (s : t) : Token.t * t :=
  let start := getPosition s in
  let s1 := advance s in
  let (value, s2) := collect (fun c => negb (c =? NL)) EmptyString s1 in
  (createToken COMMENT value (Some start) s2, s2).

(** The loop of [readQuotedString]: a backslash passes the next
    character through. *)
Fixpoint readQuotedString_loop (quote : string) (n : nat) (value : string) (s : t)
  : string * t :=
  match n with
  | 0 => (value, s)
  | S n' =>
      if inBounds s && negb (current s =? quote)
      then
        if current s =? "\"
        then
          let s1 := advance s in
          if inBounds s1
          then readQuotedString_loop quote n' (value ++ current s1) (advance s1)
          else readQuotedString_loop quote n' value s1
        else readQuotedString_loop quote n' (value ++ current s) (advance s)
      else (value, s)
  end.

Definition readQuotedString (quote : string) (s : t) : Token.t * t :=
  let start := getPosition s in
  let s1 := advance s in
  let (value, s2) := readQuotedString_loop quote (left s1) EmptyString s1 in
  let s3 := if current s2 =? quote then advance s2 else s2 in
  (createToken QUOTED_STRING value (Some start) s3, s3).

Definition readVariable (s : t) : Token.t * t :=
  let start := getPosition s in
  let s1 := advance s in
  if current s1 =? "{"
  then
    let s2 := advance s1 in
    let (value, s3) := collect (fun c => negb (c =? "}")) EmptyString s2 in
    let s4 := if current s3 =? "}" then advance s3 else s3 in
    (createToken VARIABLE value (Some start) s4, s4)
  else
    let (value, s2) := collect isWordChar EmptyString s1 in
    (createToken VARIABLE value (Some start) s2, s2).

(** The keys every object literal inherits from [Object.prototype]. *)
Definition inheritedKeys : list string :=
  [ "constructor"; "hasOwnProperty"; "isPrototypeOf"; "propertyIsEnumerable";
    "toLocaleString"; "toString"; "valueOf"; "__proto__";
    "__defineGetter__"; "__defineSetter__"; "__lookupGetter__"; "__lookupSetter__" ].

(** [keywords[value] || null] on the object literal [keywords]. *)
Definition getKeywordType (value : string) : option TokenType :=
  if value =? "if" then Some IF
  else if value =? "then" then Some THEN
  else if value =? "else" then Some ELSE
  else if value =? "fi" then Some FI
  else if value =? "for" then Some FOR
  else if value =? "while" then Some WHILE
  else if value =? "do" then Some DO
  else if value =? "done" then Some DONE
  else if value =? "function" then Some FUNCTION
  else if existsb (String.eqb value) inheritedKeys then Some INHERITED
  else None.

Definition readWord (s : t) : Token.t * t :=
  let start := getPosition s in
  if negb (isWordChar (current s))
  then
    let value := current s in
    let s1 := advance s in
    (createToken WORD value (Some start) s1, s1)
  else
    let (value, s1) := collect isWordChar EmptyString s in
    let tokenType := match getKeywordType value with Some k => k | None => WORD end in
    (createToken tokenType value (Some start) s1, s1).

(** One character, or two for [||], [&&] and [>>]. *)
Definition operator (char : string) (two one : TokenType) (startPos : Position.t)
           (s : t) : Token.t * t :=
  let s1 := advance s in
  if current s1 =? char
  then let s2 := advance s1 in (createToken two (char ++ char) (Some startPos) s2, s2)
  else (createToken one char (Some startPos) s1, s1).

Definition single (type : TokenType) (char : string) (startPos : Position.t)
           (s : t) : Token.t * t :=
  let s1 := advance s in (createToken type char (Some startPos) s1, s1).

Definition some {A B} (r : A * B) : option A * B := (Some (fst r), snd r).

Definition nextToken (s0 : t) : option Token.t * t :=
  let s := skipWhitespace s0 in
  if negb (inBounds s) then (None, s)
  else
    let char := current s in
    let startPos := getPosition s in
    if char =? "#" then some (readComment s)
    else if char =? NL then some (single NEWLINE NL startPos s)
    else if char =? "|" then some (operator "|" OR PIPE startPos s)
    else if char =? "&" then some (operator "&" AND AMPERSAND startPos s)
    else if char =? ">" then some (operator ">" REDIRECT_APPEND REDIRECT_OUT startPos s)
    else if char =? "<" then some (single REDIRECT_IN "<" startPos s)
    else if char =? ";" then some (single SEMICOLON ";" startPos s)
    else if char =? "(" then some (single LPAREN "(" startPos s)
    else if char =? ")" then some (single RPAREN ")" startPos s)
    else if char =? "{" then some (single LBRACE "{" startPos s)
    else if char =? "}" then some (single RBRACE "}" startPos s)
    else if (char =? DQUOTE) || (char =? "'") then some (readQuotedString char s)
    else if char =? "$" then some (readVariable s)
    else some (readWord s).

(** The loop of [tokenize]; [None] when the bound [fuel] is used up
    before the loop's condition fails. *)
Fixpoint tokenize_loop (fuel : nat) (tokens : list Token.t) (s : t)
  : option (list Token.t) :=
  match fuel with
  | 0 => None
  | S fuel' =>
      if inBounds s
      then
        let (token, s1) := nextToken s in
        match token with
        | Some tok => tokenize_loop fuel' (tokens ++ [tok])%list s1
        | None => tokenize_loop fuel' tokens s1
        end
      else Some (tokens ++ [createToken EOF EmptyString None s])%list
  end.

Definition tokenize (source : string) : option (list Token.t) :=
  let s := init source in
  tokenize_loop (S (length (input s))) [] s.

End Tokenizer.

(** ** The syntax tree and the error

    An optional field is an [option]; [ASTNode.position] is optional on
    every node.  Of the declared shapes only those the builder constructs
    are modelled ([CommandSubstitution], [Redirection] and [Comment] nodes
    are never built, and no [Command] is given [redirections]).  The
    node [Variable] is [Variable_], the name being taken. *)

#[local] Set Warnings "-register-all".

Inductive Expression :=
| Literal (value : string) (quoted : bool) (position : option Position.t)
| Variable_ (name : string) (position : option Position.t).

Module Command.
Record t := mk { name : string; args : list string; position : option Position.t }.
End Command.

(** [Loop.kind] holds the text of the token that opened the loop
    ([this.advance().value as 'for' | 'while']): a string. *)
Inductive Statement :=
| Cmd (command : Command.t)
| Pipeline (commands : list Command.t) (position : option Position.t)
| Conditional (condition : Expression) (then_ : list Statement)
              (else_ : option (list Statement)) (position : option Position.t)
| Loop (kind : string) (condition : option Expression) (variable : option string)
       (iterable : option Expression) (body : list Statement)
       (position : option Position.t)
| FunctionDeclaration (name : string) (body : list Statement)
                      (position : option Position.t)
| VariableAssignment (name : string) (value : Expression)
                     (position : option Position.t).

Module Program.
Record t := mk { body : list Statement; position : option Position.t }.
End Program.

Module ParseError.
Record t := mk { message : string; position : option Position.t }.

(** [this.name], which the constructor sets. *)
Definition name : string := "ParseError".

(** A line or a column in a template literal: its decimal numeral. *)
Definition decimal (n : nat) : string := NilEmpty.string_of_uint (Nat.to_uint n).

Definition toString (e : t) : string :=
  match position e with
  | Some pos =>
      name ++ " at line " ++ decimal (Position.line pos)
           ++ ", column " ++ decimal (Position.column pos) ++ ": " ++ message e
  | None => name ++ ": " ++ message e
  end.
End ParseError.

(** ** The syntax builder *)

Module BashParser.

(** What a method can throw: a [ParseError], or the [TypeError] of
    reading [.value] off [undefined]. *)
Inductive Exception :=
| Parse (error : ParseError.t)
| TypeError.

(** How a method ends, with the cursor [this.position] it leaves.
    [OutOfFuel] is no behaviour of the source: a loop or a recursion of
    the model used up its bound. *)
Inductive Outcome (A : Type) :=
| Return (a : A) (position : nat)
| Throw (e : Exception) (position : nat)
| OutOfFuel.
Arguments Return {A}.
Arguments Throw {A}.
Arguments OutOfFuel {A}.

(** A method of the class: from the cursor to an outcome. *)
Definition M (A : Type) : Type := nat -> Outcome A.

Definition ret {A} (a : A) : M A := fun position => Return a position.

Definition bind {A B} (m : M A) (k : A -> M B) : M B :=
  fun position =>
    match m position with
    | Return a position' => k a position'
    | Throw e position' => Throw e position'
    | OutOfFuel => OutOfFuel
    end.

Definition throw {A} (e : Exception) : M A := fun position => Throw e position.

(** A pure reading of the state. *)
Definition get {A} (f : nat -> A) : M A := fun position => Return (f position) position.

Declare Scope builder_scope.
Delimit Scope builder_scope with builder.
Notation "x <- m ;; k" := (bind m (fun x => k))
  (at level 61, m at next level, right associativity) : builder_scope.
Notation "m ;; k" := (bind m (fun _ => k))
  (at level 61, right associativity) : builder_scope.
Local Open Scope builder_scope.

Section Builder.

(** [this.tokens], assigned once by [parse] before any method runs. *)
Variable tokens : list Token.t.

Definition currentToken (position : nat) : option Token.t :=
  nth_error tokens position.

(** [this.currentToken()?.position] *)
Definition currentPosition (position : nat) : option Position.t :=
  option_map Token.position (currentToken position).

Definition check (type : TokenType) (position : nat) : bool :=
  match currentToken position with
  | Some token => TokenType_beq (Token.type token) type
  | None => false
  end.

Definition isAtEnd (position : nat) : bool :=
  (length tokens <=? position)%nat || check EOF position.

(** [this.tokens[this.position - 1]] after the move; index [-1] holds
    nothing. *)
Definition advance : M (option Token.t) :=
  fun position =>
    let position' := if isAtEnd position then position else S position in
    Return (match position' with
            | 0 => None
            | S i => nth_error tokens i
            end) position'.

(** Reading a field off the token a method returned. *)
Definition field {A} (f : Token.t -> A) (token : option Token.t) : M A :=
  match token with
  | Some tok => ret (f tok)
  | None => throw TypeError
  end.

Definition parseError {A} (message : string) : M A :=
  fun position =>
    Throw (Parse (ParseError.mk message (currentPosition position))) position.

Definition consume (type : TokenType) (message : string) : M (option Token.t) :=
  fun position =>
    if check type position then advance position
    else parseError message position.

(** [current?.end || start.end]: an end offset of [0] is falsy. *)
Definition getNodePosition (start : option Position.t) (position : nat)
  : option Position.t :=
  match start with
  | None => None
  | Some start =>
      let end_ :=
        match currentPosition position with
        | Some current =>
            if (Position.end_ current =? 0)%nat then Position.end_ start
            else Position.end_ current
        | None => Position.end_ start
        end in
      Some (Position.mk (Position.start start) end_
                        (Position.line start) (Position.column start))
  end.

Definition parseExpression : M Expression :=
  fun position =>
    if check WORD position || check QUOTED_STRING position
    then (token <- advance ;;
          value <- field Token.value token ;;
          type <- field Token.type token ;;
          pos <- field Token.position token ;;
          ret (Literal value (TokenType_beq type QUOTED_STRING) (Some pos))) position
    else if check VARIABLE position
    then (token <- advance ;;
          name <- field Token.value token ;;
          pos <- field Token.position token ;;
          ret (Variable_ name (Some pos))) position
    else parseError "Expected expression" position.

(** [while (check(WORD) || check(QUOTED_STRING)) args.push(advance().value);] *)
Fixpoint parseCommand_args (fuel : nat) (args : list string) : M (list string) :=
  match fuel with
  | 0 => fun _ => OutOfFuel
  | S fuel' =>
      fun position =>
        if check WORD position || check QUOTED_STRING position
        then (token <- advance ;;
              arg <- field Token.value token ;;
              parseCommand_args fuel' (args ++ [arg])%list) position
        else Return args position
  end.

Definition parseCommand (fuel : nat) : M Command.t :=
  fun position =>
    let start := currentPosition position in
    if negb (check WORD position)
    then parseError "Expected command name" position
    else (token <- advance ;;
          name <- field Token.value token ;;
          args <- parseCommand_args fuel [] ;;
          pos <- get (getNodePosition start) ;;
          ret (Command.mk name args pos)) position.

(** [while (check(PIPE)) { advance(); commands.push(parseCommand()); }] *)
Fixpoint parsePipeline_rest (fuel : nat) (commands : list Command.t)
  : M (list Command.t) :=
  match fuel with
  | 0 => fun _ => OutOfFuel
  | S fuel' =>
      fun position =>
        if check PIPE position
        then (advance ;;
              command <- parseCommand fuel ;;
              parsePipeline_rest fuel' (commands ++ [command])%list) position
        else Return commands position
  end.

Definition parsePipeline (fuel : nat) : M Statement :=
  first <- parseCommand fuel ;;
  commands <- parsePipeline_rest fuel [first] ;;
  match commands with
  | [command] => ret (Cmd command)
  | _ => pos <- get (getNodePosition None) ;;
         ret (Pipeline commands pos)
  end.

Definition isVariableAssignment (position : nat) : bool :=
  if check WORD position && (position + 1 <? length tokens)%nat
  then match nth_error tokens (position + 1) with
       | Some next => Token.value next =? "="
       | None => false
       end
  else false.

Definition parseVariableAssignment : M Statement :=
  fun position =>
    let start := currentPosition position in
    (token <- advance ;;
     name <- field Token.value token ;;
     consume WORD "Expected '='" ;;
     value <- parseExpression ;;
     pos <- get (getNodePosition start) ;;
     ret (VariableAssignment name value pos)) position.

(** The statement loop of the nested constructs, which the source
    writes out four times (the then branch, the else branch, the body
    of a loop and the body of a function) with a different guard
    [continues]:
    [while (continues) { if (check(NEWLINE)) { advance(); continue; }
       const stmt = parseStatement();
       if (stmt) body.push(stmt); else advance(); }] *)
Fixpoint parseBody (parseStatement : M (option Statement)) (continues : nat -> bool)
         (fuel : nat) (body : list Statement) : M (list Statement) :=
  match fuel with
  | 0 => fun _ => OutOfFuel
  | S fuel' =>
      fun position =>
        if continues position
        then
          if check NEWLINE position
          then (advance ;; parseBody parseStatement continues fuel' body) position
          else (stmt <- parseStatement ;;
                match stmt with
                | Some stmt => parseBody parseStatement continues fuel' (body ++ [stmt])%list
                | None => advance ;; parseBody parseStatement continues fuel' body
                end) position
        else Return body position
  end.

Definition parseConditional (parseStatement : M (option Statement)) (fuel : nat)
  : M Statement :=
  fun position =>
    let start := currentPosition position in
    (consume IF "Expected 'if'" ;;
     condition <- parseExpression ;;
     consume THEN "Expected 'then'" ;;
     thenBody <- parseBody parseStatement
                   (fun p => negb (check ELSE p) && negb (check FI p) && negb (isAtEnd p))
                   fuel [] ;;
     elseBody <- (fun p =>
                    if check ELSE p
                    then (advance ;;
                          body <- parseBody parseStatement
                                    (fun p => negb (check FI p) && negb (isAtEnd p))
                                    fuel [] ;;
                          ret (Some body)) p
                    else Return None p) ;;
     consume FI "Expected 'fi'" ;;
     pos <- get (getNodePosition start) ;;
     ret (Conditional condition thenBody elseBody pos)) position.

Definition parseLoop (parseStatement : M (option Statement)) (fuel : nat)
  : M Statement :=
  fun position =>
    let start := currentPosition position in
    (token <- advance ;;
     kind <- field Token.value token ;;
     header <- (if kind =? "for"
                then (name <- consume WORD "Expected variable name" ;;
                      variable <- field Token.value name ;;
                      consume WORD "Expected 'in'" ;;
                      iterable <- parseExpression ;;
                      ret (None, Some variable, Some iterable))
                else (condition <- parseExpression ;;
                      ret (Some condition, None, None))) ;;
     consume DO "Expected 'do'" ;;
     body <- parseBody parseStatement
               (fun p => negb (check DONE p) && negb (isAtEnd p)) fuel [] ;;
     consume DONE "Expected 'done'" ;;
     pos <- get (getNodePosition start) ;;
     let '(condition, variable, iterable) := header in
     ret (Loop kind condition variable iterable body pos)) position.

Definition parseFunction (parseStatement : M (option Statement)) (fuel : nat)
  : M Statement :=
  fun position =>
    let start := currentPosition position in
    (consume FUNCTION "Expected 'function'" ;;
     token <- consume WORD "Expected function name" ;;
     name <- field Token.value token ;;
     consume LPAREN "Expected '('" ;;
     consume RPAREN "Expected ')'" ;;
     consume LBRACE "Expected '{'" ;;
     body <- parseBody parseStatement
               (fun p => negb (check RBRACE p) && negb (isAtEnd p)) fuel [] ;;
     consume RBRACE "Expected '}'" ;;
     pos <- get (getNodePosition start) ;;
     ret (FunctionDeclaration name body pos)) position.

Definition some {A} (m : M A) : M (option A) := a <- m ;; ret (Some a).

(** [parseStatement]; the recursion through the nested constructs is
    bounded by [fuel]. *)
Fixpoint parseStatement (fuel : nat) : M (option Statement) :=
  match fuel with
  | 0 => fun _ => OutOfFuel
  | S fuel' =>
      fun position =>
        if check COMMENT position then (advance ;; ret None) position
        else if check EOF position then Return None position
        else if check IF position
        then some (parseConditional (parseStatement fuel') fuel') position
        else if check FOR position || check WHILE position
        then some (parseLoop (parseStatement fuel') fuel') position
        else if check FUNCTION position
        then some (parseFunction (parseStatement fuel') fuel') position
        else if isVariableAssignment position
        then some parseVariableAssignment position
        else if check WORD position
        then some (parsePipeline fuel') position
        else Return None position
  end.

(** The loop of [parseStatements]. *)
Fixpoint parseStatements_loop (fuel n : nat) (statements : list Statement)
  : M (list Statement) :=
  match n with
  | 0 => fun _ => OutOfFuel
  | S n' =>
      fun position =>
        if negb (isAtEnd position) && negb (check EOF position)
        then
          if check NEWLINE position
          then (advance ;; parseStatements_loop fuel n' statements) position
          else (stmt <- parseStatement fuel ;;
                statements' <- match stmt with
                               | Some stmt => ret (statements ++ [stmt])%list
                               | None => advance ;; ret statements
                               end ;;
                (fun p => if check SEMICOLON p || check NEWLINE p
                          then advance p else Return None p) ;;
                parseStatements_loop fuel n' statements') position
        else Return statements position
  end.

Definition parseStatements (fuel : nat) : M (list Statement) :=
  parseStatements_loop fuel fuel [].

End Builder.

(** What [parse] gives its caller. *)
Inductive Result :=
| Returned (program : Program.t)
| Raised (error : ParseError.t)
| Unfinished.

(** The body of [parse] once the tokens are there: the bound of every
    loop and of the recursion is the number of tokens plus one.  A fault
    that is no [ParseError] is wrapped into one, whose message ends with
    the engine's rendering of the fault.  The faults modelled are those
    the code of the builder can cause, the [TypeError] of [field]; a fault
    of the engine itself (its [RangeError] where the recursion of
    [parseStatement] is deeper than its stack), which the same [catch]
    wraps, is outside the model. *)
Definition parseTokens (tokens : list Token.t) : Result :=
  match parseStatements tokens (S (length tokens)) 0 with
  | Return body position =>
      Returned (Program.mk body (getNodePosition tokens None position))
  | Throw (Parse error) _ => Raised error
  | Throw TypeError position =>
      Raised (ParseError.mk "Unexpected error: TypeError" (currentPosition tokens position))
  | OutOfFuel => Unfinished
  end.

Definition parse (input : string) : Result :=
  match Tokenizer.tokenize input with
  | Some tokens => parseTokens tokens
  | None => Unfinished
  end.

End BashParser.

Definition lines (l : list string) : string := String.concat NL l.

(** ** What the builder derives from a token sequence

    [Built tokens first next stmt]: the statement [stmt] is what the
    builder makes of the tokens [first], ..., [next - 1], the cursor
    standing at [first] when the statement's method is entered and at
    [next] when it returns.  The relation follows the methods of
    [BashParser] one constructor per way through each. *)

Section Derivation.

Variable tokens : list Token.t.

Definition typeAt (i : nat) (type : TokenType) : Prop :=
  exists tok, nth_error tokens i = Some tok /\ Token.type tok = type.

(** The tokens [first], ..., [next - 1]. *)
Definition slice (first next : nat) : list Token.t :=
  firstn (next - first) (skipn first tokens).

Definition isArgument (tok : Token.t) : Prop :=
  Token.type tok = WORD \/ Token.type tok = QUOTED_STRING.

(** The position [getNodePosition(start)] computes for a construct
    entered at [first] and left at [next]. *)
Definition nodePosition (first next : nat) : option Position.t :=
  BashParser.getNodePosition tokens (BashParser.currentPosition tokens first) next.

Inductive BuiltExpression : nat -> Expression -> Prop :=
| Built_Literal i tok :
    nth_error tokens i = Some tok -> isArgument tok ->
    BuiltExpression i (Literal (Token.value tok)
                               (TokenType_beq (Token.type tok) QUOTED_STRING)
                               (Some (Token.position tok)))
| Built_Variable i tok :
    nth_error tokens i = Some tok -> Token.type tok = VARIABLE ->
    BuiltExpression i (Variable_ (Token.value tok) (Some (Token.position tok))).

Inductive BuiltCommand : nat -> nat -> Command.t -> Prop :=
| Built_Command first next tok :
    nth_error tokens first = Some tok -> Token.type tok = WORD ->
    first < next -> next <= length tokens ->
    Forall isArgument (slice (S first) next) ->
    BuiltCommand first next
                 (Command.mk (Token.value tok)
                             (map Token.value (slice (S first) next))
                             (nodePosition first next)).

Inductive BuiltPipeline : nat -> nat -> list Command.t -> Prop :=
| Built_first first next command :
    BuiltCommand first next command ->
    BuiltPipeline first next [command]
| Built_piped first bar next commands command :
    BuiltPipeline first bar commands -> typeAt bar PIPE ->
    BuiltCommand (S bar) next command ->
    BuiltPipeline first next (commands ++ [command]).

Inductive Built : nat -> nat -> Statement -> Prop :=
| Built_Cmd first next command :
    BuiltCommand first next command ->
    Built first next (Cmd command)
| Built_Pipeline first next commands :
    BuiltPipeline first next commands -> 2 <= length commands ->
    Built first next (Pipeline commands None)
| Built_If first last condition then_ :
    typeAt first IF -> BuiltExpression (1 + first) condition ->
    typeAt (2 + first) THEN -> BuiltBody (3 + first) last then_ ->
    typeAt last FI ->
    Built first (S last)
          (Conditional condition then_ None (nodePosition first (S last)))
| Built_IfElse first mid last condition then_ else_ :
    typeAt first IF -> BuiltExpression (1 + first) condition ->
    typeAt (2 + first) THEN -> BuiltBody (3 + first) mid then_ ->
    typeAt mid ELSE -> BuiltBody (S mid) last else_ ->
    typeAt last FI ->
    Built first (S last)
          (Conditional condition then_ (Some else_) (nodePosition first (S last)))
| Built_For first last tok name iterable body :
    nth_error tokens first = Some tok ->
    Token.type tok = FOR \/ Token.type tok = WHILE ->
    Token.value tok = "for" ->
    nth_error tokens (1 + first) = Some name -> Token.type name = WORD ->
    typeAt (2 + first) WORD -> BuiltExpression (3 + first) iterable ->
    typeAt (4 + first) DO -> BuiltBody (5 + first) last body ->
    typeAt last DONE ->
    Built first (S last)
          (Loop (Token.value tok) None (Some (Token.value name)) (Some iterable)
                body (nodePosition first (S last)))
| Built_While first last tok condition body :
    nth_error tokens first = Some tok ->
    Token.type tok = FOR \/ Token.type tok = WHILE ->
    Token.value tok <> "for" ->
    BuiltExpression (1 + first) condition ->
    typeAt (2 + first) DO -> BuiltBody (3 + first) last body ->
    typeAt last DONE ->
    Built first (S last)
          (Loop (Token.value tok) (Some condition) None None
                body (nodePosition first (S last)))
| Built_Function first last name body :
    typeAt first FUNCTION ->
    nth_error tokens (1 + first) = Some name -> Token.type name = WORD ->
    typeAt (2 + first) LPAREN -> typeAt (3 + first) RPAREN ->
    typeAt (4 + first) LBRACE -> BuiltBody (5 + first) last body ->
    typeAt last RBRACE ->
    Built first (S last)
          (FunctionDeclaration (Token.value name) body (nodePosition first (S last)))
| Built_Assignment first tok eq value :
    nth_error tokens first = Some tok -> Token.type tok = WORD ->
    nth_error tokens (1 + first) = Some eq -> Token.type eq = WORD ->
    Token.value eq = "=" ->
    BuiltExpression (2 + first) value ->
    Built first (3 + first)
          (VariableAssignment (Token.value tok) value (nodePosition first (3 + first)))

(** The statements a body loop has pushed when the cursor, entered at
    [first], stands at [next]: each iteration pushes a statement or
    passes over tokens. *)
with BuiltBody : nat -> nat -> list Statement -> Prop :=
| Built_nil first :
    BuiltBody first first []
| Built_skip first mid next body :
    BuiltBody first mid body -> mid <= next ->
    BuiltBody first next body
| Built_push first mid next body stmt :
    BuiltBody first mid body -> Built mid next stmt ->
    BuiltBody first next (body ++ [stmt]).

(** ** Positions that enclose the tokens of their construct *)

(** [position], when present, starts at or before the first token
    consumed, [first], and ends at or after the last, [next - 1]. *)
Definition encloses (first next : nat) (position : option Position.t) : Prop :=
  forall pos, position = Some pos ->
    exists tf tl,
      first < next /\
      nth_error tokens first = Some tf /\ nth_error tokens (next - 1) = Some tl /\
      Position.start pos <= Position.start (Token.position tf) /\
      Position.end_ (Token.position tl) <= Position.end_ pos.

Definition expressionPosition (e : Expression) : option Position.t :=
  match e with
  | Literal _ _ position => position
  | Variable_ _ position => position
  end.

(** [part P first next x]: [x] was built from tokens [a], ..., [b - 1]
    among [first], ..., [next - 1], and [P a b x]. *)
Definition part {A} (P : nat -> nat -> A -> Prop) (first next : nat) (x : A) : Prop :=
  exists a b, first <= a /\ b <= next /\ P a b x.

Definition enclosesExpression (first next : nat) (e : Expression) : Prop :=
  encloses first next (expressionPosition e).

Definition enclosesCommand (first next : nat) (c : Command.t) : Prop :=
  encloses first next (Command.position c).

(** Every position in the tree of a statement built from the tokens
    [first], ..., [next - 1] encloses the tokens of its node. *)
Inductive Enclosed : nat -> nat -> Statement -> Prop :=
| Enclosed_Cmd first next command :
    enclosesCommand first next command ->
    Enclosed first next (Cmd command)
| Enclosed_Pipeline first next commands position :
    Forall (part enclosesCommand first next) commands ->
    encloses first next position ->
    Enclosed first next (Pipeline commands position)
| Enclosed_Conditional first next condition then_ else_ position :
    part enclosesExpression first next condition ->
    Forall (part Enclosed first next) then_ ->
    (forall body, else_ = Some body -> Forall (part Enclosed first next) body) ->
    encloses first next position ->
    Enclosed first next (Conditional condition then_ else_ position)
| Enclosed_Loop first next kind condition variable iterable body position :
    (forall e, condition = Some e -> part enclosesExpression first next e) ->
    (forall e, iterable = Some e -> part enclosesExpression first next e) ->
    Forall (part Enclosed first next) body ->
    encloses first next position ->
    Enclosed first next (Loop kind condition variable iterable body position)
| Enclosed_Function first next name body position :
    Forall (part Enclosed first next) body ->
    encloses first next position ->
    Enclosed first next (FunctionDeclaration name body position)
| Enclosed_Assignment first next name value position :
    part enclosesExpression first next value ->
    encloses first next position ->
    Enclosed first next (VariableAssignment name value position).

(** The end offsets of the tokens do not decrease. *)
Definition endsAscend : Prop :=
  forall i j ti tj,
    i <= j -> nth_error tokens i = Some ti -> nth_error tokens j = Some tj ->
    Position.end_ (Token.position ti) <= Position.end_ (Token.position tj).

(** Only the last token may be of kind [EOF]. *)
Definition eofLast : Prop :=
  forall i tok,
    nth_error tokens i = Some tok -> Token.type tok <> EOF -> S i < length tokens.

(** What the builder guarantees of a single node: a pipeline has two
    commands or more and no position, every other statement has a
    position, and the kind of a loop is the text of a [FOR] or [WHILE]
    token. *)
Definition nodeBuilt (stmt : Statement) : Prop :=
  match stmt with
  | Cmd command => Command.position command <> None
  | Pipeline commands position => 2 <= length commands /\ position = None
  | Conditional _ _ _ position => position <> None
  | Loop kind _ _ _ _ position =>
      position <> None /\
      exists tok, In tok tokens /\
                  (Token.type tok = FOR \/ Token.type tok = WHILE) /\
                  Token.value tok = kind
  | FunctionDeclaration _ _ position => position <> None
  | VariableAssignment _ _ position => position <> None
  end.

End Derivation.

Scheme Built_mutual := Minimality for Built Sort Prop
  with BuiltBody_mutual := Minimality for BuiltBody Sort Prop.
Combined Scheme Built_BuiltBody_ind from Built_mutual, BuiltBody_mutual.

(** The statement nodes of a tree: the statement, the commands of a
    pipeline, and the nodes of every nested body. *)
Fixpoint nodes (stmt : Statement) : list Statement :=
  stmt ::
  match stmt with
  | Cmd _ => []
  | Pipeline commands _ => map Cmd commands
  | Conditional _ then_ else_ _ =>
      flat_map nodes then_ ++
      match else_ with Some body => flat_map nodes body | None => [] end
  | Loop _ _ _ _ body _ => flat_map nodes body
  | FunctionDeclaration _ body _ => flat_map nodes body
  | VariableAssignment _ _ _ => []
  end.

Definition programNodes (program : Program.t) : list Statement :=
  flat_map nodes (Program.body program).

(** A simple command, as tokens: a [WORD] and then [WORD]s and
    [QUOTED_STRING]s. *)
Definition simpleCommand (ts : list Token.t) : Prop :=
  match ts with
  | name :: args => Token.type name = WORD /\ Forall isArgument args
  | [] => False
  end.

(** The command node reads the tokens of a simple command in order. *)
Definition commandOf (ts : list Token.t) (command : Command.t) : Prop :=
  match ts with
  | name :: args =>
      Command.name command = Token.value name /\
      Command.args command = map Token.value args
  | [] => False
  end.

(** A bar and the command after it. *)
Definition piped (bs : Token.t * list Token.t) : list Token.t := fst bs :: snd bs.

Definition barred (bs : Token.t * list Token.t) : Prop :=
  Token.type (fst bs) = PIPE /\ simpleCommand (snd bs).

(** The statement [parsePipeline] returns for the commands it parsed. *)
Definition pipelineOf (commands : list Command.t) : option Statement :=
  match commands with
  | [] => None
  | [command] => Some (Cmd command)
  | _ => Some (Pipeline commands None)
  end.

(** The statement dispatch does not take the tokens for an assignment:
    the second token does not read [=]. *)
Definition notAssignment (ts : list Token.t) : Prop :=
  forall tok, nth_error ts 1 = Some tok -> Token.value tok <> "=".

(** A space, a tab or a newline. *)
Definition whitespace (c : ascii) : Prop :=
  c = " "%char \/ c = "009"%char \/ c = "010"%char.

(** A keyword token carries the keyword as its text. *)
Definition keywordText (tok : Token.t) : Prop :=
  (Token.type tok = FOR -> Token.value tok = "for") /\
  (Token.type tok = WHILE -> Token.value tok = "while").

Definition statementPosition (stmt : Statement) : option Position.t :=
  match stmt with
  | Cmd command => Command.position command
  | Pipeline _ position => position
  | Conditional _ _ _ position => position
  | Loop _ _ _ _ _ position => position
  | FunctionDeclaration _ _ position => position
  | VariableAssignment _ _ position => position
  end.

Definition isPipeline (stmt : Statement) : bool :=
  match stmt with
  | Pipeline _ _ => true
  | _ => false
  end.

(** A token of line 1. *)
Definition token1 (type : TokenType) (value : string) (start end_ : nat) : Token.t :=
  Token.mk type value (Position.mk start end_ 1 (S start)).

(** ** Predicates of the proofs *)

(** [s'] is a later state of the scan of the same input. *)
Definition after (s s' : Tokenizer.t) : Prop :=
  Tokenizer.input s' = Tokenizer.input s /\
  Tokenizer.position s <= Tokenizer.position s'.

(** [tok] was read from [s], leaving [s']: at least one character was
    consumed, the token spans from the old cursor to the new one, and a
    keyword kind comes with the keyword's text. *)
Definition reads (s : Tokenizer.t) (r : Token.t * Tokenizer.t) : Prop :=
  after s (snd r) /\ Tokenizer.position s < Tokenizer.position (snd r) /\
  Position.start (Token.position (fst r)) = Tokenizer.position s /\
  Position.end_ (Token.position (fst r)) = Tokenizer.position (snd r) /\
  keywordText (fst r) /\ Token.type (fst r) <> EOF.

(** What holds of the tokens pushed when the cursor stands at [pos]. *)
Definition scanned (pos : nat) (tokens : list Token.t) : Prop :=
  endsAscend tokens /\
  Forall (fun t => Position.end_ (Token.position t) <= pos /\
                   keywordText t /\ Token.type t <> EOF) tokens.

(** What holds of the sequence [tokenize] returns. *)
Definition tokenized (tokens : list Token.t) : Prop :=
  exists body eof,
    tokens = (body ++ [eof])%list /\
    Token.type eof = EOF /\ Token.value eof = EmptyString /\
    Forall (fun t => keywordText t /\ Token.type t <> EOF) body /\
    endsAscend tokens.

(** [sat o Q]: the outcome [o] is a return that satisfies [Q] or a
    [ParseError]; it is neither a [TypeError] nor a used-up bound. *)
Definition sat {A} (o : BashParser.Outcome A) (Q : A -> nat -> Prop) : Prop :=
  match o with
  | BashParser.Return a p => Q a p
  | BashParser.Throw (BashParser.Parse _) _ => True
  | BashParser.Throw BashParser.TypeError _ => False
  | BashParser.OutOfFuel => False
  end.

(** The statement method [parseStatement] neither runs out of its bound
    nor throws a [TypeError] where fewer than [bound] tokens are left; it
    never moves the cursor back, and a statement it returns was built
    from the tokens it moved over, of which there is one at least. *)
Definition builds (tokens : list Token.t)
           (parseStatement : BashParser.M (option Statement)) (bound : nat) : Prop :=
  forall q, length tokens - q < bound ->
    sat (parseStatement q)
        (fun r q' => q <= q' /\
                     forall s, r = Some s -> q < q' /\ Built tokens q q' s).

(** The token after the arguments of a command is no argument. *)
Definition stops (rest : list Token.t) : Prop :=
  forall tok, hd_error rest = Some tok -> ~ isArgument tok.

(** The token after a pipeline is neither a bar nor an argument. *)
Definition ends (rest : list Token.t) : Prop :=
  forall tok, hd_error rest = Some tok -> Token.type tok <> PIPE /\ ~ isArgument tok.

(** ** Predicates of the further properties of the scanner *)

(** The line and the column the scanner has counted when it has read
    the characters [chars]: a newline starts a line at column 1, any
    other character moves one column on. *)
Definition cursorAfter (chars : list ascii) : nat * nat :=
  fold_left (fun lc c => if Ascii.eqb c "010" then (S (fst lc), 1) else (fst lc, S (snd lc)))
            chars (1, 1).

(** The source text from the offset [first] up to the offset [next]. *)
Definition sourceText (input : list ascii) (first next : nat) : string :=
  string_of_list_ascii (firstn (next - first) (skipn first input)).

(** The state stands inside the input or at its end, and its line and
    column are those of its offset. *)
Definition located (s : Tokenizer.t) : Prop :=
  Tokenizer.position s <= length (Tokenizer.input s) /\
  (Tokenizer.line s, Tokenizer.column s)
  = cursorAfter (firstn (Tokenizer.position s) (Tokenizer.input s)).

(** The span of a token lies in the input, is empty for [EOF] alone, and
    its line and column are those of its start offset. *)
Definition placed (input : list ascii) (tok : Token.t) : Prop :=
  let pos := Token.position tok in
  Position.start pos <= Position.end_ pos /\
  Position.end_ pos <= length input /\
  (Token.type tok <> EOF -> Position.start pos < Position.end_ pos) /\
  (Position.line pos, Position.column pos)
  = cursorAfter (firstn (Position.start pos) input).

(** How the text of a token is found in the source text of its span. *)
Definition spelled (input : list ascii) (tok : Token.t) : Prop :=
  let pos := Token.position tok in
  let text := sourceText input (Position.start pos) (Position.end_ pos) in
  match Token.type tok with
  | EOF => text = EmptyString
  | COMMENT => text = "#" ++ Token.value tok
  | VARIABLE =>
      text = "$" ++ Token.value tok \/
      text = "${" ++ Token.value tok ++ "}" \/
      text = "${" ++ Token.value tok
  | QUOTED_STRING => True
  | _ => text = Token.value tok
  end.

(** The text that comes with each kind of token. *)
Definition kindText (tok : Token.t) : Prop :=
  let value := Token.value tok in
  match Token.type tok with
  | WORD => Tokenizer.getKeywordType value = None
  | PIPE => value = "|"
  | REDIRECT_OUT => value = ">"
  | REDIRECT_IN => value = "<"
  | REDIRECT_APPEND => value = ">>"
  | SEMICOLON => value = ";"
  | AMPERSAND => value = "&"
  | AND => value = "&&"
  | OR => value = "||"
  | LPAREN => value = "("
  | RPAREN => value = ")"
  | LBRACE => value = "{"
  | RBRACE => value = "}"
  | IF => value = "if"
  | THEN => value = "then"
  | ELSE => value = "else"
  | FI => value = "fi"
  | FOR => value = "for"
  | WHILE => value = "while"
  | DO => value = "do"
  | DONE => value = "done"
  | FUNCTION => value = "function"
  | NEWLINE => value = NL
  | EOF => value = EmptyString
  | INHERITED => In value Tokenizer.inheritedKeys
  | VARIABLE | QUOTED_STRING | COMMENT => True
  end.

(** The kinds whose token carries the source text of its span. *)
Definition plainKind (type : TokenType) : bool :=
  match type with
  | EOF | COMMENT | VARIABLE | QUOTED_STRING => false
  | _ => true
  end.

(** What a reader that starts at [s] makes: it leaves a located state
    further on, and its token spans from the offset of [s] to the offset
    it leaves, with the line and column of [s]. *)
Definition scans (s : Tokenizer.t) (r : Token.t * Tokenizer.t) : Prop :=
  located (snd r) /\
  Tokenizer.input (snd r) = Tokenizer.input s /\
  Tokenizer.position s < Tokenizer.position (snd r) /\
  Token.position (fst r)
  = Position.mk (Tokenizer.position s) (Tokenizer.position (snd r))
                (Tokenizer.line s) (Tokenizer.column s) /\
  spelled (Tokenizer.input s) (fst r) /\ kindText (fst r) /\
  Token.type (fst r) <> EOF.

Definition wellScanned (input : list ascii) (tok : Token.t) : Prop :=
  placed input tok /\ spelled input tok /\ kindText tok.

(** The tokens do not overlap and stand in the order of the source. *)
Definition ordered (tokens : list Token.t) : Prop :=
  forall i j ti tj,
    i < j -> nth_error tokens i = Some ti -> nth_error tokens j = Some tj ->
    Position.end_ (Token.position ti) <= Position.start (Token.position tj).

(** The tokens pushed when the scan stands at [s]. *)
Definition pushed (s : Tokenizer.t) (tokens : list Token.t) : Prop :=
  Forall (wellScanned (Tokenizer.input s)) tokens /\ ordered tokens /\
  Forall (fun tok => Position.end_ (Token.position tok) <= Tokenizer.position s /\
                     Token.type tok <> EOF) tokens.

(** The number of newlines among the characters. *)
Definition newlinesIn (chars : list ascii) : nat :=
  length (filter (fun c => Ascii.eqb c "010") chars).

(** The number of characters before the first newline. *)
Fixpoint untilNewline (chars : list ascii) : nat :=
  match chars with
  | [] => 0
  | c :: chars' => if Ascii.eqb c "010" then 0 else S (untilNewline chars')
  end.

(** What a quoted string reads from the text between its quotes: a
    backslash is dropped and the character after it kept. *)
Fixpoint unescape (chars : list ascii) : list ascii :=
  match chars with
  | [] => []
  | c :: chars' =>
      if Ascii.eqb c "\"
      then match chars' with
           | [] => []
           | escaped :: chars'' => escaped :: unescape chars''
           end
      else c :: unescape chars'
  end.

(** The text holds no quote [quote] but after a backslash, and does not
    end in a backslash that escapes nothing. *)
Fixpoint quotable (quote : ascii) (chars : list ascii) : Prop :=
  match chars with
  | [] => True
  | c :: chars' =>
      if Ascii.eqb c "\"
      then match chars' with
           | [] => False
           | _ :: chars'' => quotable quote chars''
           end
      else c <> quote /\ quotable quote chars'
  end.

(** The token that closes the sequence of [tokenize]: of kind [EOF],
    without text, at the end of the input. *)
Definition eofAt (input : list ascii) : Token.t :=
  Token.mk EOF EmptyString
           (Position.mk (length input) (length input)
                        (fst (cursorAfter input)) (snd (cursorAfter input))).

(** The characters not yet read. *)
Definition unread (s : Tokenizer.t) : list ascii :=
  skipn (Tokenizer.position s) (Tokenizer.input s).

(** The span of a token of [size] characters read from the state [s]. *)
Definition spanFrom (s : Tokenizer.t) (size : nat) : Position.t :=
  Position.mk (Tokenizer.position s) (Tokenizer.position s + size)
              (Tokenizer.line s) (Tokenizer.column s).

(** The characters at which [nextToken] starts a comment, a newline, an
    operator, a quoted string or a variable. *)
Definition special : list ascii :=
  [ "#"; "010"; "|"; "&"; ">"; "<"; ";"; "("; ")"; "{"; "}"; "034"; "'"; "$" ]%char.

(** The kind [readWord] gives a run of word characters. *)
Definition wordKind (value : string) : TokenType :=
  match Tokenizer.getKeywordType value with
  | Some kind => kind
  | None => WORD
  end.

(** ** Predicates of the further properties of the builder *)

(** The messages of the errors [parse] raises. *)
Definition expectations : list string :=
  [ "Expected command name"; "Expected expression"; "Expected '='";
    "Expected 'then'"; "Expected 'fi'"; "Expected variable name"; "Expected 'in'";
    "Expected 'do'"; "Expected 'done'"; "Expected function name";
    "Expected '('"; "Expected ')'"; "Expected '{'"; "Expected '}'" ].

(** Where the outcome is a return the cursor stands at a token; where
    it is a [ParseError] the error carries one of the [expectations] and
    the position of the token at which the cursor stands. *)
Definition raises (tokens : list Token.t) {A} (o : BashParser.Outcome A) : Prop :=
  match o with
  | BashParser.Return _ p => p < length tokens
  | BashParser.Throw (BashParser.Parse e) p =>
      In (ParseError.message e) expectations /\
      exists tok, nth_error tokens p = Some tok /\
                  ParseError.position e = Some (Token.position tok)
  | _ => True
  end.

(** The name a statement node carries: of a command, of a function,
    of the variable of an assignment or of a [for] loop. *)
Definition nodeName (stmt : Statement) : option string :=
  match stmt with
  | Cmd command => Some (Command.name command)
  | FunctionDeclaration name _ _ => Some name
  | VariableAssignment name _ _ => Some name
  | Loop _ _ variable _ _ _ => variable
  | _ => None
  end.

(** The kinds at which [parseStatement] starts a statement. *)
Definition starts (type : TokenType) : bool :=
  match type with
  | IF | FOR | WHILE | FUNCTION | WORD => true
  | _ => false
  end.

(** The kinds of the tokens that part two statements: a token of such a
    kind ends the command before it and starts no statement.  A comment
    is none: it is passed over with the token after it. *)
Definition separator (type : TokenType) : bool :=
  match type with
  | IF | FOR | WHILE | FUNCTION | WORD | QUOTED_STRING | PIPE | COMMENT | EOF => false
  | _ => true
  end.

(** A simple command and the bars and simple commands after it. *)
Definition Piped : Type := list Token.t * list (Token.t * list Token.t).

Definition pipedTokens (s : Piped) : list Token.t :=
  (fst s ++ flat_map piped (snd s))%list.

(** The tokens [s], with the token [next] after them, are a command or a
    pipeline that the statement dispatch does not take for an
    assignment. *)
Definition isPiped (s : Piped) (next : Token.t) : Prop :=
  simpleCommand (fst s) /\ Forall barred (snd s) /\
  notAssignment (pipedTokens s ++ [next])%list.

(** The statement reads the commands of [s] in order: a bare command
    for one, a pipeline for more. *)
Definition pipedStatement (s : Piped) (stmt : Statement) : Prop :=
  exists command commands,
    pipelineOf (command :: commands) = Some stmt /\
    commandOf (fst s) command /\ Forall2 commandOf (map snd (snd s)) commands.

(** Statements, each with the token that follows it. *)
Definition separated (items : list (Piped * Token.t)) : list Token.t :=
  flat_map (fun item => pipedTokens (fst item) ++ [snd item])%list items.

Definition finalTokens (final : option Piped) : list Token.t :=
  match final with
  | Some s => pipedTokens s
  | None => []
  end.

Definition finalItems (final : option Piped) : list Piped :=
  match final with
  | Some s => [s]
  | None => []
  end.

(** The kind of the token that closes the construct a token opens. *)
Definition closer (type : TokenType) : option TokenType :=
  match type with
  | IF => Some FI
  | FOR | WHILE => Some DONE
  | FUNCTION => Some RBRACE
  | _ => None
  end.

(** The operators of one or two characters: the character, the kind of
    the doubled form and the kind of the single one. *)
Definition operators : list (ascii * TokenType * TokenType) :=
  [ ("|"%char, OR, PIPE); ("&"%char, AND, AMPERSAND);
    (">"%char, REDIRECT_APPEND, REDIRECT_OUT) ].

(** The expressions a statement node holds. *)
Definition expressionsOf (stmt : Statement) : list Expression :=
  match stmt with
  | Conditional condition _ _ _ => [condition]
  | Loop _ condition _ iterable _ _ =>
      (match condition with Some e => [e] | None => [] end
       ++ match iterable with Some e => [e] | None => [] end)%list
  | VariableAssignment _ value _ => [value]
  | _ => []
  end.

(** A token [parseExpression] reads. *)
Definition isExpression (tok : Token.t) : Prop :=
  isArgument tok \/ Token.type tok = VARIABLE.

(** The expression [parseExpression] makes of a token it reads. *)
Definition expressionOf (tok : Token.t) : Expression :=
  if TokenType_beq (Token.type tok) VARIABLE
  then Variable_ (Token.value tok) (Some (Token.position tok))
  else Literal (Token.value tok) (TokenType_beq (Token.type tok) QUOTED_STRING)
               (Some (Token.position tok)).


(** The kinds that close a construct or start its else branch. *)
Definition closing (type : TokenType) : bool :=
  match type with
  | FI | ELSE | DONE | RBRACE => true
  | _ => false
  end.

(** The opening of a construct up to its body, as tokens, with the kind
    of the token that closes the construct and the node the construct
    makes of the statements of its body and of its position. *)
Inductive Opening :
  list Token.t -> TokenType -> (list Statement -> option Position.t -> Statement) -> Prop :=
| Opening_if kw condition then_ :
    Token.type kw = IF -> isExpression condition -> Token.type then_ = THEN ->
    Opening [kw; condition; then_] FI
            (fun body => Conditional (expressionOf condition) body None)
| Opening_while kw condition do :
    Token.type kw = WHILE -> isExpression condition -> Token.type do = DO ->
    Opening [kw; condition; do] DONE
            (fun body => Loop (Token.value kw) (Some (expressionOf condition)) None None body)
| Opening_for kw variable word iterable do :
    Token.type kw = FOR -> Token.type variable = WORD -> Token.type word = WORD ->
    isExpression iterable -> Token.type do = DO ->
    Opening [kw; variable; word; iterable; do] DONE
            (fun body => Loop (Token.value kw) None (Some (Token.value variable))
                              (Some (expressionOf iterable)) body)
| Opening_function kw name lparen rparen lbrace :
    Token.type kw = FUNCTION -> Token.type name = WORD ->
    Token.type lparen = LPAREN -> Token.type rparen = RPAREN ->
    Token.type lbrace = LBRACE ->
    Opening [kw; name; lparen; rparen; lbrace] RBRACE
            (fun body => FunctionDeclaration (Token.value name) body).

(** A statement of a body and the token after it, which closes
    nothing. *)
Definition bodyItem (item : Piped * Token.t) : Prop :=
  isPiped (fst item) (snd item) /\
  separator (Token.type (snd item)) = true /\
  closing (Token.type (snd item)) = false.

(** * Properties of the scanner *)

Module TokenizerFacts.
Import Tokenizer.
#[local] Open Scope list_scope.

Lemma advance_input s : input (advance s) = input s.
Proof. unfold advance. destruct (current s =? NL); reflexivity. Qed.

Lemma advance_position s : position (advance s) = S (position s).
Proof. unfold advance. destruct (current s =? NL); reflexivity. Qed.

Lemma after_refl s : after s s.
Proof. split; auto. Qed.

Lemma after_trans s1 s2 s3 : after s1 s2 -> after s2 s3 -> after s1 s3.
Proof. unfold after. intros [? ?] [? ?]. split; [congruence | lia]. Qed.

Lemma after_advance s : after s (advance s).
Proof. split; [apply advance_input | rewrite advance_position; lia]. Qed.

Lemma after_advance_lt s s' : after (advance s) s' -> after s s' /\ position s < position s'.
Proof.
  intros [Hi Hp]. rewrite advance_input in Hi. rewrite advance_position in Hp.
  repeat split; auto; lia.
Qed.

Create HintDb scan.
#[local] Hint Resolve after_refl after_advance : scan.

Lemma left_advance s : inBounds s = true -> left (advance s) < left s.
Proof.
  unfold inBounds, left. rewrite advance_input, advance_position.
  intros H. apply Nat.ltb_lt in H. lia.
Qed.

Lemma left_zero s : left s = 0 -> inBounds s = false.
Proof. unfold left, inBounds. intros H. apply Nat.ltb_ge. lia. Qed.

(** ** The loops: they move forward, and they stop on their own condition *)

Lemma skipWhitespace_loop_after n : forall s, after s (skipWhitespace_loop n s).
Proof.
  induction n as [|n IH]; intros s; simpl; auto with scan.
  destruct (inBounds s && test blankClass (current s)); auto with scan.
  eapply after_trans; [apply after_advance | apply IH].
Qed.

Lemma skipWhitespace_loop_exit n : forall s,
    left s <= n ->
    let s' := skipWhitespace_loop n s in
    inBounds s' && test blankClass (current s') = false.
Proof.
  induction n as [|n IH]; intros s Hn; simpl.
  - rewrite left_zero by lia. reflexivity.
  - destruct (inBounds s && test blankClass (current s)) eqn:E; auto.
    apply IH. apply andb_prop in E as [E _]. apply left_advance in E. lia.
Qed.

Lemma collect_loop_after cond n : forall value s,
    after s (snd (collect_loop cond n value s)).
Proof.
  induction n as [|n IH]; intros value s; simpl; auto with scan.
  destruct (inBounds s && cond (current s)); simpl; auto with scan.
  eapply after_trans; [apply after_advance | apply IH].
Qed.

Lemma collect_loop_exit cond n : forall value s,
    left s <= n ->
    let s' := snd (collect_loop cond n value s) in
    inBounds s' && cond (current s') = false.
Proof.
  induction n as [|n IH]; intros value s Hn; simpl.
  - rewrite left_zero by lia. reflexivity.
  - destruct (inBounds s && cond (current s)) eqn:E; auto.
    apply IH. apply andb_prop in E as [E _]. apply left_advance in E. lia.
Qed.

Lemma readQuotedString_loop_after quote n : forall value s,
    after s (snd (readQuotedString_loop quote n value s)).
Proof.
  induction n as [|n IH]; intros value s; simpl; auto with scan.
  destruct (inBounds s && negb (current s =? quote)); simpl; auto with scan.
  destruct (current s =? "\").
  - destruct (inBounds (advance s)).
    + eapply after_trans; [apply after_advance |].
      eapply after_trans; [apply after_advance | apply IH].
    + eapply after_trans; [apply after_advance | apply IH].
  - eapply after_trans; [apply after_advance | apply IH].
Qed.

Lemma readQuotedString_loop_exit quote n : forall value s,
    left s <= n ->
    let s' := snd (readQuotedString_loop quote n value s) in
    inBounds s' && negb (current s' =? quote) = false.
Proof.
  induction n as [|n IH]; intros value s Hn; simpl.
  - rewrite left_zero by lia. reflexivity.
  - destruct (inBounds s && negb (current s =? quote)) eqn:E; auto.
    apply andb_prop in E as [E _]. pose proof (left_advance _ E) as L.
    destruct (current s =? "\").
    + destruct (inBounds (advance s)) eqn:E1.
      * apply IH. apply left_advance in E1. lia.
      * apply IH. lia.
    + apply IH. lia.
Qed.

(** ** One token *)

Lemma keywordText_other type value pos :
  type <> FOR -> type <> WHILE -> keywordText (Token.mk type value pos).
Proof. intros H1 H2. split; simpl; intros; congruence. Qed.

Lemma getKeywordType_text value type :
  getKeywordType value = Some type ->
  (type = FOR -> value = "for") /\ (type = WHILE -> value = "while") /\ type <> EOF
  /\ type <> WORD.
Proof.
  unfold getKeywordType.
  repeat match goal with
         | |- context [if ?v =? ?k then _ else _] =>
             let E := fresh "E" in
             destruct (String.eqb_spec v k) as [E|E];
             [ intros H; inversion H; subst; repeat split; (congruence || auto) | ]
         end.
  destruct (existsb _ _); intros H; inversion H; subst; repeat split; congruence.
Qed.

Ltac reads_solve :=
  unfold reads, after, keywordText; simpl;
  rewrite ?advance_input, ?advance_position;
  repeat split; auto; try lia; simpl; intros; congruence.

Lemma single_reads type char s :
  type <> FOR -> type <> WHILE -> type <> EOF ->
  reads s (single type char (getPosition s) s).
Proof.
  intros. unfold single. reads_solve.
Qed.

Lemma operator_reads char two one s :
  two <> FOR -> two <> WHILE -> two <> EOF ->
  one <> FOR -> one <> WHILE -> one <> EOF ->
  reads s (operator char two one (getPosition s) s).
Proof.
  intros. unfold operator.
  destruct (current (advance s) =? char); reads_solve.
Qed.

Lemma readComment_reads s : reads s (readComment s).
Proof.
  unfold readComment, collect.
  pose proof (collect_loop_after (fun c => negb (c =? NL)) (left (advance s))
                                 EmptyString (advance s)) as H.
  destruct (collect_loop _ _ _ _) as [value s2]; simpl in H.
  apply after_advance_lt in H as [[Hi Hp] Hlt].
  reads_solve.
Qed.

Lemma readQuotedString_reads quote s : reads s (readQuotedString quote s).
Proof.
  unfold readQuotedString.
  pose proof (readQuotedString_loop_after quote (left (advance s))
                                          EmptyString (advance s)) as H.
  destruct (readQuotedString_loop _ _ _ _) as [value s2]; simpl in H.
  apply after_advance_lt in H as [[Hi Hp] Hlt].
  destruct (current s2 =? quote); reads_solve.
Qed.

Lemma readVariable_reads s : reads s (readVariable s).
Proof.
  unfold readVariable, collect.
  destruct (current (advance s) =? "{").
  - pose proof (collect_loop_after (fun c => negb (c =? "}")) (left (advance (advance s)))
                                   EmptyString (advance (advance s))) as H.
    destruct (collect_loop _ _ _ _) as [value s3]; simpl in H.
    apply after_advance_lt in H as [H _].
    apply after_advance_lt in H as [[Hi Hp] Hlt].
    destruct (current s3 =? "}"); reads_solve.
  - pose proof (collect_loop_after isWordChar (left (advance s))
                                   EmptyString (advance s)) as H.
    destruct (collect_loop _ _ _ _) as [value s2]; simpl in H.
    apply after_advance_lt in H as [[Hi Hp] Hlt].
    reads_solve.
Qed.

Lemma collect_loop_moves cond n value s :
  0 < n -> inBounds s && cond (current s) = true ->
  position s < position (snd (collect_loop cond n value s)).
Proof.
  destruct n as [|n]; [lia|]. intros _ E. simpl. rewrite E.
  pose proof (collect_loop_after cond n (value ++ current s) (advance s)) as H.
  apply after_advance_lt in H. tauto.
Qed.

Lemma readWord_reads s : inBounds s = true -> reads s (readWord s).
Proof.
  intros Hb. unfold readWord, collect.
  destruct (isWordChar (current s)) eqn:Ew; simpl.
  - pose proof (collect_loop_after isWordChar (left s) EmptyString s) as [Hi Hp].
    assert (Hm : position s < position (snd (collect_loop isWordChar (left s) EmptyString s))).
    { apply collect_loop_moves.
      - unfold inBounds in Hb. apply Nat.ltb_lt in Hb. unfold left. lia.
      - rewrite Hb, Ew. reflexivity. }
    destruct (collect_loop _ _ _ _) as [value s1]; simpl in *.
    unfold reads, after, keywordText; simpl. repeat split; auto.
    all: destruct (getKeywordType value) as [k|] eqn:Ek; simpl; try congruence.
    all: apply getKeywordType_text in Ek; intuition congruence.
  - reads_solve.
Qed.

Lemma nextToken_moves s :
  inBounds s = true ->
  after s (snd (nextToken s)) /\ position s < position (snd (nextToken s)) /\
  forall tok, fst (nextToken s) = Some tok ->
    position s <= Position.start (Token.position tok) /\
    Position.end_ (Token.position tok) = position (snd (nextToken s)) /\
    keywordText tok /\ Token.type tok <> EOF.
Proof.
  intros Hb. unfold nextToken.
  pose proof (skipWhitespace_loop_after (left s) s) as Hs.
  fold (skipWhitespace s) in Hs.
  destruct (inBounds (skipWhitespace s)) eqn:Hb1; simpl.
  - assert (R : forall r, reads (skipWhitespace s) r ->
              after s (snd (some r)) /\ position s < position (snd (some r)) /\
              forall tok, fst (some r) = Some tok ->
                position s <= Position.start (Token.position tok) /\
                Position.end_ (Token.position tok) = position (snd (some r)) /\
                keywordText tok /\ Token.type tok <> EOF).
    { intros [tok s'] (Ha & Hlt & Hst & Hen & Hk & Ht). simpl in *.
      split; [eapply after_trans; eauto|].
      destruct Hs as [Hi Hp]. split; [lia|].
      intros tok' E; inversion E; subst. split; [lia|]. auto. }
    repeat match goal with
           | |- context [if ?c then _ else _] => destruct c
           end; apply R;
      first [ apply readComment_reads | apply single_reads; discriminate
            | apply operator_reads; discriminate | apply readQuotedString_reads
            | apply readVariable_reads | apply readWord_reads; assumption ].
  - split; [assumption|]. split; [|discriminate].
    unfold inBounds in *. apply Nat.ltb_lt in Hb. apply Nat.ltb_ge in Hb1.
    destruct Hs as [Hi Hp]. rewrite Hi in Hb1. lia.
Qed.

(** ** The whole input *)

Lemma endsAscend_snoc tokens tok :
  endsAscend tokens ->
  Forall (fun t => Position.end_ (Token.position t) <= Position.end_ (Token.position tok))
         tokens ->
  endsAscend (tokens ++ [tok]).
Proof.
  intros Ha Hf i j ti tj Hij Hi Hj.
  destruct (Nat.lt_ge_cases j (length tokens)) as [Hlt|Hge].
  - rewrite nth_error_app1 in Hi, Hj by lia. eauto.
  - rewrite nth_error_app2 in Hj by lia.
    destruct (j - length tokens) as [|k] eqn:Ej; simpl in Hj;
      [inversion Hj; subst tj | destruct k; discriminate].
    destruct (Nat.lt_ge_cases i (length tokens)) as [Hlti|Hgei].
    + rewrite nth_error_app1 in Hi by lia.
      rewrite Forall_forall in Hf. apply Hf. eapply nth_error_In; eauto.
    + rewrite nth_error_app2 in Hi by lia.
      assert (E : i - length tokens = 0) by lia. rewrite E in Hi.
      inversion Hi; subst. lia.
Qed.

Lemma scanned_later pos pos' tokens :
  pos <= pos' -> scanned pos tokens -> scanned pos' tokens.
Proof.
  intros Hle [Ha Hf]. split; auto.
  eapply Forall_impl; [|exact Hf]. simpl. intros t (? & ? & ?). split; [lia|auto].
Qed.

Lemma scanned_snoc pos tokens tok :
  scanned pos tokens -> pos <= Position.end_ (Token.position tok) ->
  keywordText tok -> Token.type tok <> EOF ->
  scanned (Position.end_ (Token.position tok)) (tokens ++ [tok]).
Proof.
  intros [Ha Hf] Hle Hk Ht. split.
  - apply endsAscend_snoc; auto.
    eapply Forall_impl; [|exact Hf]. simpl. intros t (? & ? & ?). lia.
  - apply Forall_app. split.
    + eapply Forall_impl; [|exact Hf]. simpl. intros t (? & ? & ?).
      split; [lia|auto].
    + constructor; auto.
Qed.

Lemma tokenize_loop_total fuel : forall tokens s,
    left s < fuel -> scanned (position s) tokens ->
    exists result, tokenize_loop fuel tokens s = Some result /\ tokenized result.
Proof.
  induction fuel as [|fuel IH]; intros tokens s Hfuel Hsc; [lia|].
  simpl. destruct (inBounds s) eqn:Hb.
  - destruct (nextToken_moves s Hb) as ([Hi Hp] & Hlt & Htok).
    assert (Hleft : left (snd (nextToken s)) < fuel).
    { unfold left in *. rewrite Hi. unfold inBounds in Hb. apply Nat.ltb_lt in Hb. lia. }
    destruct (nextToken s) as [[tok|] s1]; simpl in *.
    + destruct (Htok tok eq_refl) as (Hst & Hen & Hk & Ht).
      apply IH; auto. rewrite <- Hen.
      apply scanned_snoc with (pos := position s); auto. lia.
    + apply IH; auto. eapply scanned_later; [|exact Hsc]. lia.
  - eexists. split; [reflexivity|].
    exists tokens, (createToken EOF EmptyString None s).
    destruct Hsc as [Ha Hf]. repeat split; auto.
    + eapply Forall_impl; [|exact Hf]. simpl. tauto.
    + apply endsAscend_snoc; auto.
      eapply Forall_impl; [|exact Hf]. simpl. tauto.
Qed.

(** [tokenize] returns on every input. *)
Lemma tokenize_total input :
  exists tokens, tokenize input = Some tokens /\ tokenized tokens.
Proof.
  unfold tokenize. apply tokenize_loop_total.
  - unfold left, init. simpl. lia.
  - split; [|constructor].
    intros i j ti tj _ Hi. destruct i; discriminate.
Qed.

(** ** Input of spaces, tabs and newlines *)

Lemma current_char s :
  inBounds s = true ->
  exists c, In c (input s) /\ current s = String c EmptyString.
Proof.
  unfold inBounds, current. intros H. apply Nat.ltb_lt in H.
  destruct (nth_error (input s) (position s)) as [c|] eqn:E.
  - exists c. split; auto. eapply nth_error_In; eauto.
  - apply nth_error_None in E. lia.
Qed.

Lemma nextToken_whitespace s tok :
  Forall whitespace (input s) -> inBounds s = true ->
  fst (nextToken s) = Some tok -> Token.type tok = NEWLINE.
Proof.
  intros Hw Hb. unfold nextToken.
  pose proof (skipWhitespace_loop_exit (left s) s (le_n _)) as Hexit.
  pose proof (skipWhitespace_loop_after (left s) s) as [Hi _].
  fold (skipWhitespace s) in Hexit, Hi. cbv zeta in Hexit.
  destruct (inBounds (skipWhitespace s)) eqn:Hb1; simpl; [|discriminate].
  destruct (current_char _ Hb1) as (c & Hin & Hc).
  rewrite Hi in Hin. rewrite Forall_forall in Hw.
  rewrite Hc in *. simpl in Hexit.
  destruct (Hw c Hin) as [ -> | [ -> | -> ] ]; try discriminate.
  simpl. intros E. inversion E. reflexivity.
Qed.

Lemma tokenize_loop_whitespace fuel : forall tokens s,
    Forall whitespace (input s) -> left s < fuel ->
    Forall (fun t => Token.type t = NEWLINE) tokens ->
    exists newlines eof,
      tokenize_loop fuel tokens s = Some (newlines ++ [eof]) /\
      Forall (fun t => Token.type t = NEWLINE) newlines /\ Token.type eof = EOF.
Proof.
  induction fuel as [|fuel IH]; intros tokens s Hw Hf Hn; [lia|].
  simpl. destruct (inBounds s) eqn:Hb.
  - destruct (nextToken_moves s Hb) as ([Hi Hp] & Hlt & _).
    pose proof (nextToken_whitespace s) as Htok.
    assert (Hleft : left (snd (nextToken s)) < fuel).
    { unfold left in *. rewrite Hi. unfold inBounds in Hb. apply Nat.ltb_lt in Hb. lia. }
    destruct (nextToken s) as [[tok|] s1]; simpl in *.
    + apply IH; auto; [rewrite Hi; assumption|].
      apply Forall_app. split; auto.
    + apply IH; auto. rewrite Hi. assumption.
  - exists tokens, (createToken EOF EmptyString None s). auto.
Qed.

Lemma tokenize_whitespace input :
  Forall whitespace (list_ascii_of_string input) ->
  exists newlines eof,
    tokenize input = Some (newlines ++ [eof]) /\
    Forall (fun t => Token.type t = NEWLINE) newlines /\ Token.type eof = EOF.
Proof.
  intros H. unfold tokenize. apply tokenize_loop_whitespace; auto.
  unfold left, init. simpl. lia.
Qed.

End TokenizerFacts.

(** * Properties of the builder *)

Module BuilderFacts.
Import BashParser.
#[local] Open Scope list_scope.
#[local] Open Scope builder_scope.

Lemma TokenType_beq_eq a b : TokenType_beq a b = true <-> a = b.
Proof.
  split; [apply internal_TokenType_dec_bl | apply internal_TokenType_dec_lb].
Qed.

Lemma TokenType_beq_neq a b : TokenType_beq a b = false <-> a <> b.
Proof.
  pose proof (TokenType_beq_eq a b) as H.
  destruct (TokenType_beq a b); split; intros; intuition congruence.
Qed.

Lemma sat_bind {A B} (m : M A) (k : A -> M B) (Q : A -> nat -> Prop)
      (R : B -> nat -> Prop) p :
  sat (m p) Q -> (forall a p', Q a p' -> sat (k a p') R) -> sat (bind m k p) R.
Proof.
  unfold bind. destruct (m p) as [a p'|[e|] p'|]; simpl; auto; tauto.
Qed.

Lemma sat_weaken {A} (o : Outcome A) (Q R : A -> nat -> Prop) :
  sat o Q -> (forall a p, Q a p -> R a p) -> sat o R.
Proof. destruct o as [a p'|[e|] p'|]; simpl; auto. Qed.

Lemma sat_ret {A} (a : A) (Q : A -> nat -> Prop) p : Q a p -> sat (ret a p) Q.
Proof. auto. Qed.

Lemma bind_ret {A B} (a : A) (k : A -> M B) p : bind (ret a) k p = k a p.
Proof. reflexivity. Qed.

Lemma bind_get {A B} (f : nat -> A) (k : A -> M B) p : bind (get f) k p = k (f p) p.
Proof. reflexivity. Qed.

Lemma bind_bind {A B C} (m : M A) (k : A -> M B) (h : B -> M C) p :
  bind (bind m k) h p = bind m (fun a => bind (k a) h) p.
Proof. unfold bind. destruct (m p); reflexivity. Qed.

(** Steps over the pure parts of a method's body. *)
Ltac pure := repeat first [rewrite bind_ret | rewrite bind_get]; cbv beta.

Section Facts.

Variable tokens : list Token.t.

#[local] Abbreviation size := (length tokens).

Lemma check_typeAt type p : check tokens type p = true <-> typeAt tokens p type.
Proof.
  unfold check, currentToken, typeAt. destruct (nth_error tokens p) as [tok|].
  - rewrite TokenType_beq_eq. split; eauto. intros (t & E & H). congruence.
  - split; [discriminate | intros (t & E & _); discriminate].
Qed.

Lemma check_token type p tok :
  nth_error tokens p = Some tok ->
  check tokens type p = TokenType_beq (Token.type tok) type.
Proof. unfold check, currentToken. intros ->. reflexivity. Qed.

Lemma typeAt_lt p type : typeAt tokens p type -> p < size.
Proof. intros (t & E & _). apply nth_error_Some. congruence. Qed.

Lemma isAtEnd_false p : isAtEnd tokens p = false -> p < size.
Proof.
  unfold isAtEnd. intros H. apply orb_false_elim in H as [H _].
  apply Nat.leb_gt in H. exact H.
Qed.

Lemma isAtEnd_token p tok :
  nth_error tokens p = Some tok -> Token.type tok <> EOF -> isAtEnd tokens p = false.
Proof.
  intros E H. unfold isAtEnd. rewrite (check_token _ _ _ E).
  apply TokenType_beq_neq in H. rewrite H.
  assert (p < size) by (apply nth_error_Some; congruence).
  rewrite orb_false_r. apply Nat.leb_gt. assumption.
Qed.

(** ** The cursor *)

Lemma advance_token p tok :
  nth_error tokens p = Some tok -> Token.type tok <> EOF ->
  advance tokens p = Return (Some tok) (S p).
Proof.
  intros E H. unfold advance. rewrite (isAtEnd_token _ _ E H). congruence.
Qed.

Lemma bind_advance {B} (k : option Token.t -> M B) p tok :
  nth_error tokens p = Some tok -> Token.type tok <> EOF ->
  bind (advance tokens) k p = k (Some tok) (S p).
Proof. intros E H. unfold bind. rewrite (advance_token _ _ E H). reflexivity. Qed.

Lemma advance_sat p :
  sat (advance tokens p)
      (fun _ p' => p' = if isAtEnd tokens p then p else S p).
Proof. unfold advance. simpl. reflexivity. Qed.

Lemma consume_sat type message p :
  type <> EOF ->
  sat (consume tokens type message p)
      (fun r p' => p' = S p /\
                   exists tok, r = Some tok /\ nth_error tokens p = Some tok /\
                               Token.type tok = type).
Proof.
  intros Ht. unfold consume. destruct (check tokens type p) eqn:E.
  - apply check_typeAt in E as (tok & E & Hty).
    rewrite (advance_token _ _ E) by congruence. simpl. eauto.
  - simpl. exact I.
Qed.

Lemma field_sat {A} (f : Token.t -> A) tok p :
  sat (field f (Some tok) p) (fun a p' => a = f tok /\ p' = p).
Proof. simpl. auto. Qed.

(** ** Slices of the token sequence *)

Lemma slice_nil p : slice tokens p p = [].
Proof. unfold slice. rewrite Nat.sub_diag. reflexivity. Qed.

Lemma skipn_nth p tok :
  nth_error tokens p = Some tok -> skipn p tokens = tok :: skipn (S p) tokens.
Proof.
  generalize dependent p. generalize tokens as l.
  induction l as [|x l IH]; intros [|p] E; try discriminate.
  - inversion E. reflexivity.
  - simpl in E. rewrite (skipn_cons p x l). rewrite (IH p E). reflexivity.
Qed.

Lemma slice_cons p p' tok :
  nth_error tokens p = Some tok -> p < p' ->
  slice tokens p p' = tok :: slice tokens (S p) p'.
Proof.
  intros E H. unfold slice. rewrite (skipn_nth _ _ E).
  replace (p' - p) with (S (p' - S p)) by lia. reflexivity.
Qed.

(** ** Expressions and commands *)

Lemma parseExpression_sat p :
  sat (parseExpression tokens p)
      (fun e p' => p' = S p /\ BuiltExpression tokens p e).
Proof.
  unfold parseExpression.
  destruct (check tokens WORD p || check tokens QUOTED_STRING p) eqn:E.
  - assert (exists tok, nth_error tokens p = Some tok /\ isArgument tok)
      as (tok & Hn & Ha).
    { apply orb_prop in E as [E|E]; apply check_typeAt in E as (tok & ? & ?);
        exists tok; unfold isArgument; auto. }
    unfold bind.
    rewrite (advance_token _ _ Hn) by (destruct Ha; congruence).
    simpl. split; auto. constructor; auto.
  - destruct (check tokens VARIABLE p) eqn:E1.
    + apply check_typeAt in E1 as (tok & Hn & Ht).
      unfold bind. rewrite (advance_token _ _ Hn) by congruence.
      simpl. split; auto. constructor; auto.
    + simpl. exact I.
Qed.

Lemma parseCommand_args_sat fuel : forall args p,
    size - p < fuel -> p <= size ->
    sat (parseCommand_args tokens fuel args p)
        (fun args' p' =>
           p <= p' /\ p' <= size /\
           args' = args ++ map Token.value (slice tokens p p') /\
           Forall (isArgument) (slice tokens p p')).
Proof.
  induction fuel as [|fuel IH]; intros args p Hf Hp; [lia|].
  simpl. destruct (check tokens WORD p || check tokens QUOTED_STRING p) eqn:E.
  - assert (exists tok, nth_error tokens p = Some tok /\ isArgument tok)
      as (tok & Hn & Ha).
    { apply orb_prop in E as [E|E]; apply check_typeAt in E as (tok & ? & ?);
        exists tok; unfold isArgument; auto. }
    assert (p < size) by (apply nth_error_Some; congruence).
    unfold bind. rewrite (advance_token _ _ Hn) by (destruct Ha; congruence).
    simpl. eapply sat_weaken; [apply IH; lia|].
    simpl. intros args' p' (H1 & H2 & H3 & H4).
    rewrite (slice_cons _ _ _ Hn) by lia. simpl.
    repeat split; auto; try lia.
    rewrite H3, <- app_assoc. reflexivity.
  - simpl. rewrite slice_nil, app_nil_r. repeat split; auto.
Qed.

Lemma parseCommand_sat fuel p :
  size - p <= fuel ->
  sat (parseCommand tokens fuel p) (fun c p' => BuiltCommand tokens p p' c).
Proof.
  intros Hf. unfold parseCommand.
  destruct (check tokens WORD p) eqn:E; simpl; [|exact I].
  apply check_typeAt in E as (tok & Hn & Ht).
  assert (p < size) by (apply nth_error_Some; congruence).
  rewrite (bind_advance _ _ _ Hn) by congruence. simpl field. pure.
  eapply sat_bind; [apply parseCommand_args_sat; lia|].
  simpl. intros args p' (H1 & H2 & H3 & H4). subst args. pure.
  apply (Built_Command tokens p p' tok); auto.
Qed.

Lemma BuiltCommand_lt first next c :
  BuiltCommand tokens first next c -> first < next /\ next <= size.
Proof. intros H. inversion H; subst. auto. Qed.

Lemma BuiltPipeline_lt first next cs :
  BuiltPipeline tokens first next cs -> first < next /\ next <= size /\ 1 <= length cs.
Proof.
  induction 1 as [first next c Hc | first bar next cs c Hp IH Hb Hc].
  - apply BuiltCommand_lt in Hc. simpl. lia.
  - apply BuiltCommand_lt in Hc. rewrite length_app. simpl. lia.
Qed.

Lemma BuiltPipeline_single first next c :
  BuiltPipeline tokens first next [c] -> BuiltCommand tokens first next c.
Proof.
  intros H. remember [c] as l eqn:El.
  destruct H as [first next c0 Hc | first bar next cs c' Hp Hb Hc].
  - inversion El; subst. exact Hc.
  - apply BuiltPipeline_lt in Hp.
    destruct cs as [|x [|y cs]]; simpl in *; try lia; discriminate.
Qed.

Lemma parsePipeline_rest_sat fuel : forall commands p first,
    size - p < fuel -> BuiltPipeline tokens first p commands ->
    sat (parsePipeline_rest tokens fuel commands p)
        (fun cs p' => p <= p' /\ BuiltPipeline tokens first p' cs).
Proof.
  induction fuel as [|fuel IH]; intros commands p first Hf Hb; [lia|].
  simpl. destruct (check tokens PIPE p) eqn:E.
  - pose proof E as Hbar. apply check_typeAt in Hbar.
    destruct Hbar as (tok & Hn & Ht).
    assert (p < size) by (apply nth_error_Some; congruence).
    rewrite (bind_advance _ _ _ Hn) by congruence.
    eapply sat_bind; [apply parseCommand_sat; lia|].
    simpl. intros c p1 Hc. pose proof (BuiltCommand_lt _ _ _ Hc).
    eapply sat_weaken.
    + apply (IH _ _ first); [lia|].
      eapply Built_piped; eauto. apply check_typeAt. exact E.
    + simpl. intros cs p' [? ?]. split; auto. lia.
  - simpl. auto.
Qed.

Lemma parsePipeline_sat fuel p :
  size - p <= fuel -> p < size ->
  sat (parsePipeline tokens fuel p) (fun s p' => p < p' /\ Built tokens p p' s).
Proof.
  intros Hf Hp. unfold parsePipeline.
  eapply sat_bind; [apply parseCommand_sat; lia|].
  simpl. intros c p1 Hc. pose proof (BuiltCommand_lt _ _ _ Hc).
  eapply sat_bind.
  - apply (parsePipeline_rest_sat _ _ _ p); [lia|]. constructor. exact Hc.
  - simpl. intros cs p' [Hle Hb]. pose proof (BuiltPipeline_lt _ _ _ Hb).
    destruct cs as [|c1 [|c2 cs]]; simpl in *; try lia.
    + split; [lia|]. constructor. apply BuiltPipeline_single. exact Hb.
    + split; [lia|]. constructor; auto. simpl. lia.
Qed.

Lemma isVariableAssignment_true p :
  isVariableAssignment tokens p = true ->
  exists tok next,
    nth_error tokens p = Some tok /\ Token.type tok = WORD /\
    nth_error tokens (1 + p) = Some next /\ Token.value next = "="%string.
Proof.
  unfold isVariableAssignment. rewrite Nat.add_1_r.
  destruct (check tokens WORD p) eqn:E;
    [rewrite andb_true_l | rewrite andb_false_l; discriminate].
  apply check_typeAt in E as (tok & Hn & Ht).
  destruct (S p <? size)%nat; [|discriminate].
  destruct (nth_error tokens (S p)) as [next|] eqn:En; intros H; [|discriminate].
  apply String.eqb_eq in H. exists tok, next. auto.
Qed.

Lemma isVariableAssignment_iff p :
  isVariableAssignment tokens p = true <->
  check tokens WORD p = true /\
  exists next, nth_error tokens (p + 1) = Some next /\ Token.value next = "="%string.
Proof.
  unfold isVariableAssignment. split.
  - destruct (check tokens WORD p); [rewrite andb_true_l | rewrite andb_false_l; discriminate].
    destruct (p + 1 <? size)%nat; [|discriminate].
    destruct (nth_error tokens (p + 1)) as [next|]; [|discriminate].
    intros H. apply String.eqb_eq in H. eauto.
  - intros (Hw & next & Hn & Hv). rewrite Hw, Hn, andb_true_l.
    assert (Hlt : (p + 1 <? size)%nat = true).
    { apply Nat.ltb_lt. apply nth_error_Some. congruence. }
    rewrite Hlt. apply String.eqb_eq. exact Hv.
Qed.

Lemma parseVariableAssignment_sat p :
  isVariableAssignment tokens p = true ->
  sat (parseVariableAssignment tokens p)
      (fun s p' => p < p' /\ Built tokens p p' s).
Proof.
  intros H. apply isVariableAssignment_true in H as (tok & next & Hn & Ht & Hn1 & Hv).
  unfold parseVariableAssignment.
  rewrite (bind_advance _ _ _ Hn) by congruence. simpl field. pure.
  eapply sat_bind; [apply consume_sat; discriminate|].
  simpl. intros r p1 (-> & eq & -> & Hn2 & Ht2).
  eapply sat_bind; [apply parseExpression_sat|].
  simpl. intros e p2 (-> & He). pure.
  simpl in Hn1. rewrite Hn1 in Hn2. inversion Hn2; subst eq.
  split; [lia|]. eapply Built_Assignment; eauto.
Qed.

(** ** The nested constructs, over any statement method that builds *)

Section Nested.

Variable parseStatement : M (option Statement).
Variable bound : nat.

Hypothesis parseStatement_builds : builds tokens parseStatement bound.

Lemma parseBody_sat continues :
  (forall q, continues q = true -> isAtEnd tokens q = false) ->
  forall fuel body p first,
    size - p < fuel -> size - p < bound -> BuiltBody tokens first p body ->
    sat (parseBody tokens parseStatement continues fuel body p)
        (fun body' p' => p <= p' /\ continues p' = false /\
                         BuiltBody tokens first p' body').
Proof.
  intros Hc. induction fuel as [|fuel IH]; intros body p first Hf Hb Hbody; [lia|].
  simpl. destruct (continues p) eqn:Ec; [|simpl; auto].
  pose proof (Hc _ Ec) as Hend. pose proof (isAtEnd_false _ Hend) as Hlt.
  destruct (check tokens NEWLINE p) eqn:En.
  - eapply sat_bind; [apply advance_sat|].
    simpl. intros _ p1 ->. rewrite Hend.
    eapply sat_weaken.
    + apply (IH _ _ first); try lia. eapply Built_skip; eauto.
    + simpl. intros body' p' (? & ? & ?). repeat split; auto. lia.
  - eapply sat_bind; [apply parseStatement_builds; lia|].
    simpl. intros [stmt|] p1 [Hle Hs].
    + destruct (Hs stmt eq_refl) as [Hlt1 Hbuilt].
      eapply sat_weaken.
      * apply (IH _ _ first); try lia.
        eapply Built_push; [|exact Hbuilt]. eapply Built_skip; eauto.
      * simpl. intros body' p' (? & ? & ?). repeat split; auto. lia.
    + eapply sat_bind; [apply advance_sat|].
      simpl. intros _ p2 ->.
      assert (Hmove : p < (if isAtEnd tokens p1 then p1 else S p1)).
      { destruct (isAtEnd tokens p1) eqn:E1; [|lia].
        destruct (Nat.eq_dec p1 p); [congruence|lia]. }
      eapply sat_weaken.
      * apply (IH _ _ first); try lia. eapply Built_skip; eauto. lia.
      * simpl. intros body' p' (? & ? & ?). repeat split; auto. lia.
Qed.

Lemma typeAt_intro i tok type :
  nth_error tokens i = Some tok -> Token.type tok = type -> typeAt tokens i type.
Proof. intros. exists tok. auto. Qed.

Lemma stops_before_end (stop : nat -> bool) q :
  negb (stop q) && negb (isAtEnd tokens q) = true -> isAtEnd tokens q = false.
Proof.
  intros H. apply andb_prop in H as [_ H]. apply negb_true_iff in H. exact H.
Qed.

Lemma parseConditional_sat fuel p :
  size - p <= fuel -> size - p <= bound -> p < size ->
  sat (parseConditional tokens parseStatement fuel p)
      (fun s p' => p < p' /\ Built tokens p p' s).
Proof.
  intros Hf Hb Hp. unfold parseConditional.
  eapply sat_bind; [apply consume_sat; discriminate|].
  simpl. intros r p1 (-> & t1 & -> & Hn1 & Ht1).
  eapply sat_bind; [apply parseExpression_sat|].
  simpl. intros condition p2 (-> & He).
  eapply sat_bind; [apply consume_sat; discriminate|].
  simpl. intros r p3 (-> & t3 & -> & Hn3 & Ht3).
  eapply sat_bind.
  { apply parseBody_sat with (first := 3 + p); try (simpl; lia).
    - intros q Hq. rewrite <- andb_assoc in Hq. apply andb_prop in Hq as [_ Hq].
      eapply stops_before_end; eauto.
    - apply Built_nil. }
  simpl. intros then_ p4 (Hle & Hstop & Hthen).
  eapply sat_bind with
    (Q := fun else_ p5 =>
            p4 <= p5 /\
            match else_ with
            | None => p5 = p4
            | Some body => typeAt tokens p4 ELSE /\ BuiltBody tokens (S p4) p5 body
            end).
  { cbv beta. destruct (check tokens ELSE p4) eqn:Ee; [|simpl; auto].
    pose proof Ee as He'. apply check_typeAt in He'.
    destruct He' as (te & Hne & Hte).
    assert (p4 < size) by (apply nth_error_Some; congruence).
    rewrite (bind_advance _ _ _ Hne) by congruence.
    eapply sat_bind.
    - apply parseBody_sat with (first := S p4); try lia.
      + intros q Hq. eapply stops_before_end; eauto.
      + apply Built_nil.
    - simpl. intros body p5 (Hle5 & _ & Hbody). split; [lia|].
      split; auto. apply check_typeAt. exact Ee. }
  simpl. intros else_ p5 (Hle5 & Helse).
  eapply sat_bind; [apply consume_sat; discriminate|].
  simpl. intros r p6 (-> & t6 & -> & Hn6 & Ht6). pure.
  split; [lia|].
  destruct else_ as [body|].
  - destruct Helse as [Hty Hbody].
    eapply Built_IfElse; eauto using typeAt_intro.
  - subst p5. eapply Built_If; eauto using typeAt_intro.
Qed.

Lemma parseLoop_sat fuel p :
  size - p <= fuel -> size - p <= bound ->
  check tokens FOR p || check tokens WHILE p = true ->
  sat (parseLoop tokens parseStatement fuel p)
      (fun s p' => p < p' /\ Built tokens p p' s).
Proof.
  intros Hf Hb Hk. unfold parseLoop.
  assert (exists tok, nth_error tokens p = Some tok /\
                      (Token.type tok = FOR \/ Token.type tok = WHILE))
    as (tok & Hn & Ht).
  { apply orb_prop in Hk as [E|E]; apply check_typeAt in E as (tok & ? & ?);
      exists tok; auto. }
  assert (Hp : p < size) by (apply nth_error_Some; congruence).
  rewrite (bind_advance _ _ _ Hn) by (destruct Ht; congruence).
  simpl field. pure.
  destruct (String.eqb_spec (Token.value tok) "for") as [Ev|Ev].
  - rewrite !bind_bind.
    eapply sat_bind; [apply consume_sat; discriminate|].
    simpl. intros r p1 (-> & name & -> & Hn1 & Ht1).
    rewrite !bind_bind. simpl field. pure. rewrite !bind_bind.
    eapply sat_bind; [apply consume_sat; discriminate|].
    simpl. intros r p2 (-> & t2 & -> & Hn2 & Ht2).
    rewrite !bind_bind.
    eapply sat_bind; [apply parseExpression_sat|].
    simpl. intros iterable p3 (-> & He). pure.
    eapply sat_bind; [apply consume_sat; discriminate|].
    simpl. intros r p4 (-> & t4 & -> & Hn4 & Ht4).
    eapply sat_bind.
    { apply parseBody_sat with (first := 5 + p); try (simpl; lia).
      - intros q Hq. eapply stops_before_end; eauto.
      - apply Built_nil. }
    simpl. intros body p5 (Hle & _ & Hbody).
    eapply sat_bind; [apply consume_sat; discriminate|].
    simpl. intros r p6 (-> & t6 & -> & Hn6 & Ht6). pure.
    split; [lia|]. eapply Built_For; eauto using typeAt_intro.
  - rewrite !bind_bind.
    eapply sat_bind; [apply parseExpression_sat|].
    simpl. intros condition p1 (-> & He). pure.
    eapply sat_bind; [apply consume_sat; discriminate|].
    simpl. intros r p2 (-> & t2 & -> & Hn2 & Ht2).
    eapply sat_bind.
    { apply parseBody_sat with (first := 3 + p); try (simpl; lia).
      - intros q Hq. eapply stops_before_end; eauto.
      - apply Built_nil. }
    simpl. intros body p3 (Hle & _ & Hbody).
    eapply sat_bind; [apply consume_sat; discriminate|].
    simpl. intros r p4 (-> & t4 & -> & Hn4 & Ht4). pure.
    split; [lia|]. eapply Built_While; eauto using typeAt_intro.
Qed.

Lemma parseFunction_sat fuel p :
  size - p <= fuel -> size - p <= bound -> p < size ->
  sat (parseFunction tokens parseStatement fuel p)
      (fun s p' => p < p' /\ Built tokens p p' s).
Proof.
  intros Hf Hb Hp. unfold parseFunction.
  eapply sat_bind; [apply consume_sat; discriminate|].
  simpl. intros r p1 (-> & t1 & -> & Hn1 & Ht1).
  eapply sat_bind; [apply consume_sat; discriminate|].
  cbv beta. intros r p2 (-> & name & -> & Hn2 & Ht2). simpl field. pure.
  eapply sat_bind; [apply consume_sat; discriminate|].
  cbv beta. intros r p3 (-> & t3 & -> & Hn3 & Ht3).
  eapply sat_bind; [apply consume_sat; discriminate|].
  simpl. intros r p4 (-> & t4 & -> & Hn4 & Ht4).
  eapply sat_bind; [apply consume_sat; discriminate|].
  simpl. intros r p5 (-> & t5 & -> & Hn5 & Ht5).
  eapply sat_bind.
  { apply parseBody_sat with (first := 5 + p); try (simpl; lia).
    - intros q Hq. eapply stops_before_end; eauto.
    - apply Built_nil. }
  simpl. intros body p6 (Hle & _ & Hbody).
  eapply sat_bind; [apply consume_sat; discriminate|].
  simpl. intros r p7 (-> & t7 & -> & Hn7 & Ht7). pure.
  split; [lia|]. eapply Built_Function; eauto using typeAt_intro.
Qed.

End Nested.

(** ** Statements *)

Lemma some_sat {A} (m : M A) p (Q : A -> nat -> Prop) :
  sat (m p) Q ->
  sat (some m p) (fun r p' => exists a, r = Some a /\ Q a p').
Proof.
  intros H. unfold some. eapply sat_bind; [exact H|].
  simpl. intros a p' Ha. eauto.
Qed.

Lemma parseStatement_builds fuel :
  builds tokens (parseStatement tokens fuel) fuel.
Proof.
  induction fuel as [|fuel IH]; intros q Hq; [lia|].
  assert (R : forall m : M Statement,
             sat (m q) (fun s q' => q < q' /\ Built tokens q q' s) ->
             sat (some m q)
                 (fun r q' => q <= q' /\
                              forall s, r = Some s -> q < q' /\ Built tokens q q' s)).
  { intros m H. eapply sat_weaken; [apply some_sat; exact H|].
    simpl. intros r q' (s & -> & Hlt & Hb). split; [lia|].
    intros s' E. inversion E; subst. auto. }
  simpl.
  destruct (check tokens COMMENT q) eqn:Ec.
  { eapply sat_bind; [apply advance_sat|].
    simpl. intros _ q' ->. split; [|discriminate].
    destruct (isAtEnd tokens q); lia. }
  destruct (check tokens EOF q) eqn:Ee.
  { simpl. split; [lia|discriminate]. }
  destruct (check tokens IF q) eqn:Ei.
  { apply check_typeAt, typeAt_lt in Ei.
    apply R, parseConditional_sat with (bound := fuel); auto; lia. }
  destruct (check tokens FOR q || check tokens WHILE q) eqn:El.
  { apply R, parseLoop_sat with (bound := fuel); auto; lia. }
  destruct (check tokens FUNCTION q) eqn:Ef.
  { apply check_typeAt, typeAt_lt in Ef.
    apply R, parseFunction_sat with (bound := fuel); auto; lia. }
  destruct (isVariableAssignment tokens q) eqn:Ea.
  { apply R, parseVariableAssignment_sat. exact Ea. }
  destruct (check tokens WORD q) eqn:Ew.
  { apply check_typeAt, typeAt_lt in Ew.
    apply R, parsePipeline_sat; lia. }
  simpl. split; [lia|discriminate].
Qed.

Lemma parseStatements_loop_sat fuel n : forall statements p,
    size - p < n -> size - p < fuel -> BuiltBody tokens 0 p statements ->
    sat (parseStatements_loop tokens fuel n statements p)
        (fun body p' => p <= p' /\ BuiltBody tokens 0 p' body).
Proof.
  induction n as [|n IH]; intros statements p Hn Hf Hbody; [lia|].
  simpl.
  destruct (negb (isAtEnd tokens p) && negb (check tokens EOF p)) eqn:Ec;
    [|simpl; auto].
  apply andb_prop in Ec as [Hend _]. apply negb_true_iff in Hend.
  pose proof (isAtEnd_false _ Hend) as Hlt.
  destruct (check tokens NEWLINE p) eqn:En.
  - eapply sat_bind; [apply advance_sat|].
    simpl. intros _ p1 ->. rewrite Hend.
    eapply sat_weaken.
    + apply IH; try lia. eapply Built_skip; eauto.
    + simpl. intros body p' [? ?]. split; auto. lia.
  - eapply sat_bind; [apply parseStatement_builds; lia|].
    cbv beta. intros stmt p1 [Hle Hs].
    eapply sat_bind with
      (Q := fun statements' p2 => p < p2 /\ BuiltBody tokens 0 p2 statements').
    { destruct stmt as [stmt|].
      - destruct (Hs stmt eq_refl) as [Hlt1 Hb]. simpl. split; auto.
        eapply Built_push; [|exact Hb]. eapply Built_skip; eauto.
      - eapply sat_bind; [apply advance_sat|].
        simpl. intros _ p2 ->.
        assert (p < (if isAtEnd tokens p1 then p1 else S p1)).
        { destruct (isAtEnd tokens p1) eqn:E1; [|lia].
          destruct (Nat.eq_dec p1 p); [congruence|lia]. }
        split; auto. eapply Built_skip; eauto. lia. }
    cbv beta. intros statements' p2 [Hlt2 Hb2].
    eapply sat_bind with (Q := fun _ p3 => p2 <= p3).
    { cbv beta.
      destruct (check tokens SEMICOLON p2 || check tokens NEWLINE p2);
        [|simpl; lia].
      eapply sat_weaken; [apply advance_sat|].
      simpl. intros _ p3 ->. destruct (isAtEnd tokens p2); lia. }
    cbv beta. intros _ p3 Hle3.
    eapply sat_weaken.
    + apply IH; try lia. eapply Built_skip; eauto.
    + simpl. intros body p' [? ?]. split; auto. lia.
Qed.

(** [parseTokens] finishes, without a [TypeError], and what it
    returns was built from the tokens. *)
Lemma parseTokens_built :
  match parseTokens tokens with
  | Returned program =>
      Program.position program = None /\
      exists last, BuiltBody tokens 0 last (Program.body program)
  | Raised error =>
      exists p, parseStatements tokens (S size) 0 = Throw (Parse error) p
  | Unfinished => False
  end.
Proof.
  unfold parseTokens, parseStatements.
  pose proof (parseStatements_loop_sat (S size) (S size) [] 0) as H.
  destruct (parseStatements_loop tokens (S size) (S size) [] 0)
    as [body p|[e|] p|]; simpl in H.
  - destruct H as [_ H]; try lia; [apply Built_nil|]. simpl. eauto.
  - eauto.
  - exfalso. apply H; try lia. apply Built_nil.
  - apply H; try lia. apply Built_nil.
Qed.

(** ** What follows from a derivation *)

Lemma BuiltBody_le first next body :
  BuiltBody tokens first next body -> first <= next.
Proof.
  revert first next body.
  enough (H : (forall first next s, Built tokens first next s -> first < next) /\
              (forall first next l, BuiltBody tokens first next l -> first <= next))
    by apply H.
  apply Built_BuiltBody_ind; intros; try lia.
  - match goal with H : BuiltCommand _ _ _ _ |- _ => apply BuiltCommand_lt in H end. lia.
  - match goal with H : BuiltPipeline _ _ _ _ |- _ => apply BuiltPipeline_lt in H end. lia.
Qed.

Lemma Built_lt first next s :
  Built tokens first next s -> first < next.
Proof.
  destruct 1;
    repeat match goal with
           | H : BuiltBody _ _ _ _ |- _ => apply BuiltBody_le in H
           | H : BuiltCommand _ _ _ _ |- _ => apply BuiltCommand_lt in H
           | H : BuiltPipeline _ _ _ _ |- _ => apply BuiltPipeline_lt in H
           end; lia.
Qed.

Lemma flat_map_nodes_snoc body stmt :
  flat_map nodes (body ++ [stmt]) = flat_map nodes body ++ nodes stmt.
Proof. rewrite flat_map_app. simpl. rewrite app_nil_r. reflexivity. Qed.

Lemma nodePosition_some first next tok :
  nth_error tokens first = Some tok -> nodePosition tokens first next <> None.
Proof.
  intros H. unfold nodePosition, currentPosition, currentToken, getNodePosition.
  rewrite H. simpl. discriminate.
Qed.

Lemma BuiltCommand_position first next c :
  BuiltCommand tokens first next c -> Command.position c <> None.
Proof. destruct 1. simpl. eapply nodePosition_some; eauto. Qed.

Lemma BuiltPipeline_positions first next cs :
  BuiltPipeline tokens first next cs ->
  Forall (nodeBuilt tokens) (map Cmd cs).
Proof.
  induction 1 as [first next c Hc | first bar next cs c Hp IH Hb Hc]; simpl.
  - constructor; [|constructor]. simpl. eapply BuiltCommand_position; eauto.
  - rewrite map_app. apply Forall_app. split; auto.
    constructor; [|constructor]. simpl. eapply BuiltCommand_position; eauto.
Qed.

Lemma Built_nodes :
  (forall first next s,
      Built tokens first next s -> Forall (nodeBuilt tokens) (nodes s)) /\
  (forall first next l,
      BuiltBody tokens first next l -> Forall (nodeBuilt tokens) (flat_map nodes l)).
Proof.
  apply Built_BuiltBody_ind; intros; simpl;
    repeat match goal with
           | H : typeAt _ _ _ |- _ => destruct H as (? & ? & ?)
           end.
  - constructor; [|constructor]. simpl. eapply BuiltCommand_position; eauto.
  - constructor; [simpl; auto|]. eapply BuiltPipeline_positions; eauto.
  - constructor; [simpl; eapply nodePosition_some; eauto|].
    rewrite app_nil_r. assumption.
  - constructor; [simpl; eapply nodePosition_some; eauto|].
    apply Forall_app. auto.
  - constructor; auto. simpl. split; [eapply nodePosition_some; eauto|].
    exists tok. repeat split; auto. eapply nth_error_In; eauto.
  - constructor; auto. simpl. split; [eapply nodePosition_some; eauto|].
    exists tok. repeat split; auto. eapply nth_error_In; eauto.
  - constructor; [simpl; eapply nodePosition_some; eauto|]. assumption.
  - constructor; [|constructor]. simpl. eapply nodePosition_some; eauto.
  - constructor.
  - assumption.
  - rewrite flat_map_nodes_snoc. apply Forall_app. auto.
Qed.

(** ** Positions, when the tokens come from the scanner *)

Section Positions.

Hypothesis ascend : endsAscend tokens.
Hypothesis last : eofLast tokens.

Lemma slice_nth a b k :
  a + k < b -> nth_error (slice tokens a b) k = nth_error tokens (a + k).
Proof.
  intros H. unfold slice. rewrite nth_error_firstn, nth_error_skipn.
  assert (E : (k <? b - a)%nat = true) by (apply Nat.ltb_lt; lia).
  rewrite E. reflexivity.
Qed.

Lemma encloses_token i tok :
  nth_error tokens i = Some tok ->
  encloses tokens i (S i) (Some (Token.position tok)).
Proof.
  intros Hn pos E. inversion E; subst. exists tok, tok.
  simpl. rewrite Nat.sub_0_r. repeat split; auto.
Qed.

Lemma BuiltExpression_encloses i e :
  BuiltExpression tokens i e -> enclosesExpression tokens i (S i) e.
Proof. destruct 1; apply encloses_token; assumption. Qed.

Lemma BuiltExpression_token i e :
  BuiltExpression tokens i e ->
  exists tok, nth_error tokens i = Some tok /\ Token.type tok <> EOF.
Proof.
  destruct 1 as [i tok Hn [Ht|Ht] | i tok Hn Ht]; exists tok; split; auto; congruence.
Qed.

Lemma nodePosition_encloses first next tl :
  first < next -> nth_error tokens (next - 1) = Some tl -> Token.type tl <> EOF ->
  encloses tokens first next (nodePosition tokens first next).
Proof.
  intros Hlt Hl Ht pos.
  pose proof (last _ _ Hl Ht) as Hsize.
  destruct (nth_error tokens first) as [tf|] eqn:Hf;
    [|apply nth_error_None in Hf; lia].
  destruct (nth_error tokens next) as [c|] eqn:Hc;
    [|apply nth_error_None in Hc; lia].
  unfold nodePosition, getNodePosition, currentPosition, currentToken.
  rewrite Hf, Hc. simpl. intros E. inversion E; subst pos; clear E.
  exists tf, tl. simpl. repeat split; auto.
  pose proof (ascend (next - 1) next tl c ltac:(lia) Hl Hc).
  destruct (Nat.eqb_spec (Position.end_ (Token.position c)) 0); lia.
Qed.

Lemma BuiltCommand_last first next c :
  BuiltCommand tokens first next c ->
  exists tl, nth_error tokens (next - 1) = Some tl /\ Token.type tl <> EOF.
Proof.
  intros H. inversion H as [? ? tok Hn Ht Hlt Hle Hargs]; subst.
  destruct (Nat.eq_dec next (S first)) as [->|Hne].
  - simpl. rewrite Nat.sub_0_r. exists tok. split; auto. congruence.
  - assert (Hk : S first + (next - 1 - S first) < next) by lia.
    pose proof (slice_nth _ _ _ Hk) as E.
    replace (S first + (next - 1 - S first)) with (next - 1) in E by lia.
    destruct (nth_error tokens (next - 1)) as [tl|] eqn:Hl;
      [|apply nth_error_None in Hl; lia].
    exists tl. split; auto.
    rewrite Forall_forall in Hargs.
    destruct (Hargs tl (nth_error_In _ _ E)); congruence.
Qed.

Lemma BuiltCommand_encloses first next c :
  BuiltCommand tokens first next c -> enclosesCommand tokens first next c.
Proof.
  intros H. destruct (BuiltCommand_last _ _ _ H) as (tl & Hl & Ht).
  inversion H; subst. unfold enclosesCommand. simpl.
  eapply nodePosition_encloses; eauto.
Qed.

Lemma part_wider {A} (P : nat -> nat -> A -> Prop) first next first' next' x :
  first' <= first -> next <= next' ->
  part P first next x -> part P first' next' x.
Proof. intros ? ? (a & b & ? & ? & ?). exists a, b. repeat split; auto; lia. Qed.

Lemma Forall_part_wider {A} (P : nat -> nat -> A -> Prop)
      first next first' next' l :
  first' <= first -> next <= next' ->
  Forall (part P first next) l -> Forall (part P first' next') l.
Proof. intros ? ? H. eapply Forall_impl; [|exact H]. intros. eapply part_wider; eauto. Qed.

Lemma part_intro {A} (P : nat -> nat -> A -> Prop) first next a b x :
  P a b x -> first <= a -> b <= next -> part P first next x.
Proof. intros. exists a, b. auto. Qed.

Lemma BuiltPipeline_encloses first next cs :
  BuiltPipeline tokens first next cs ->
  Forall (part (enclosesCommand tokens) first next) cs.
Proof.
  induction 1 as [first next c Hc | first bar next cs c Hp IH Hb Hc].
  - constructor; [|constructor].
    eapply part_intro; [apply BuiltCommand_encloses; eauto| |]; lia.
  - pose proof (BuiltCommand_lt _ _ _ Hc).
    apply Forall_app. split.
    + eapply Forall_part_wider; [| |exact IH]; lia.
    + constructor; [|constructor].
      pose proof (BuiltPipeline_lt _ _ _ Hp).
      eapply part_intro; [apply BuiltCommand_encloses; eauto| |]; lia.
Qed.

Lemma Built_Enclosed :
  (forall first next s,
      Built tokens first next s -> Enclosed tokens first next s) /\
  (forall first next l,
      BuiltBody tokens first next l ->
      Forall (part (Enclosed tokens) first next) l).
Proof.
  apply Built_BuiltBody_ind; intros;
    repeat match goal with
           | H : BuiltBody _ _ _ _ |- _ => pose proof (BuiltBody_le _ _ _ H); clear H
           | H : Built _ _ _ _ |- _ => pose proof (Built_lt _ _ _ H); clear H
           | H : BuiltExpression _ _ _ |- _ =>
               pose proof (BuiltExpression_encloses _ _ H);
               apply BuiltExpression_token in H; destruct H as (? & ? & ?)
           | H : typeAt _ _ _ |- _ => destruct H as (? & ? & ?)
           end.
  - constructor. apply BuiltCommand_encloses. assumption.
  - constructor; [apply BuiltPipeline_encloses; assumption|].
    intros pos E. discriminate.
  - constructor.
    + eapply part_intro; eauto; simpl in *; lia.
    + eapply Forall_part_wider; [| |eassumption]; simpl; lia.
    + discriminate.
    + eapply nodePosition_encloses; [lia| |];
        [simpl; rewrite ?Nat.sub_0_r; eassumption | congruence].
  - constructor.
    + eapply part_intro; eauto; simpl in *; lia.
    + eapply Forall_part_wider; [| |eassumption]; simpl; lia.
    + intros body E. inversion E; subst.
      eapply Forall_part_wider; [| |eassumption]; simpl; lia.
    + eapply nodePosition_encloses; [lia| |];
        [simpl; rewrite ?Nat.sub_0_r; eassumption | congruence].
  - constructor.
    + discriminate.
    + intros e E. inversion E; subst.
      eapply part_intro; eauto; simpl in *; lia.
    + eapply Forall_part_wider; [| |eassumption]; simpl; lia.
    + eapply nodePosition_encloses; [lia| |];
        [simpl; rewrite ?Nat.sub_0_r; eassumption | congruence].
  - constructor.
    + intros e E. inversion E; subst.
      eapply part_intro; eauto; simpl in *; lia.
    + discriminate.
    + eapply Forall_part_wider; [| |eassumption]; simpl; lia.
    + eapply nodePosition_encloses; [lia| |];
        [simpl; rewrite ?Nat.sub_0_r; eassumption | congruence].
  - constructor.
    + eapply Forall_part_wider; [| |eassumption]; simpl; lia.
    + eapply nodePosition_encloses; [lia| |];
        [simpl; rewrite ?Nat.sub_0_r; eassumption | congruence].
  - constructor.
    + eapply part_intro; eauto; simpl in *; lia.
    + eapply nodePosition_encloses; [lia| |];
        [simpl; rewrite ?Nat.sub_0_r; eassumption | congruence].
  - constructor.
  - eapply Forall_part_wider; [| |eassumption]; lia.
  - apply Forall_app. split.
    + eapply Forall_part_wider; [| |eassumption]; lia.
    + constructor; [|constructor]. eapply part_intro; eauto.
Qed.

End Positions.

End Facts.

(** ** Runs: what the builder returns on commands and pipelines *)

Section Runs.

Variable tokens : list Token.t.

Lemma nth_error_after (pre : list Token.t) rest :
  nth_error (pre ++ rest) (length pre) = hd_error rest.
Proof.
  rewrite nth_error_app2 by lia. rewrite Nat.sub_diag. destruct rest; reflexivity.
Qed.

Lemma check_after pre rest type :
  tokens = pre ++ rest ->
  check tokens type (length pre) =
  match hd_error rest with
  | Some tok => TokenType_beq (Token.type tok) type
  | None => false
  end.
Proof.
  intros ->. unfold check, currentToken. rewrite nth_error_after. reflexivity.
Qed.

Lemma check_head pre tok rest type :
  tokens = pre ++ tok :: rest ->
  check tokens type (length pre) = TokenType_beq (Token.type tok) type.
Proof. intros H. rewrite (check_after pre (tok :: rest)) by exact H. reflexivity. Qed.

Lemma isArgument_check tok :
  isArgument tok ->
  TokenType_beq (Token.type tok) WORD || TokenType_beq (Token.type tok) QUOTED_STRING
  = true.
Proof. intros [H|H]; rewrite H; reflexivity. Qed.

Lemma not_isArgument_check tok :
  ~ isArgument tok ->
  TokenType_beq (Token.type tok) WORD || TokenType_beq (Token.type tok) QUOTED_STRING
  = false.
Proof.
  intros H. apply orb_false_intro; apply TokenType_beq_neq; intros E; apply H;
    [left|right]; exact E.
Qed.

Lemma parseCommand_args_run : forall args pre rest acc fuel,
    tokens = pre ++ args ++ rest -> Forall isArgument args -> stops rest ->
    length args < fuel ->
    parseCommand_args tokens fuel acc (length pre) =
    Return (acc ++ map Token.value args) (length pre + length args).
Proof.
  induction args as [|a args IH]; intros pre rest acc fuel Ht Ha Hs Hf;
    destruct fuel as [|fuel]; try (simpl in Hf; lia); simpl parseCommand_args.
  - rewrite !(check_after pre rest) by exact Ht.
    destruct rest as [|t rest]; simpl.
    + rewrite app_nil_r, Nat.add_0_r. reflexivity.
    + rewrite not_isArgument_check by (apply Hs; reflexivity).
      rewrite app_nil_r, Nat.add_0_r. reflexivity.
  - rewrite !(check_after pre ((a :: args) ++ rest)) by exact Ht. simpl hd_error.
    apply Forall_cons_iff in Ha as [Ha1 Ha2].
    rewrite isArgument_check by exact Ha1.
    assert (Hn : nth_error tokens (length pre) = Some a).
    { rewrite Ht. apply nth_error_after. }
    rewrite (bind_advance _ _ _ _ Hn) by (destruct Ha1; congruence).
    simpl field. pure.
    replace (S (length pre)) with (length (pre ++ [a])) by (rewrite length_app; simpl; lia).
    rewrite (IH (pre ++ [a]) rest); auto.
    + rewrite <- app_assoc, length_app. simpl. f_equal. lia.
    + rewrite Ht, <- app_assoc. reflexivity.
    + simpl in Hf. lia.
Qed.

Lemma parseCommand_run pre name args rest fuel :
  tokens = pre ++ (name :: args) ++ rest ->
  simpleCommand (name :: args) -> stops rest -> length args < fuel ->
  exists command,
    parseCommand tokens fuel (length pre) =
    Return command (length pre + length (name :: args)) /\
    commandOf (name :: args) command.
Proof.
  intros Ht [Hn Ha] Hs Hf. unfold parseCommand.
  rewrite (check_head pre name (args ++ rest)) by exact Ht.
  rewrite Hn. simpl negb. cbv iota.
  assert (Hnth : nth_error tokens (length pre) = Some name).
  { rewrite Ht. apply nth_error_after. }
  rewrite (bind_advance _ _ _ _ Hnth) by congruence.
  simpl field. pure.
  replace (S (length pre)) with (length (pre ++ [name]))
    by (rewrite length_app; simpl; lia).
  unfold bind at 1.
  rewrite (parseCommand_args_run args (pre ++ [name]) rest); auto.
  - pure. rewrite length_app. simpl length.
    replace (length pre + 1 + length args) with (length pre + S (length args)) by lia.
    eexists. split; [reflexivity|]. simpl. auto.
  - rewrite Ht, <- app_assoc. reflexivity.
Qed.

Lemma parsePipeline_rest_grows fuel : forall commands p commands' p',
    parsePipeline_rest tokens fuel commands p = Return commands' p' ->
    length commands <= length commands'.
Proof.
  induction fuel as [|fuel IH]; intros commands p commands' p'; simpl; [discriminate|].
  destruct (check tokens PIPE p).
  - unfold bind. unfold advance at 1.
    destruct (parseCommand tokens (S fuel) _) as [c p1|e p1|]; try discriminate.
    intros H. apply IH in H. rewrite length_app in H. simpl in H. lia.
  - intros H. inversion H; subst. lia.
Qed.

(** Whatever [parsePipeline] returns is a bare command or a pipeline of
    two commands or more, without a position. *)
Lemma parsePipeline_shape fuel p stmt p' :
  parsePipeline tokens fuel p = Return stmt p' ->
  (exists command, stmt = Cmd command) \/
  (exists commands, stmt = Pipeline commands None /\ 2 <= length commands).
Proof.
  unfold parsePipeline, bind.
  destruct (parseCommand tokens fuel p) as [c p1|e p1|]; try discriminate.
  destruct (parsePipeline_rest tokens fuel [c] p1) as [cs p2|e p2|] eqn:E;
    try discriminate.
  apply parsePipeline_rest_grows in E. simpl in E.
  destruct cs as [|c1 [|c2 cs]]; simpl in E; try lia.
  - intros H. inversion H. eauto.
  - intros H. inversion H. right. eexists. split; [reflexivity|]. simpl. lia.
Qed.

Lemma parseStatement_word fuel p :
  check tokens WORD p = true -> isVariableAssignment tokens p = false ->
  parseStatement tokens (S fuel) p = some (parsePipeline tokens fuel) p.
Proof.
  intros Hw Ha. pose proof Hw as Hw'. apply check_typeAt in Hw' as (tok & Hn & Ht).
  simpl. rewrite !(check_token _ _ _ _ Hn), Ht, Ha in *. reflexivity.
Qed.

Lemma parseStatements_loop_step fuel n statements p :
  isAtEnd tokens p = false -> check tokens EOF p = false ->
  check tokens NEWLINE p = false ->
  parseStatements_loop tokens fuel (S n) statements p =
  (stmt <- parseStatement tokens fuel ;;
   statements' <- match stmt with
                  | Some stmt => ret (statements ++ [stmt])
                  | None => advance tokens ;; ret statements
                  end ;;
   (fun p => if check tokens SEMICOLON p || check tokens NEWLINE p
             then advance tokens p else Return None p) ;;
   parseStatements_loop tokens fuel n statements') p.
Proof. intros H1 H2 H3. simpl. rewrite H1, H2, H3. reflexivity. Qed.

Lemma parseStatements_loop_end fuel n statements p :
  isAtEnd tokens p = true ->
  parseStatements_loop tokens fuel (S n) statements p = Return statements p.
Proof. intros H. simpl. rewrite H. reflexivity. Qed.

Lemma parseStatements_loop_newline fuel n statements p tok :
  nth_error tokens p = Some tok -> Token.type tok = NEWLINE ->
  parseStatements_loop tokens fuel (S n) statements p =
  parseStatements_loop tokens fuel n statements (S p).
Proof.
  intros Hn Ht. simpl.
  rewrite (isAtEnd_token _ _ _ Hn) by congruence.
  rewrite !(check_token _ _ _ _ Hn), Ht. simpl.
  rewrite (bind_advance _ _ _ _ Hn) by congruence. reflexivity.
Qed.

Lemma stops_piped more rest : Forall barred more -> ends rest ->
                              stops (flat_map piped more ++ rest).
Proof.
  intros Hm He tok. destruct more as [|[bar seg] more]; simpl.
  - intros H. apply He. exact H.
  - intros H. inversion H; subst tok. apply Forall_cons_iff in Hm as [[Hb _] _].
    simpl in Hb. intros [E|E]; congruence.
Qed.

Lemma parsePipeline_rest_run : forall more pre rest acc fuel,
    tokens = pre ++ flat_map piped more ++ rest ->
    Forall barred more -> ends rest ->
    length (flat_map piped more) < fuel ->
    exists commands,
      parsePipeline_rest tokens fuel acc (length pre) =
      Return (acc ++ commands) (length pre + length (flat_map piped more)) /\
      Forall2 commandOf (map snd more) commands.
Proof.
  induction more as [|[bar seg] more IH]; intros pre rest acc fuel Ht Hm He Hf;
    destruct fuel as [|fuel]; try (simpl in Hf; lia); simpl parsePipeline_rest.
  - exists []. rewrite (check_after pre rest) by exact Ht.
    rewrite app_nil_r. simpl. rewrite Nat.add_0_r. split; [|constructor].
    destruct rest as [|t rest]; simpl; [reflexivity|].
    destruct (He t eq_refl) as [Hp _]. apply TokenType_beq_neq in Hp.
    rewrite Hp. reflexivity.
  - pose proof Hm as Hm'. apply Forall_cons_iff in Hm' as [[Hb Hseg] Hmore].
    simpl in Hb, Hseg. destruct seg as [|name args]; [contradiction|].
    simpl in Ht. rewrite <- app_assoc in Ht.
    rewrite (check_head pre bar _ PIPE Ht), Hb. simpl TokenType_beq. cbv iota.
    assert (Hn : nth_error tokens (length pre) = Some bar).
    { rewrite Ht. apply nth_error_after. }
    rewrite (bind_advance _ _ _ _ Hn) by congruence.
    assert (Ht1 : tokens = (pre ++ [bar]) ++ (name :: args) ++ flat_map piped more ++ rest).
    { rewrite Ht, <- app_assoc. reflexivity. }
    destruct (parseCommand_run (pre ++ [bar]) name args
                               (flat_map piped more ++ rest) (S fuel) Ht1 Hseg)
      as (command & Hrun & Hof).
    { apply stops_piped; assumption. }
    { simpl in Hf. rewrite length_app in Hf. simpl in Hf. lia. }
    replace (length (pre ++ [bar])) with (S (length pre)) in Hrun
      by (rewrite length_app; simpl; lia).
    unfold bind at 1. rewrite Hrun.
    assert (Ht2 : tokens = (pre ++ bar :: name :: args) ++ flat_map piped more ++ rest).
    { rewrite Ht, <- app_assoc. reflexivity. }
    destruct (IH (pre ++ bar :: name :: args) rest (acc ++ [command]) fuel Ht2 Hmore He)
      as (commands & Hrest & Hall).
    { simpl in Hf. rewrite length_app in Hf. simpl in Hf. lia. }
    exists (command :: commands). split.
    + replace (S (length pre) + length (name :: args))
        with (length (pre ++ bar :: name :: args))
        by (rewrite length_app; simpl; lia).
      rewrite Hrest. rewrite <- app_assoc. simpl. f_equal.
      repeat (rewrite length_app; simpl). lia.
    + simpl. constructor; assumption.
Qed.

Lemma parsePipeline_run first more rest fuel :
  tokens = first ++ flat_map piped more ++ rest ->
  simpleCommand first -> Forall barred more -> ends rest ->
  length tokens <= fuel ->
  exists command commands stmt,
    parsePipeline tokens fuel 0 =
    Return stmt (length first + length (flat_map piped more)) /\
    pipelineOf (command :: commands) = Some stmt /\
    commandOf first command /\ Forall2 commandOf (map snd more) commands.
Proof.
  intros Ht Hfirst Hm He Hf. destruct first as [|name args]; [contradiction|].
  assert (Hlen : length tokens = S (length args) + length (flat_map piped more) + length rest).
  { rewrite Ht, !length_app. simpl. lia. }
  destruct (parseCommand_run [] name args (flat_map piped more ++ rest) fuel Ht Hfirst)
    as (command & Hrun & Hof).
  { apply stops_piped; assumption. }
  { lia. }
  simpl length in Hrun at 1 2. simpl Nat.add in Hrun.
  unfold parsePipeline. unfold bind at 1. rewrite Hrun.
  destruct (parsePipeline_rest_run more (name :: args) rest [command] fuel Ht Hm He)
    as (commands & Hrest & Hall).
  { lia. }
  simpl length in Hrest at 1. unfold bind at 1. rewrite Hrest.
  exists command, commands. simpl app.
  destruct commands as [|c commands].
  - exists (Cmd command). split; [reflexivity|]. split; [reflexivity|]. split; assumption.
  - exists (Pipeline (command :: c :: commands) None).
    split; [reflexivity|]. split; [reflexivity|]. split; assumption.
Qed.

Lemma parseTokens_run first more eof :
  tokens = first ++ flat_map piped more ++ [eof] ->
  simpleCommand first -> Forall barred more -> Token.type eof = EOF ->
  notAssignment tokens ->
  exists command commands stmt,
    parseTokens tokens = Returned (Program.mk [stmt] None) /\
    pipelineOf (command :: commands) = Some stmt /\
    commandOf first command /\ Forall2 commandOf (map snd more) commands.
Proof.
  intros Ht Hfirst Hm Heof Hna.
  assert (He : ends [eof]).
  { intros tok E. inversion E; subst. split; [|intros [H|H]]; congruence. }
  destruct (parsePipeline_run first more [eof] (length tokens) Ht Hfirst Hm He (le_n _))
    as (command & commands & stmt & Hrun & Hof & Hc & Hcs).
  exists command, commands, stmt. repeat split; auto.
  destruct first as [|name args]; [contradiction|]. destruct Hfirst as [Hn Ha].
  assert (Hlen : 2 <= length tokens).
  { rewrite Ht, !length_app. simpl. lia. }
  assert (H0 : forall type, check tokens type 0 = TokenType_beq WORD type).
  { intros type. rewrite <- Hn. apply (check_head [] name (args ++ flat_map piped more ++ [eof])).
    exact Ht. }
  assert (Hva : isVariableAssignment tokens 0 = false).
  { unfold isVariableAssignment. rewrite H0.
    change (TokenType_beq WORD WORD) with true. rewrite andb_true_l.
    change (0 + 1) with 1.
    destruct (1 <? length tokens)%nat; [|reflexivity].
    destruct (nth_error tokens 1) as [next|] eqn:E; [|reflexivity].
    apply String.eqb_neq. apply Hna. exact E. }
  set (p := length (name :: args) + length (flat_map piped more)) in *.
  assert (Ht' : tokens = ((name :: args) ++ flat_map piped more) ++ [eof]).
  { rewrite Ht, <- app_assoc. reflexivity. }
  assert (Hp : forall type, check tokens type p = TokenType_beq EOF type).
  { intros type. rewrite <- Heof. unfold p. rewrite <- length_app.
    apply (check_head _ eof []). exact Ht'. }
  unfold parseTokens, parseStatements.
  destruct (length tokens) as [|[|n]] eqn:El; try lia.
  rewrite parseStatements_loop_step;
    [| unfold isAtEnd; rewrite H0, El; reflexivity | rewrite H0; reflexivity
     | rewrite H0; reflexivity ].
  unfold bind at 1.
  rewrite parseStatement_word; [| rewrite H0; reflexivity | exact Hva ].
  unfold some, bind at 1. rewrite Hrun.
  unfold bind, ret. cbv beta iota. rewrite !Hp. simpl orb. cbv iota. simpl app.
  rewrite parseStatements_loop_end; [reflexivity|].
  unfold isAtEnd. rewrite Hp. apply orb_true_r.
Qed.

Lemma parseStatements_loop_newlines newlines eof fuel n : forall k,
    tokens = newlines ++ [eof] ->
    Forall (fun t => Token.type t = NEWLINE) newlines -> Token.type eof = EOF ->
    k <= length newlines -> length newlines - k < n ->
    parseStatements_loop tokens fuel n [] k = Return [] (length newlines).
Proof.
  induction n as [|n IH]; intros k Ht Hn He Hk Hf; [lia|].
  destruct (Nat.eq_dec k (length newlines)) as [->|Hne].
  - apply parseStatements_loop_end. unfold isAtEnd.
    rewrite (check_head newlines eof [] EOF Ht), He. apply orb_true_r.
  - assert (Hlt : k < length newlines) by lia.
    destruct (nth_error newlines k) as [tok|] eqn:E;
      [|apply nth_error_None in E; lia].
    assert (Hty : Token.type tok = NEWLINE).
    { rewrite Forall_forall in Hn. apply Hn. eapply nth_error_In; eauto. }
    rewrite (parseStatements_loop_newline fuel n [] k tok); auto.
    + apply IH; auto; lia.
    + rewrite Ht, nth_error_app1 by lia. exact E.
Qed.

Lemma parseTokens_newlines newlines eof :
  tokens = newlines ++ [eof] ->
  Forall (fun t => Token.type t = NEWLINE) newlines -> Token.type eof = EOF ->
  parseTokens tokens = Returned (Program.mk [] None).
Proof.
  intros Ht Hn He. unfold parseTokens, parseStatements.
  rewrite (parseStatements_loop_newlines newlines eof); auto; try lia.
  rewrite Ht, length_app. simpl. lia.
Qed.

End Runs.

(** ** From the source text to the tree *)

Import TokenizerFacts.

Lemma tokenized_eofLast tokens : tokenized tokens -> eofLast tokens.
Proof.
  intros (body & eof & -> & Ht & _ & Hbody & _) i tok Hn Hty.
  rewrite length_app. simpl.
  destruct (Nat.lt_ge_cases i (length body)) as [Hlt|Hge]; [lia|].
  rewrite nth_error_app2 in Hn by lia.
  destruct (i - length body) as [|k]; simpl in Hn.
  - inversion Hn; subst. congruence.
  - destruct k; discriminate.
Qed.

Lemma tokenized_endsAscend tokens : tokenized tokens -> endsAscend tokens.
Proof. intros (body & eof & _ & _ & _ & _ & H). exact H. Qed.

Lemma tokenized_keywordText tokens tok :
  tokenized tokens -> In tok tokens -> keywordText tok.
Proof.
  intros (body & eof & -> & Ht & _ & Hbody & _) Hin.
  apply in_app_or in Hin as [Hin|[<-|[]]].
  - rewrite Forall_forall in Hbody. apply Hbody. exact Hin.
  - split; congruence.
Qed.

Lemma parse_tokens input program :
  parse input = Returned program ->
  exists tokens,
    Tokenizer.tokenize input = Some tokens /\ tokenized tokens /\
    parseTokens tokens = Returned program.
Proof.
  unfold parse. destruct (tokenize_total input) as (tokens & -> & Ht).
  intros H. exists tokens. auto.
Qed.

Lemma parse_built input program :
  parse input = Returned program ->
  exists tokens last,
    Tokenizer.tokenize input = Some tokens /\ tokenized tokens /\
    Program.position program = None /\
    BuiltBody tokens 0 last (Program.body program).
Proof.
  intros H. apply parse_tokens in H as (tokens & Ht & Hz & Hp).
  pose proof (parseTokens_built tokens) as Hb. rewrite Hp in Hb.
  destruct Hb as (Hpos & last & Hb). exists tokens, last. auto.
Qed.

Lemma parse_nodes input program stmt :
  parse input = Returned program -> In stmt (programNodes program) ->
  exists tokens,
    Tokenizer.tokenize input = Some tokens /\ tokenized tokens /\
    nodeBuilt tokens stmt.
Proof.
  intros H Hin. apply parse_built in H as (tokens & last & Ht & Hz & _ & Hb).
  exists tokens. repeat split; auto.
  apply (proj2 (Built_nodes tokens)) in Hb.
  rewrite Forall_forall in Hb. apply Hb. exact Hin.
Qed.

(** [parse] finishes on every input. *)
Lemma parse_total input :
  (exists program, parse input = Returned program) \/
  (exists error, parse input = Raised error).
Proof.
  unfold parse. destruct (tokenize_total input) as (tokens & -> & _).
  pose proof (parseTokens_built tokens) as H.
  destruct (parseTokens tokens); eauto. contradiction.
Qed.

End BuilderFacts.

(** * The statements of the specification *)

Import BashParser.
#[local] Open Scope list_scope.

(** C1, at the input of the claim: with [do] on a line of its own
    [parse] returns no loop but raises, with the position of the newline
    token after the iterable, which stands where [consume(DO)] looks.
    The test ['should parse for loop'] of the repository expects the loop
    of an input of this shape, the second one below, on which [parse]
    raises as well. *)
Theorem for_loop_do_on_its_own_line :
  parse (lines ["for item in list"; "do"; "echo $item"; "done"])
  = Raised (ParseError.mk "Expected 'do'" (Some (Position.mk 16 17 1 17)))
  /\ (exists tokens,
        Tokenizer.tokenize (lines ["for item in list"; "do"; "echo $item"; "done"])
        = Some tokens /\
        nth_error tokens 3 = Some (token1 WORD "list" 12 16) /\
        nth_error tokens 4 = Some (token1 NEWLINE NL 16 17) /\
        nth_error tokens 5 = Some (Token.mk DO "do" (Position.mk 17 19 2 1)))
  /\ parse (lines [""; "        for item in list"; "        do";
                   "          echo $item"; "        done"; "      "])
     = Raised (ParseError.mk "Expected 'do'" (Some (Position.mk 25 26 2 25))).
Proof.
  split; [vm_compute; reflexivity|].
  split; [|vm_compute; reflexivity].
  eexists. split; [vm_compute; reflexivity|]. repeat split.
Qed.

(** X28: with [do] on the line of the header the loop is returned: one
    loop of kind [for] over the variable [item]; its body is the one
    command [echo], whose argument list is empty: the token after it is the
    [VARIABLE] token [item], which is no argument and which the body loop
    passes over. *)
Theorem for_loop_do_on_the_header_line :
  let source := lines ["for item in list do"; "echo $item"; "done"] in
  parse source
  = Returned
      (Program.mk
         [Loop "for" None (Some "item")
               (Some (Literal "list" false (Some (Position.mk 12 16 1 13))))
               [Cmd (Command.mk "echo" [] (Some (Position.mk 20 30 2 1)))]
               (Some (Position.mk 0 35 1 1))]
         None)
  /\ exists tokens,
      Tokenizer.tokenize source = Some tokens /\
      nth_error tokens 6 = Some (Token.mk WORD "echo" (Position.mk 20 24 2 1)) /\
      nth_error tokens 7 = Some (Token.mk VARIABLE "item" (Position.mk 25 30 2 6)).
Proof.
  split; [vm_compute; reflexivity|].
  eexists. split; [vm_compute; reflexivity|]. split; reflexivity.
Qed.

(** C2, at the input [echo "="]: the word [echo] is followed by a
    [QUOTED_STRING] token that reads [=]; the lookahead of
    [isVariableAssignment] compares the text of the next token and never
    its kind, the statement is taken for an assignment, and
    [parseVariableAssignment], which wants a [WORD] there, raises. *)
Theorem quoted_equals_is_taken_for_an_assignment :
  let source := ("echo " ++ DQUOTE ++ "=" ++ DQUOTE)%string in
  Tokenizer.tokenize source
  = Some [Token.mk WORD "echo" (Position.mk 0 4 1 1);
          Token.mk QUOTED_STRING "=" (Position.mk 5 8 1 6);
          Token.mk EOF EmptyString (Position.mk 8 8 1 9)]
  /\ parse source
     = Raised (ParseError.mk "Expected '='" (Some (Position.mk 5 8 1 6)))
  /\ (forall tokens position,
        isVariableAssignment tokens position = true <->
        check tokens WORD position = true /\
        exists next, nth_error tokens (position + 1) = Some next /\
                     Token.value next = "="%string).
Proof.
  split; [vm_compute; reflexivity|]. split; [vm_compute; reflexivity|].
  apply BuilderFacts.isVariableAssignment_iff.
Qed.

(** C3, at the input [echo "=" | grep x | wc]: three simple commands
    with a bar between them.  The first word is followed by a token that
    reads [=]; the lookahead of [isVariableAssignment] (see C2) takes the
    statement for an assignment, and [parse] raises where the claim has
    the pipeline of the three commands. *)
Theorem pipeline_after_a_quoted_equals_raises :
  let source := ("echo " ++ DQUOTE ++ "=" ++ DQUOTE ++ " | grep x | wc")%string in
  Tokenizer.tokenize source
  = Some [token1 WORD "echo" 0 4; token1 QUOTED_STRING "=" 5 8; token1 PIPE "|" 9 10;
          token1 WORD "grep" 11 15; token1 WORD "x" 16 17; token1 PIPE "|" 18 19;
          token1 WORD "wc" 20 22; token1 EOF EmptyString 22 22]
  /\ simpleCommand [token1 WORD "echo" 0 4; token1 QUOTED_STRING "=" 5 8]
  /\ simpleCommand [token1 WORD "grep" 11 15; token1 WORD "x" 16 17]
  /\ simpleCommand [token1 WORD "wc" 20 22]
  /\ parse source
     = Raised (ParseError.mk "Expected '='" (Some (Position.mk 5 8 1 6))).
Proof.
  cbv zeta. split; [vm_compute; reflexivity|].
  split; [split; [reflexivity | repeat constructor; right; reflexivity]|].
  split; [split; [reflexivity | repeat constructor; left; reflexivity]|].
  split; [split; [reflexivity | constructor]|].
  vm_compute. reflexivity.
Qed.

(** Three commands with a bar between them, the second with an argument
    that is a key every object inherits: [keywords[value]] is then no
    kind of token the builder knows, the first pipeline ends before the
    argument, and the bar after it is passed over. *)
Lemma pipeline_before_an_inherited_key_ends :
  parse "ls | grep constructor | wc"
  = Returned
      (Program.mk
         [Pipeline [Command.mk "ls" [] (Some (Position.mk 0 4 1 1));
                    Command.mk "grep" [] (Some (Position.mk 5 21 1 6))] None;
          Cmd (Command.mk "wc" [] (Some (Position.mk 24 26 1 25)))]
         None).
Proof. vm_compute. reflexivity. Qed.

(** X27: in the tree [parse] returns every pipeline has two commands or
    more, [parsePipeline] returning the command itself when it parsed
    one; when the tokens of the source are three simple commands with a
    bar between them, the program is the one pipeline of the three
    commands in their order; when they are one simple command, the
    program is that command, bare.  A simple command is a [WORD] token
    and then [WORD] and [QUOTED_STRING] tokens; the two runs are stated
    for the sources that the statement dispatch does not take for an
    assignment: the second token of the source does not read [=]. *)
Theorem pipeline_has_two_commands_or_more :
  (forall input program commands position,
      parse input = Returned program ->
      In (Pipeline commands position) (programNodes program) ->
      2 <= length commands) /\
  (forall tokens fuel first stmt next,
      parsePipeline tokens fuel first = Return stmt next ->
      (exists command, stmt = Cmd command) \/
      (exists commands, stmt = Pipeline commands None /\ 2 <= length commands)) /\
  (forall input A B C bar1 bar2 eof,
      Tokenizer.tokenize input = Some (A ++ bar1 :: B ++ bar2 :: C ++ [eof]) ->
      simpleCommand A -> simpleCommand B -> simpleCommand C ->
      Token.type bar1 = PIPE -> Token.type bar2 = PIPE -> Token.type eof = EOF ->
      notAssignment (A ++ bar1 :: B ++ bar2 :: C ++ [eof]) ->
      exists a b c,
        parse input = Returned (Program.mk [Pipeline [a; b; c] None] None) /\
        commandOf A a /\ commandOf B b /\ commandOf C c) /\
  (forall input A eof,
      Tokenizer.tokenize input = Some (A ++ [eof]) ->
      simpleCommand A -> Token.type eof = EOF -> notAssignment (A ++ [eof]) ->
      exists a,
        parse input = Returned (Program.mk [Cmd a] None) /\ commandOf A a).
Proof.
  split; [|split; [|split]].
  - intros input program commands position H Hin.
    destruct (BuilderFacts.parse_nodes _ _ _ H Hin) as (tokens & _ & _ & Hn).
    simpl in Hn. tauto.
  - intros tokens fuel first stmt next. apply BuilderFacts.parsePipeline_shape.
  - intros input A B C bar1 bar2 eof Ht HA HB HC H1 H2 He Hna.
    unfold parse. rewrite Ht.
    destruct (BuilderFacts.parseTokens_run
                (A ++ bar1 :: B ++ bar2 :: C ++ [eof]) A [(bar1, B); (bar2, C)] eof)
      as (a & cs & stmt & Hp & Hof & Ha & Hcs); auto.
    + simpl. rewrite app_nil_r, <- app_assoc. reflexivity.
    + repeat constructor; assumption.
    + simpl in Hcs.
      inversion Hcs as [|? b ? cs1 Hb Hcs1]; subst.
      inversion Hcs1 as [|? c ? cs2 Hc Hcs2]; subst.
      inversion Hcs2; subst.
      simpl in Hof. inversion Hof; subst stmt.
      exists a, b, c. auto.
  - intros input A eof Ht HA He Hna.
    unfold parse. rewrite Ht.
    destruct (BuilderFacts.parseTokens_run (A ++ [eof]) A [] eof)
      as (a & cs & stmt & Hp & Hof & Ha & Hcs); auto.
    simpl in Hcs. inversion Hcs; subst.
    simpl in Hof. inversion Hof; subst stmt.
    exists a. auto.
Qed.

Lemma pipeline_has_two_commands_or_more_witness :
  (exists program commands position,
      parse "ls | grep test" = Returned program /\
      In (Pipeline commands position) (programNodes program) /\
      2 <= length commands) /\
  (exists a b c,
      parse "cat f.txt | grep x | sort -u"
      = Returned (Program.mk [Pipeline [a; b; c] None] None) /\
      Command.name a = "cat" /\ Command.args a = ["f.txt"] /\
      Command.name b = "grep" /\ Command.args b = ["x"] /\
      Command.name c = "sort" /\ Command.args c = ["-u"]) /\
  (exists a,
      parse "ls -la /home" = Returned (Program.mk [Cmd a] None) /\
      Command.name a = "ls" /\ Command.args a = ["-la"; "/home"]).
Proof.
  destruct pipeline_has_two_commands_or_more as (H1 & _ & H2 & H3).
  split; [|split].
  - eexists. eexists. eexists.
    split; [vm_compute; reflexivity|]. split; [simpl; left; reflexivity|].
    eapply (H1 "ls | grep test"); [vm_compute; reflexivity | simpl; left; reflexivity].
  - destruct (H2 "cat f.txt | grep x | sort -u"
                 [token1 WORD "cat" 0 3; token1 WORD "f.txt" 4 9]
                 [token1 WORD "grep" 12 16; token1 WORD "x" 17 18]
                 [token1 WORD "sort" 21 25; token1 WORD "-u" 26 28]
                 (token1 PIPE "|" 10 11) (token1 PIPE "|" 19 20)
                 (token1 EOF EmptyString 28 28))
      as (a & b & c & Hp & (Ha1 & Ha2) & (Hb1 & Hb2) & (Hc1 & Hc2));
      try reflexivity.
    + simpl. split; [reflexivity|]. repeat constructor.
    + simpl. split; [reflexivity|]. repeat constructor.
    + simpl. split; [reflexivity|]. repeat constructor.
    + intros tok E. inversion E; subst. discriminate.
    + exists a, b, c. repeat split; assumption.
  - destruct (H3 "ls -la /home"
                 [token1 WORD "ls" 0 2; token1 WORD "-la" 3 6; token1 WORD "/home" 7 12]
                 (token1 EOF EmptyString 12 12))
      as (a & Hp & Ha1 & Ha2); try reflexivity.
    + simpl. split; [reflexivity|]. repeat constructor.
    + intros tok E. inversion E; subst. discriminate.
    + exists a. repeat split; assumption.
Defined.

(** C4: on every input [tokenize] returns, and the sequence it returns
    ends with a token of kind [EOF]; [parse] returns a program or raises a
    [ParseError].  Every call of [nextToken] inside the input moves the
    cursor forward, and each scanning loop stops because its own
    condition fails, not because its bound is used up. *)
Theorem tokenize_and_parse_terminate :
  (forall input,
      (exists body eof,
          Tokenizer.tokenize input = Some (body ++ [eof]) /\ Token.type eof = EOF) /\
      ((exists program, parse input = Returned program) \/
       (exists error, parse input = Raised error))) /\
  (forall s,
      Tokenizer.inBounds s = true ->
      Tokenizer.position s < Tokenizer.position (snd (Tokenizer.nextToken s))) /\
  (forall s cond value quote,
      let blank := Tokenizer.skipWhitespace s in
      let collected := snd (Tokenizer.collect cond value s) in
      let quoted := snd (Tokenizer.readQuotedString_loop quote (Tokenizer.left s) value s) in
      Tokenizer.inBounds blank
      && Tokenizer.test Tokenizer.blankClass (Tokenizer.current blank) = false /\
      Tokenizer.inBounds collected && cond (Tokenizer.current collected) = false /\
      Tokenizer.inBounds quoted
      && negb (Tokenizer.current quoted =? quote)%string = false).
Proof.
  split; [|split].
  - intros input. split.
    + destruct (TokenizerFacts.tokenize_total input)
        as (tokens & Ht & body & eof & -> & He & _).
      exists body, eof. auto.
    + apply BuilderFacts.parse_total.
  - intros s Hb. apply TokenizerFacts.nextToken_moves. exact Hb.
  - intros s cond value quote. cbv zeta. split; [|split].
    + apply TokenizerFacts.skipWhitespace_loop_exit. auto.
    + apply TokenizerFacts.collect_loop_exit. auto.
    + apply TokenizerFacts.readQuotedString_loop_exit. auto.
Qed.

Lemma tokenize_and_parse_terminate_witness :
  let s := Tokenizer.init "echo hello; ls -la" in
  Tokenizer.inBounds s = true /\
  Tokenizer.position s < Tokenizer.position (snd (Tokenizer.nextToken s)).
Proof.
  cbv zeta. split; [reflexivity|].
  apply (proj1 (proj2 tokenize_and_parse_terminate)). reflexivity.
Defined.

(** C5: [if without fi] raises a [ParseError], for the missing [then],
    and the error carries the position of the token [fi]. *)
Theorem if_without_fi_raises :
  parse "if without fi"
  = Raised (ParseError.mk "Expected 'then'" (Some (Position.mk 11 13 1 12))).
Proof. vm_compute. reflexivity. Qed.

(** C7: [name=john] scans to the word [name], the one-character word
    [=] of the fallback rule and the word [john]; the program is the one
    assignment of the unquoted literal [john] to [name]. *)
Theorem name_john_is_an_assignment :
  Tokenizer.tokenize "name=john"
  = Some [Token.mk WORD "name" (Position.mk 0 4 1 1);
          Token.mk WORD "=" (Position.mk 4 5 1 5);
          Token.mk WORD "john" (Position.mk 5 9 1 6);
          Token.mk EOF EmptyString (Position.mk 9 9 1 10)]
  /\ parse "name=john"
     = Returned
         (Program.mk
            [VariableAssignment "name"
               (Literal "john" false (Some (Position.mk 5 9 1 6)))
               (Some (Position.mk 0 9 1 1))]
            None).
Proof. split; vm_compute; reflexivity. Qed.

(** C8: in the tree [parse] returns no pipeline has a position, while
    every other statement node, the commands of a pipeline among them,
    has one. *)
Theorem pipeline_has_no_position :
  forall input program,
    parse input = Returned program ->
    (forall commands position,
        In (Pipeline commands position) (programNodes program) -> position = None) /\
    (forall stmt,
        In stmt (programNodes program) -> isPipeline stmt = false ->
        statementPosition stmt <> None).
Proof.
  intros input program H. split.
  - intros commands position Hin.
    destruct (BuilderFacts.parse_nodes _ _ _ H Hin) as (tokens & _ & _ & Hn).
    simpl in Hn. tauto.
  - intros stmt Hin Hp.
    destruct (BuilderFacts.parse_nodes _ _ _ H Hin) as (tokens & _ & _ & Hn).
    destruct stmt; simpl in *; try discriminate; tauto.
Qed.

Lemma pipeline_has_no_position_witness :
  exists program commands position,
    parse "ls | grep test" = Returned program /\
    In (Pipeline commands position) (programNodes program) /\
    position = None.
Proof.
  eexists. eexists. eexists.
  split; [vm_compute; reflexivity|]. split; [simpl; left; reflexivity|].
  eapply (proj1 (pipeline_has_no_position "ls | grep test" _
                                          ltac:(vm_compute; reflexivity))).
  simpl. left. reflexivity.
Defined.

(** C9: in the tree [parse] returns the kind of every loop is [for] or
    [while]; it is never [until]. *)
Theorem loop_kind_is_for_or_while :
  forall input program kind condition variable iterable body position,
    parse input = Returned program ->
    In (Loop kind condition variable iterable body position) (programNodes program) ->
    (kind = "for" \/ kind = "while") /\ kind <> "until".
Proof.
  intros input program kind condition variable iterable body position H Hin.
  destruct (BuilderFacts.parse_nodes _ _ _ H Hin) as (tokens & _ & Hz & Hn).
  simpl in Hn. destruct Hn as (_ & tok & Htok & Hty & <-).
  destruct (BuilderFacts.tokenized_keywordText _ _ Hz Htok) as [Hfor Hwhile].
  destruct Hty as [Hty|Hty].
  - rewrite (Hfor Hty). split; [auto|discriminate].
  - rewrite (Hwhile Hty). split; [auto|discriminate].
Qed.

Lemma loop_kind_is_for_or_while_witness :
  exists program kind condition variable iterable body position,
    parse "while x do y done" = Returned program /\
    In (Loop kind condition variable iterable body position) (programNodes program) /\
    (kind = "for" \/ kind = "while") /\ kind <> "until".
Proof.
  do 7 eexists.
  split; [vm_compute; reflexivity|]. split; [simpl; left; reflexivity|].
  eapply (loop_kind_is_for_or_while "while x do y done");
    [vm_compute; reflexivity | simpl; left; reflexivity].
Defined.

(** C10: on the empty input, and on an input of spaces, tabs and
    newlines only, [parse] returns the program with the empty body. *)
Theorem whitespace_parses_to_the_empty_program :
  forall input,
    Forall whitespace (list_ascii_of_string input) ->
    parse input = Returned (Program.mk [] None).
Proof.
  intros input H.
  destruct (TokenizerFacts.tokenize_whitespace input H) as (newlines & eof & Ht & Hn & He).
  unfold parse. rewrite Ht.
  apply (BuilderFacts.parseTokens_newlines _ newlines eof); auto.
Qed.

Lemma whitespace_parses_to_the_empty_program_witness :
  parse EmptyString = Returned (Program.mk [] None) /\
  parse (" " ++ TAB ++ NL ++ "  " ++ NL)%string = Returned (Program.mk [] None).
Proof.
  split; apply whitespace_parses_to_the_empty_program.
  - constructor.
  - simpl. repeat (apply Forall_cons; [unfold whitespace; tauto|]). constructor.
Defined.

(** * Further properties of the scanner *)

Module ScanFacts.
Import Tokenizer TokenizerFacts.
#[local] Open Scope list_scope.

Lemma string_of_list_ascii_app l1 l2 :
  string_of_list_ascii (l1 ++ l2)
  = (string_of_list_ascii l1 ++ string_of_list_ascii l2)%string.
Proof. induction l1 as [|c l1 IH]; simpl; [reflexivity | rewrite IH; reflexivity]. Qed.

Lemma firstn_plus {A} (l : list A) n m :
  firstn (n + m) l = firstn n l ++ firstn m (skipn n l).
Proof.
  revert l. induction n as [|n IH]; intros l; [reflexivity|].
  destruct l as [|x l]; simpl.
  - rewrite firstn_nil. reflexivity.
  - rewrite IH. reflexivity.
Qed.

Lemma sourceText_app input a b c :
  a <= b -> b <= c ->
  (sourceText input a b ++ sourceText input b c)%string = sourceText input a c.
Proof.
  intros Hab Hbc. unfold sourceText. rewrite <- string_of_list_ascii_app. f_equal.
  replace (c - a) with ((b - a) + (c - b)) by lia.
  rewrite firstn_plus, skipn_skipn.
  replace (b - a + a) with b by lia. reflexivity.
Qed.

Lemma sourceText_nil input a : sourceText input a a = EmptyString.
Proof. unfold sourceText. rewrite Nat.sub_diag. reflexivity. Qed.

Lemma inBounds_nth s :
  inBounds s = true -> exists c, nth_error (input s) (position s) = Some c.
Proof.
  unfold inBounds. intros H. apply Nat.ltb_lt in H.
  destruct (nth_error (input s) (position s)) as [c|] eqn:E; eauto.
  apply nth_error_None in E. lia.
Qed.

Lemma skipn_nth_cons (l : list ascii) p c :
  nth_error l p = Some c -> skipn p l = c :: skipn (S p) l.
Proof.
  revert p. induction l as [|x l IH]; intros [|p] E; try discriminate.
  - inversion E. reflexivity.
  - simpl in E. rewrite (skipn_cons p x l). rewrite (IH p E). reflexivity.
Qed.

Lemma firstn_S_nth (l : list ascii) p c :
  nth_error l p = Some c -> firstn (S p) l = firstn p l ++ [c].
Proof.
  revert p. induction l as [|x l IH]; intros [|p] E; try discriminate.
  - inversion E. reflexivity.
  - simpl in E. rewrite firstn_cons, (IH p E). reflexivity.
Qed.

Lemma current_nth s c :
  nth_error (input s) (position s) = Some c -> current s = String c EmptyString.
Proof. unfold current. intros ->. reflexivity. Qed.

Lemma current_sourceText s :
  inBounds s = true ->
  current s = sourceText (input s) (position s) (S (position s)).
Proof.
  intros H. destruct (inBounds_nth s H) as (c & E).
  rewrite (current_nth _ _ E). unfold sourceText.
  rewrite (skipn_nth_cons _ _ _ E).
  replace (S (position s) - position s) with 1 by lia. reflexivity.
Qed.

Lemma current_inBounds s c t : current s = String c t -> inBounds s = true.
Proof.
  unfold current, inBounds.
  destruct (nth_error (input s) (position s)) eqn:E; [|discriminate].
  intros _. apply Nat.ltb_lt. apply nth_error_Some. congruence.
Qed.

Lemma advance_located s : inBounds s = true -> located s -> located (advance s).
Proof.
  intros Hb [Hle Hlc]. destruct (inBounds_nth s Hb) as (c & E).
  unfold located. rewrite advance_input, advance_position.
  split; [unfold inBounds in Hb; apply Nat.ltb_lt in Hb; lia|].
  rewrite (firstn_S_nth _ _ _ E). unfold cursorAfter in *.
  rewrite fold_left_app, <- Hlc. simpl.
  unfold advance. rewrite (current_nth _ _ E).
  unfold NL. simpl String.eqb.
  destruct (Ascii.eqb c "010"); reflexivity.
Qed.

Lemma append_empty (x : string) : (x ++ EmptyString)%string = x.
Proof. induction x as [|c x IH]; simpl; [reflexivity | rewrite IH; reflexivity]. Qed.

Lemma append_assoc (x y z : string) : ((x ++ y) ++ z)%string = (x ++ (y ++ z))%string.
Proof. induction x as [|c x IH]; simpl; [reflexivity | rewrite IH; reflexivity]. Qed.

(** ** The loops keep the line and the column, and collect the source text *)

Lemma skipWhitespace_loop_located n : forall s,
    located s -> located (skipWhitespace_loop n s).
Proof.
  induction n as [|n IH]; intros s H; simpl; auto.
  destruct (inBounds s && test blankClass (current s)) eqn:E; auto.
  apply andb_prop in E as [E _]. apply IH, advance_located; assumption.
Qed.

Lemma collect_loop_scans cond n : forall value s,
    located s ->
    located (snd (collect_loop cond n value s)) /\
    fst (collect_loop cond n value s)
    = (value ++ sourceText (input s) (position s)
                           (position (snd (collect_loop cond n value s))))%string.
Proof.
  induction n as [|n IH]; intros value s H; simpl.
  - rewrite sourceText_nil, append_empty. auto.
  - destruct (inBounds s && cond (current s)) eqn:E; simpl.
    + apply andb_prop in E as [E _].
      destruct (IH (value ++ current s)%string (advance s) (advance_located _ E H))
        as [Hl Hv].
      split; [exact Hl|]. rewrite Hv.
      pose proof (collect_loop_after cond n (value ++ current s)%string (advance s)) as Ha.
      apply after_advance_lt in Ha as [_ Hlt].
      set (r := collect_loop cond n (value ++ current s)%string (advance s)) in *.
      rewrite advance_input, advance_position, append_assoc.
      rewrite (current_sourceText _ E), sourceText_app by lia. reflexivity.
    + rewrite sourceText_nil, append_empty. auto.
Qed.

Lemma readQuotedString_loop_located quote n : forall value s,
    located s -> located (snd (readQuotedString_loop quote n value s)).
Proof.
  induction n as [|n IH]; intros value s H; simpl; auto.
  destruct (inBounds s && negb (current s =? quote)%string) eqn:E; simpl; auto.
  apply andb_prop in E as [E _]. pose proof (advance_located _ E H) as H1.
  destruct (current s =? "\")%string.
  - destruct (inBounds (advance s)) eqn:E1; apply IH; auto.
    apply advance_located; assumption.
  - apply IH; assumption.
Qed.

(** ** The kinds and their texts *)

Lemma getKeywordType_kind value type pos :
  getKeywordType value = Some type -> kindText (Token.mk type value pos).
Proof.
  unfold getKeywordType.
  repeat match goal with
         | |- context [if (?v =? ?k)%string then _ else _] =>
             let E := fresh "E" in
             destruct (String.eqb_spec v k) as [E|E];
             [ intros H; inversion H; subst; reflexivity | ]
         end.
  destruct (existsb _ _) eqn:Ex; intros H; inversion H; subst.
  apply existsb_exists in Ex as (key & Hin & Heq).
  apply String.eqb_eq in Heq. subst. exact Hin.
Qed.

Lemma getKeywordType_plain value type :
  getKeywordType value = Some type -> plainKind type = true.
Proof.
  unfold getKeywordType.
  repeat match goal with
         | |- context [if (?v =? ?k)%string then _ else _] =>
             destruct (v =? k)%string;
             [ intros H; inversion H; subst; reflexivity | ]
         end.
  destruct (existsb _ _); intros H; inversion H; subst. reflexivity.
Qed.

Lemma one_character_differs c a b t :
  (String c EmptyString =? String a (String b t))%string = false.
Proof. simpl. destruct (Ascii.eqb c a); reflexivity. Qed.

Lemma getKeywordType_one_character c :
  getKeywordType (String c EmptyString) = None.
Proof.
  unfold getKeywordType, inheritedKeys. cbn [existsb].
  rewrite !one_character_differs. reflexivity.
Qed.

Lemma spelled_plain input tok :
  plainKind (Token.type tok) = true ->
  sourceText input (Position.start (Token.position tok))
             (Position.end_ (Token.position tok)) = Token.value tok ->
  spelled input tok.
Proof.
  unfold spelled. destruct (Token.type tok); simpl; try discriminate; auto.
Qed.

(** ** The readers *)

Ltac fields :=
  unfold createToken, getPosition;
  cbn [Token.type Token.value Token.position Position.start Position.end_
       Position.line Position.column fst snd].

Ltac scans_start := unfold scans; fields.

Lemma single_scans type char s :
  located s -> current s = char -> inBounds s = true ->
  plainKind type = true -> (forall pos, kindText (Token.mk type char pos)) ->
  scans s (single type char (getPosition s) s).
Proof.
  intros Hl Hc Hb Hp Hk. unfold single. scans_start.
  rewrite advance_input, advance_position.
  split; [apply advance_located; assumption|]. split; [reflexivity|].
  split; [lia|]. split; [reflexivity|]. split; [|split].
  - apply spelled_plain; fields; auto.
    rewrite ?advance_position. rewrite <- current_sourceText by assumption. exact Hc.
  - apply Hk.
  - destruct type; discriminate.
Qed.

Lemma operator_scans char two one s :
  located s -> current s = char -> inBounds s = true ->
  plainKind two = true -> plainKind one = true ->
  (forall pos, kindText (Token.mk two (char ++ char)%string pos)) ->
  (forall pos, kindText (Token.mk one char pos)) ->
  scans s (operator char two one (getPosition s) s).
Proof.
  intros Hl Hc Hb Hp2 Hp1 Hk2 Hk1. unfold operator.
  pose proof (advance_located _ Hb Hl) as Hl1.
  destruct (String.eqb_spec (current (advance s)) char) as [E|E]; scans_start.
  - assert (Hb1 : inBounds (advance s) = true).
    { destruct char as [|c t]; [|eapply current_inBounds; eauto].
      rewrite (current_sourceText _ Hb) in Hc. unfold sourceText in Hc.
      destruct (inBounds_nth s Hb) as (c & En).
      rewrite (skipn_nth_cons _ _ _ En) in Hc.
      replace (S (position s) - position s) with 1 in Hc by lia. discriminate. }
    rewrite !advance_input, !advance_position.
    split; [apply advance_located; assumption|]. split; [reflexivity|].
    split; [lia|]. split; [reflexivity|]. split; [|split].
    + apply spelled_plain; fields; auto.
      rewrite ?advance_position.
      rewrite <- (sourceText_app _ (position s) (S (position s))) by lia.
      rewrite <- current_sourceText by assumption.
      pose proof (current_sourceText _ Hb1) as H1.
      rewrite advance_input, advance_position in H1. rewrite <- H1, E, Hc. reflexivity.
    + apply Hk2.
    + destruct two; discriminate.
  - rewrite advance_input, advance_position.
    split; [assumption|]. split; [reflexivity|].
    split; [lia|]. split; [reflexivity|]. split; [|split].
    + apply spelled_plain; fields; auto.
      rewrite ?advance_position. rewrite <- current_sourceText by assumption. exact Hc.
    + apply Hk1.
    + destruct one; discriminate.
Qed.

Lemma readComment_scans s :
  located s -> inBounds s = true -> current s = "#"%string -> scans s (readComment s).
Proof.
  intros Hl Hb Hc. unfold readComment, collect.
  pose proof (advance_located _ Hb Hl) as Hl1.
  destruct (collect_loop_scans (fun c => negb (c =? NL)%string) (left (advance s))
                               EmptyString (advance s) Hl1) as [Hl2 Hv].
  pose proof (collect_loop_after (fun c => negb (c =? NL)%string) (left (advance s))
                                 EmptyString (advance s)) as Ha.
  apply after_advance_lt in Ha as [[Hi _] Hlt].
  destruct (collect_loop _ _ _ _) as [value s2]. simpl fst in *. simpl snd in *.
  scans_start. repeat (split; [first [assumption | reflexivity]|]). split; [|split].
  - unfold spelled. fields.
    rewrite <- (sourceText_app _ (position s) (S (position s))) by lia.
    rewrite <- current_sourceText, Hc by assumption.
    rewrite Hv, advance_input, advance_position. reflexivity.
  - exact I.
  - discriminate.
Qed.

Lemma readQuotedString_scans quote s :
  located s -> inBounds s = true -> current s = quote ->
  scans s (readQuotedString quote s).
Proof.
  intros Hl Hb Hq. unfold readQuotedString.
  destruct (inBounds_nth s Hb) as (q & Enq).
  rewrite (current_nth _ _ Enq) in Hq.
  pose proof (advance_located _ Hb Hl) as Hl1.
  pose proof (readQuotedString_loop_located quote (left (advance s)) EmptyString
                                            (advance s) Hl1) as Hl2.
  pose proof (readQuotedString_loop_after quote (left (advance s)) EmptyString
                                          (advance s)) as Ha.
  apply after_advance_lt in Ha as [[Hi _] Hlt].
  destruct (readQuotedString_loop _ _ _ _) as [value s2]. simpl snd in *.
  destruct (String.eqb_spec (current s2) quote) as [E|E]; scans_start.
  - assert (Hb2 : inBounds s2 = true).
    { rewrite <- Hq in E. eapply current_inBounds; eauto. }
    rewrite advance_input, advance_position.
    split; [apply advance_located; assumption|].
    split; [assumption|]. split; [lia|]. split; [reflexivity|].
    split; [exact I|]. split; [exact I|discriminate].
  - split; [assumption|].
    split; [assumption|]. split; [lia|]. split; [reflexivity|].
    split; [exact I|]. split; [exact I|discriminate].
Qed.

Lemma readVariable_scans s :
  located s -> inBounds s = true -> current s = "$"%string -> scans s (readVariable s).
Proof.
  intros Hl Hb Hc. unfold readVariable, collect.
  pose proof (advance_located _ Hb Hl) as Hl1.
  assert (Hdollar : sourceText (input s) (position s) (S (position s)) = "$"%string).
  { rewrite <- current_sourceText; assumption. }
  destruct (String.eqb_spec (current (advance s)) "{") as [E|E].
  - assert (Hb1 : inBounds (advance s) = true) by (eapply current_inBounds; eauto).
    pose proof (advance_located _ Hb1 Hl1) as Hl2.
    assert (Hbrace : sourceText (input s) (S (position s)) (S (S (position s)))
                     = "{"%string).
    { pose proof (current_sourceText _ Hb1) as H.
      rewrite advance_input, advance_position in H. rewrite <- H. exact E. }
    destruct (collect_loop_scans (fun c => negb (c =? "}")%string)
                                 (left (advance (advance s))) EmptyString
                                 (advance (advance s)) Hl2) as [Hl3 Hv].
    pose proof (collect_loop_after (fun c => negb (c =? "}")%string)
                                   (left (advance (advance s))) EmptyString
                                   (advance (advance s))) as Ha.
    apply after_advance_lt in Ha as [Ha _].
    apply after_advance_lt in Ha as [[Hi _] Hlt].
    rewrite !advance_input, !advance_position in Hv.
    assert (Hle : S (S (position s))
                  <= position (snd (collect_loop (fun c => negb (c =? "}")%string)
                                                 (left (advance (advance s))) EmptyString
                                                 (advance (advance s))))).
    { pose proof (collect_loop_after (fun c => negb (c =? "}")%string)
                                     (left (advance (advance s))) EmptyString
                                     (advance (advance s))) as [_ H].
      rewrite !advance_position in H. exact H. }
    destruct (collect_loop _ _ _ _) as [value s3]. simpl fst in *. simpl snd in *.
    simpl in Hv.
    assert (Hhead : sourceText (input s) (position s) (position s3)
                    = ("${" ++ value)%string).
    { rewrite <- (sourceText_app _ (position s) (S (position s))) by lia.
      rewrite <- (sourceText_app _ (S (position s)) (S (S (position s)))) by lia.
      rewrite Hdollar, Hbrace, <- Hv. reflexivity. }
    destruct (String.eqb_spec (current s3) "}") as [E3|E3]; scans_start.
    + assert (Hb3 : inBounds s3 = true) by (eapply current_inBounds; eauto).
      rewrite advance_input, advance_position.
      split; [apply advance_located; assumption|].
      split; [assumption|]. split; [lia|]. split; [reflexivity|].
      split; [|split; [exact I|discriminate]].
      unfold spelled. fields. right. left.
      rewrite <- (sourceText_app _ (position s) (position s3)) by lia.
      pose proof (current_sourceText _ Hb3) as H. rewrite Hi in H.
      rewrite Hhead, <- H, E3. rewrite append_assoc. reflexivity.
    + split; [assumption|].
      split; [assumption|]. split; [lia|]. split; [reflexivity|].
      split; [|split; [exact I|discriminate]].
      unfold spelled. fields. right. right. exact Hhead.
  - destruct (collect_loop_scans isWordChar (left (advance s)) EmptyString
                                 (advance s) Hl1) as [Hl2 Hv].
    pose proof (collect_loop_after isWordChar (left (advance s)) EmptyString
                                   (advance s)) as Ha.
    apply after_advance_lt in Ha as [[Hi _] Hlt].
    rewrite advance_input, advance_position in Hv.
    destruct (collect_loop _ _ _ _) as [value s2]. simpl fst in *. simpl snd in *.
    simpl in Hv. scans_start.
    split; [assumption|].
    split; [assumption|]. split; [lia|]. split; [reflexivity|].
    split; [|split; [exact I|discriminate]].
    unfold spelled. fields. left.
    rewrite <- (sourceText_app _ (position s) (S (position s))) by lia.
    rewrite Hdollar, <- Hv. reflexivity.
Qed.

Lemma readWord_scans s :
  located s -> inBounds s = true -> scans s (readWord s).
Proof.
  intros Hl Hb. unfold readWord, collect.
  destruct (isWordChar (current s)) eqn:Ew; simpl negb; cbv iota.
  - destruct (collect_loop_scans isWordChar (left s) EmptyString s Hl) as [Hl1 Hv].
    pose proof (collect_loop_after isWordChar (left s) EmptyString s) as [Hi _].
    assert (Hm : position s < position (snd (collect_loop isWordChar (left s) EmptyString s))).
    { apply collect_loop_moves.
      - unfold inBounds in Hb. apply Nat.ltb_lt in Hb. unfold left. lia.
      - rewrite Hb, Ew. reflexivity. }
    destruct (collect_loop _ _ _ _) as [value s1]. simpl fst in *. simpl snd in *.
    simpl in Hv. scans_start.
    split; [assumption|].
    split; [assumption|]. split; [lia|]. split; [reflexivity|].
    destruct (getKeywordType value) as [k|] eqn:Ek.
    + pose proof (getKeywordType_text _ _ Ek) as (_ & _ & Heof & Hword).
      split; [|split].
      * apply spelled_plain; fields; auto.
        eapply getKeywordType_plain; eauto.
      * apply getKeywordType_kind. exact Ek.
      * exact Heof.
    + split; [|split].
      * apply spelled_plain; fields; auto.
      * unfold kindText. fields. exact Ek.
      * discriminate.
  - destruct (inBounds_nth s Hb) as (c & En).
    scans_start. rewrite advance_input, advance_position.
    split; [apply advance_located; assumption|].
    split; [reflexivity|]. split; [lia|]. split; [reflexivity|].
    split; [|split].
    + apply spelled_plain; fields; auto. symmetry. apply current_sourceText. assumption.
    + unfold kindText. fields. rewrite (current_nth _ _ En).
      apply getKeywordType_one_character.
    + discriminate.
Qed.

(** ** One token, and the whole input *)

Lemma skipWhitespace_located s : located s -> located (skipWhitespace s).
Proof. apply skipWhitespace_loop_located. Qed.

Lemma nextToken_scans s :
  located s -> inBounds s = true ->
  located (snd (nextToken s)) /\
  forall tok, fst (nextToken s) = Some tok ->
    exists s1, located s1 /\ input s1 = input s /\ position s <= position s1 /\
               scans s1 (tok, snd (nextToken s)).
Proof.
  intros Hl Hb. unfold nextToken.
  pose proof (skipWhitespace_located s Hl) as Hl1.
  pose proof (skipWhitespace_loop_after (left s) s) as [Hi Hp].
  fold (skipWhitespace s) in Hi, Hp.
  destruct (inBounds (skipWhitespace s)) eqn:Hb1; simpl negb; cbv iota;
    [|split; [assumption|discriminate]].
  assert (R : forall r, scans (skipWhitespace s) r ->
              located (snd (some r)) /\
              forall tok, fst (some r) = Some tok ->
                exists s1, located s1 /\ input s1 = input s /\
                           position s <= position s1 /\ scans s1 (tok, snd (some r))).
  { intros [tok s'] Hs. simpl. split; [apply Hs|].
    intros tok' E. inversion E; subst tok'. exists (skipWhitespace s). auto. }
  repeat match goal with
         | |- context [if (?a =? ?b)%string then _ else _] =>
             destruct (String.eqb_spec a b)
         | |- context [if ?c then _ else _] => destruct c eqn:?
         end;
    apply R;
    first [ apply readComment_scans; assumption
          | apply single_scans; first [assumption | reflexivity | intros; reflexivity]
          | apply operator_scans; first [assumption | reflexivity | intros; reflexivity]
          | apply readQuotedString_scans; first [assumption | reflexivity]
          | apply readVariable_scans; assumption
          | apply readWord_scans; assumption ].
Qed.

Lemma scans_wellScanned s r :
  located s -> scans s r -> wellScanned (input s) (fst r).
Proof.
  intros [Hle Hlc] (Hl' & Hi & Hlt & Hpos & Hsp & Hk & Ht).
  destruct Hl' as [Hle' _]. rewrite Hi in Hle'.
  split; [|split]; auto.
  unfold placed. rewrite Hpos. cbn [Position.start Position.end_ Position.line Position.column].
  repeat split; auto; lia.
Qed.

Lemma ordered_snoc tokens tok :
  ordered tokens ->
  Forall (fun t => Position.end_ (Token.position t) <= Position.start (Token.position tok))
         tokens ->
  ordered (tokens ++ [tok]).
Proof.
  intros Ho Hf i j ti tj Hij Hi Hj.
  assert (Hjlen : j < length (tokens ++ [tok])) by (apply nth_error_Some; congruence).
  rewrite length_app in Hjlen. simpl in Hjlen.
  rewrite nth_error_app1 in Hi by lia.
  destruct (Nat.lt_ge_cases j (length tokens)) as [Hlt|Hge].
  - rewrite nth_error_app1 in Hj by lia. eauto.
  - rewrite nth_error_app2 in Hj by lia.
    replace (j - length tokens) with 0 in Hj by lia. inversion Hj; subst tj.
    rewrite Forall_forall in Hf. apply Hf. eapply nth_error_In; eauto.
Qed.

Lemma tokenize_loop_scanned fuel : forall tokens s result,
    located s -> pushed s tokens ->
    tokenize_loop fuel tokens s = Some result ->
    Forall (wellScanned (input s)) result /\ ordered result /\
    exists body eof,
      result = body ++ [eof] /\ Token.type eof = EOF /\
      Forall (fun tok => Token.type tok <> EOF) body /\
      Position.start (Token.position eof) = length (input s).
Proof.
  induction fuel as [|fuel IH]; intros tokens s result Hl (Hw & Ho & He); [discriminate|].
  simpl. destruct (inBounds s) eqn:Hb.
  - destruct (nextToken_scans s Hl Hb) as [Hl' Htok].
    destruct (nextToken_moves s Hb) as ([Hi Hp] & Hlt & _).
    destruct (nextToken s) as [[tok|] s'] eqn:En; simpl in *.
    + destruct (Htok tok eq_refl) as (s1 & Hl1 & Hi1 & Hp1 & Hs).
      pose proof (scans_wellScanned _ _ Hl1 Hs) as Hws. simpl in Hws. rewrite Hi1 in Hws.
      destruct Hs as (_ & _ & Hlt1 & Hpos & _ & _ & Hty). simpl in *.
      intros Hr. rewrite <- Hi. apply (IH _ _ _ Hl') in Hr; [exact Hr|].
      unfold pushed. rewrite Hi. split; [|split].
      * apply Forall_app. split; [assumption|]. constructor; [assumption|constructor].
      * apply ordered_snoc; [assumption|].
        eapply Forall_impl; [|exact He]. simpl. intros t0 [H0 _].
        rewrite Hpos. simpl. lia.
      * apply Forall_app. split.
        -- eapply Forall_impl; [|exact He]. simpl. intros t0 [H0 H1]. split; [lia|assumption].
        -- constructor; [|constructor]. rewrite Hpos. simpl. split; [lia|assumption].
    + intros Hr. rewrite <- Hi. apply (IH _ _ _ Hl') in Hr; [exact Hr|].
      unfold pushed. rewrite Hi. split; [assumption|]. split; [assumption|].
      eapply Forall_impl; [|exact He]. simpl. intros t0 [H0 H1]. split; [lia|assumption].
  - intros Hr. inversion Hr; subst result; clear Hr.
    destruct Hl as [Hle Hlc].
    assert (Hlen : position s = length (input s)).
    { unfold inBounds in Hb. apply Nat.ltb_ge in Hb. lia. }
    split; [|split].
    + apply Forall_app. split; [assumption|]. constructor; [|constructor].
      split; [|split].
      * unfold placed. fields. repeat split; auto. intros H. contradiction H. reflexivity.
      * unfold spelled. fields. apply sourceText_nil.
      * reflexivity.
    + apply ordered_snoc; [assumption|].
      eapply Forall_impl; [|exact He]. simpl. intros t0 [H0 _]. exact H0.
    + exists tokens, (createToken EOF EmptyString None s).
      split; [reflexivity|]. split; [reflexivity|]. split; [|exact Hlen].
      eapply Forall_impl; [|exact He]. simpl. tauto.
Qed.

Lemma tokenize_scanned source tokens :
  tokenize source = Some tokens ->
  Forall (wellScanned (list_ascii_of_string source)) tokens /\ ordered tokens /\
  exists body eof,
    tokens = body ++ [eof] /\ Token.type eof = EOF /\
    Forall (fun tok => Token.type tok <> EOF) body /\
    Position.start (Token.position eof) = String.length source.
Proof.
  unfold tokenize. intros H.
  apply tokenize_loop_scanned in H.
  - simpl in H. destruct H as (Hw & Ho & body & eof & E1 & E2 & E3 & E4).
    split; [assumption|]. split; [assumption|].
    exists body, eof. repeat split; auto.
    rewrite E4. clear. induction source; simpl; auto.
  - split; simpl; [lia|reflexivity].
  - split; [constructor|]. split; [|constructor].
    intros i j ti tj _ Hi. destruct i; discriminate.
Qed.

(** ** Lines and columns, counted *)

Lemma cursorAfter_snoc chars c :
  cursorAfter (chars ++ [c])
  = if Ascii.eqb c "010" then (S (fst (cursorAfter chars)), 1)
    else (fst (cursorAfter chars), S (snd (cursorAfter chars))).
Proof. unfold cursorAfter. rewrite fold_left_app. reflexivity. Qed.

Lemma cursorAfter_counts chars :
  cursorAfter chars = (S (newlinesIn chars), S (untilNewline (rev chars))).
Proof.
  induction chars as [|c chars IH] using rev_ind; [reflexivity|].
  rewrite cursorAfter_snoc, IH, rev_app_distr. unfold newlinesIn.
  rewrite filter_app, length_app. simpl.
  destruct (Ascii.eqb c "010"); simpl; f_equal; lia.
Qed.

Lemma length_chars source :
  length (list_ascii_of_string source) = String.length source.
Proof. induction source; simpl; auto. Qed.

Lemma tokenize_last source body eof :
  tokenize source = Some (body ++ [eof]) ->
  eof = eofAt (list_ascii_of_string source) /\
  Forall (fun tok => Token.type tok <> EOF) body.
Proof.
  intros H. destruct (tokenize_scanned _ _ H) as (Hall & _ & body' & eof' & E & Hty & Hb & Hs).
  apply app_inj_tail in E as [-> ->]. split; [|exact Hb].
  apply Forall_app in Hall as [_ Hall]. apply Forall_cons_iff in Hall as [(Hp & _ & Hk) _].
  destruct Hp as (H1 & H2 & _ & H4).
  unfold kindText in Hk. rewrite Hty in Hk.
  rewrite <- (length_chars source) in Hs.
  destruct eof' as [type value [st en ln col]]. simpl in *. subst type value st.
  assert (en = length (list_ascii_of_string source)) by lia. subst en.
  rewrite firstn_all in H4. unfold eofAt. rewrite <- H4. reflexivity.
Qed.

End ScanFacts.

(** * Runs of the scanner: what one reading makes of a given text *)

Module ScanRuns.
Import Tokenizer TokenizerFacts ScanFacts.
#[local] Open Scope list_scope.

Lemma unread_cons s c rest :
  unread s = c :: rest ->
  current s = String c EmptyString /\ inBounds s = true /\
  unread (advance s) = rest /\ position (advance s) = S (position s).
Proof.
  unfold unread. intros H.
  assert (E : nth_error (input s) (position s) = Some c).
  { rewrite <- hd_error_skipn, H. reflexivity. }
  pose proof (current_nth _ _ E) as Hc.
  split; [exact Hc|]. split; [eapply current_inBounds; exact Hc|].
  rewrite advance_input, advance_position. split; [|reflexivity].
  rewrite (skipn_nth_cons _ _ _ E) in H. inversion H. reflexivity.
Qed.

Lemma unread_nil s :
  unread s = [] -> inBounds s = false /\ current s = EmptyString.
Proof.
  unfold unread, inBounds, current. intros H.
  assert (L : length (input s) <= position s).
  { pose proof (length_skipn (position s) (input s)) as E. rewrite H in E.
    simpl in E. lia. }
  split; [apply Nat.ltb_ge; exact L|].
  apply nth_error_None in L. rewrite L. reflexivity.
Qed.

Lemma left_unread s : left s = length (unread s).
Proof. unfold left, unread. rewrite length_skipn. reflexivity. Qed.

Lemma char_eqb c d :
  (String c EmptyString =? String d EmptyString)%string = Ascii.eqb c d.
Proof. simpl. destruct (Ascii.eqb c d); reflexivity. Qed.

Lemma isWordChar_char c : isWordChar (String c EmptyString) = wordClass c.
Proof. unfold isWordChar, test. simpl. apply orb_false_r. Qed.

(** ** The loops *)

Lemma collect_loop_run cond : forall w n value s rest,
    unread s = w ++ rest ->
    Forall (fun c => cond (String c EmptyString) = true) w ->
    (forall c, hd_error rest = Some c -> cond (String c EmptyString) = false) ->
    length w <= n ->
    exists s',
      collect_loop cond n value s = ((value ++ string_of_list_ascii w)%string, s') /\
      position s' = position s + length w /\ unread s' = rest.
Proof.
  induction w as [|c w IH]; intros n value s rest Hu Hw Hr Hn.
  - exists s. simpl in Hu. rewrite Nat.add_0_r. simpl string_of_list_ascii.
    rewrite append_empty. split; [|auto]. destruct n as [|n]; [reflexivity|]. simpl.
    destruct rest as [|c rest].
    + destruct (unread_nil _ Hu) as [-> _]. reflexivity.
    + destruct (unread_cons _ _ _ Hu) as (-> & _ & _).
      rewrite (Hr c eq_refl), andb_false_r. reflexivity.
  - destruct n as [|n]; [simpl in Hn; lia|].
    simpl in Hu. destruct (unread_cons _ _ _ Hu) as (Hc & Hb & Hu' & Hp').
    apply Forall_cons_iff in Hw as [Hw1 Hw2].
    simpl collect_loop. rewrite Hb, Hc, Hw1. simpl andb. cbv iota.
    destruct (IH n (value ++ String c EmptyString)%string (advance s) rest Hu' Hw2 Hr)
      as (s' & E & Hp & Hu'').
    { simpl in Hn. lia. }
    exists s'. rewrite E, append_assoc. simpl.
    split; [reflexivity|]. split; [lia|assumption].
Qed.

Lemma collect_run cond w s rest :
  unread s = w ++ rest ->
  Forall (fun c => cond (String c EmptyString) = true) w ->
  (forall c, hd_error rest = Some c -> cond (String c EmptyString) = false) ->
  exists s',
    collect cond EmptyString s = (string_of_list_ascii w, s') /\
    position s' = position s + length w /\ unread s' = rest.
Proof.
  intros Hu Hw Hr. unfold collect.
  destruct (collect_loop_run cond w (left s) EmptyString s rest Hu Hw Hr)
    as (s' & E & H); [|eauto].
  rewrite left_unread, Hu, length_app. lia.
Qed.

Lemma readQuotedString_loop_run quote : forall n body value s rest,
    quote <> "\"%char ->
    unread s = body ++ rest -> quotable quote body ->
    (forall c, hd_error rest = Some c -> c = quote) ->
    length body <= n ->
    exists s',
      readQuotedString_loop (String quote EmptyString) n value s
      = ((value ++ string_of_list_ascii (unescape body))%string, s') /\
      position s' = position s + length body /\ unread s' = rest.
Proof.
  induction n as [|n IH]; intros body value s rest Hq Hu Hb Hr Hn.
  - destruct body; [|simpl in Hn; lia]. exists s. simpl.
    rewrite append_empty, Nat.add_0_r. auto.
  - destruct body as [|c body].
    + exists s. simpl in Hu. simpl string_of_list_ascii.
      rewrite append_empty, Nat.add_0_r. split; [|auto]. simpl.
      destruct rest as [|c rest].
      * destruct (unread_nil _ Hu) as [-> _]. reflexivity.
      * destruct (unread_cons _ _ _ Hu) as (-> & _ & _).
        rewrite (Hr c eq_refl), String.eqb_refl, andb_false_r. reflexivity.
    + simpl in Hu. destruct (unread_cons _ _ _ Hu) as (Hc & Hi & Hu1 & Hp1).
      simpl readQuotedString_loop. rewrite Hi, Hc, !char_eqb.
      simpl in Hb. simpl unescape.
      destruct (Ascii.eqb_spec c "\"%char) as [->|Hne].
      * destruct body as [|e body]; [contradiction|].
        replace (Ascii.eqb "\" quote) with false
          by (symmetry; apply Ascii.eqb_neq; congruence).
        simpl andb. cbv iota.
        simpl in Hu1. destruct (unread_cons _ _ _ Hu1) as (Hc2 & Hi2 & Hu2 & Hp2).
        rewrite Hi2, Hc2.
        destruct (IH body (value ++ String e EmptyString)%string (advance (advance s))
                     rest Hq Hu2 Hb Hr) as (s' & E & Hp & Hu').
        { simpl in Hn. lia. }
        exists s'. rewrite E, append_assoc. simpl.
        split; [reflexivity|]. split; [lia|assumption].
      * destruct Hb as [Hcq Hb].
        replace (Ascii.eqb c quote) with false
          by (symmetry; apply Ascii.eqb_neq; assumption).
        simpl andb. cbv iota.
        destruct (IH body (value ++ String c EmptyString)%string (advance s)
                     rest Hq Hu1 Hb Hr) as (s' & E & Hp & Hu').
        { simpl in Hn. lia. }
        exists s'. rewrite E, append_assoc. simpl.
        split; [reflexivity|]. split; [lia|assumption].
Qed.

(** ** The dispatch of [nextToken] *)

Lemma skipWhitespace_stays s c rest :
  unread s = c :: rest -> blankClass c = false -> skipWhitespace s = s.
Proof.
  intros Hu Hb. destruct (unread_cons _ _ _ Hu) as (Hc & Hi & _).
  unfold skipWhitespace. rewrite left_unread, Hu. simpl.
  rewrite Hc. unfold test. simpl. rewrite Hb, andb_false_r. reflexivity.
Qed.

Lemma nextToken_comment s rest :
  unread s = "#"%char :: rest -> nextToken s = some (readComment s).
Proof.
  intros Hu. destruct (unread_cons _ _ _ Hu) as (Hc & Hi & _).
  unfold nextToken. rewrite (skipWhitespace_stays _ _ _ Hu eq_refl), Hi, Hc.
  reflexivity.
Qed.

Lemma nextToken_variable s rest :
  unread s = "$"%char :: rest -> nextToken s = some (readVariable s).
Proof.
  intros Hu. destruct (unread_cons _ _ _ Hu) as (Hc & Hi & _).
  unfold nextToken. rewrite (skipWhitespace_stays _ _ _ Hu eq_refl), Hi, Hc.
  reflexivity.
Qed.

Lemma nextToken_quoted s quote rest :
  quote = "034"%char \/ quote = "'"%char ->
  unread s = quote :: rest ->
  nextToken s = some (readQuotedString (String quote EmptyString) s).
Proof.
  intros Hq Hu. destruct (unread_cons _ _ _ Hu) as (Hc & Hi & _).
  unfold nextToken.
  rewrite (skipWhitespace_stays _ _ _ Hu) by (destruct Hq; subst; reflexivity).
  rewrite Hi, Hc. destruct Hq; subst; reflexivity.
Qed.

Lemma nextToken_word s c rest :
  unread s = c :: rest -> ~ In c special -> blankClass c = false ->
  nextToken s = some (readWord s).
Proof.
  intros Hu Hs Hb. destruct (unread_cons _ _ _ Hu) as (Hc & Hi & _).
  unfold nextToken. rewrite (skipWhitespace_stays _ _ _ Hu Hb), Hi, Hc.
  unfold NL, DQUOTE. rewrite !char_eqb.
  repeat match goal with
         | |- context [Ascii.eqb c ?d] =>
             replace (Ascii.eqb c d) with false
               by (symmetry; apply Ascii.eqb_neq; intros ->; apply Hs; simpl; tauto)
         end.
  reflexivity.
Qed.

Lemma wordClass_plain c :
  wordClass c = true -> ~ In c special /\ blankClass c = false.
Proof.
  intros H. split.
  - intros Hin. simpl in Hin.
    repeat (destruct Hin as [<-|Hin]; [vm_compute in H; discriminate|]).
    contradiction.
  - unfold blankClass. apply orb_false_intro; apply Ascii.eqb_neq; intros ->;
      vm_compute in H; discriminate.
Qed.

(** ** The readers *)

Ltac token_eq :=
  unfold createToken, getPosition, spanFrom;
  cbn [Position.start Position.end_ Position.line Position.column append];
  f_equal; f_equal; lia.

Lemma readQuotedString_run s quote body rest (closed : bool) :
  quote <> "\"%char ->
  unread s = quote :: body ++ (if closed then quote :: rest else []) ->
  quotable quote body ->
  exists s',
    readQuotedString (String quote EmptyString) s
    = (Token.mk QUOTED_STRING (string_of_list_ascii (unescape body))
                (spanFrom s (S (length body) + if closed then 1 else 0)), s') /\
    unread s' = if closed then rest else [].
Proof.
  intros Hq Hu Hb. destruct (unread_cons _ _ _ Hu) as (Hc & Hi & Hu1 & Hp1).
  unfold readQuotedString.
  destruct (readQuotedString_loop_run quote (left (advance s)) body EmptyString
              (advance s) _ Hq Hu1 Hb) as (s2 & E & Hp2 & Hu2).
  { destruct closed; simpl; intros c H; inversion H; reflexivity. }
  { rewrite left_unread, Hu1, length_app. lia. }
  rewrite E. cbv beta iota zeta. destruct closed.
  - destruct (unread_cons _ _ _ Hu2) as (Hc2 & _ & Hu3 & Hp3).
    rewrite Hc2, String.eqb_refl. exists (advance s2). split; [|exact Hu3].
    f_equal. token_eq.
  - destruct (unread_nil _ Hu2) as (_ & Hc2). rewrite Hc2. simpl String.eqb. cbv iota.
    exists s2. split; [|exact Hu2]. f_equal. token_eq.
Qed.

Lemma readComment_run s text rest :
  unread s = "#"%char :: text ++ rest ->
  Forall (fun c => c <> "010"%char) text ->
  (forall c, hd_error rest = Some c -> c = "010"%char) ->
  exists s',
    readComment s
    = (Token.mk COMMENT (string_of_list_ascii text) (spanFrom s (S (length text))), s') /\
    unread s' = rest.
Proof.
  intros Hu Ht Hr. destruct (unread_cons _ _ _ Hu) as (Hc & Hi & Hu1 & Hp1).
  unfold readComment.
  destruct (collect_run (fun c => negb (c =? NL)%string) text (advance s) rest Hu1)
    as (s2 & E & Hp2 & Hu2).
  { eapply Forall_impl; [|exact Ht]. intros c Hne. unfold NL. rewrite char_eqb.
    apply negb_true_iff, Ascii.eqb_neq. exact Hne. }
  { intros c H. rewrite (Hr c H). reflexivity. }
  rewrite E. exists s2. split; [|exact Hu2]. f_equal. token_eq.
Qed.

Lemma readVariable_name_run s name rest :
  unread s = "$"%char :: name ++ rest ->
  Forall (fun c => wordClass c = true) name ->
  (forall c, hd_error rest = Some c -> wordClass c = false) ->
  hd_error (name ++ rest) <> Some "{"%char ->
  exists s',
    readVariable s
    = (Token.mk VARIABLE (string_of_list_ascii name) (spanFrom s (S (length name))), s') /\
    unread s' = rest.
Proof.
  intros Hu Hn Hr Hb. destruct (unread_cons _ _ _ Hu) as (Hc & Hi & Hu1 & Hp1).
  unfold readVariable.
  assert (Hcur : (current (advance s) =? "{")%string = false).
  { destruct (name ++ rest) as [|c l] eqn:E.
    - destruct (unread_nil _ Hu1) as (_ & ->). reflexivity.
    - destruct (unread_cons _ _ _ Hu1) as (-> & _). rewrite char_eqb.
      apply Ascii.eqb_neq. intros ->. apply Hb. reflexivity. }
  rewrite Hcur.
  destruct (collect_run isWordChar name (advance s) rest Hu1) as (s2 & E & Hp2 & Hu2).
  { eapply Forall_impl; [|exact Hn]. intros c H. rewrite isWordChar_char. exact H. }
  { intros c H. rewrite isWordChar_char. apply Hr. exact H. }
  rewrite E. exists s2. split; [|exact Hu2]. f_equal. token_eq.
Qed.

Lemma readVariable_braces_run s name rest (closed : bool) :
  unread s = "$"%char :: "{"%char :: name ++ (if closed then "}"%char :: rest else []) ->
  Forall (fun c => c <> "}"%char) name ->
  exists s',
    readVariable s
    = (Token.mk VARIABLE (string_of_list_ascii name)
                (spanFrom s (2 + length name + if closed then 1 else 0)), s') /\
    unread s' = if closed then rest else [].
Proof.
  intros Hu Hn. destruct (unread_cons _ _ _ Hu) as (Hc & Hi & Hu1 & Hp1).
  destruct (unread_cons _ _ _ Hu1) as (Hc1 & Hi1 & Hu2 & Hp2).
  unfold readVariable. rewrite Hc1. cbv beta iota zeta. simpl String.eqb. cbv iota.
  destruct (collect_run (fun c => negb (c =? "}")%string) name (advance (advance s)) _ Hu2)
    as (s3 & E & Hp3 & Hu3).
  { eapply Forall_impl; [|exact Hn]. intros c Hne. rewrite char_eqb.
    apply negb_true_iff, Ascii.eqb_neq. exact Hne. }
  { destruct closed; simpl; intros c H; inversion H; reflexivity. }
  rewrite E. destruct closed.
  - destruct (unread_cons _ _ _ Hu3) as (Hc3 & _ & Hu4 & Hp4).
    rewrite Hc3. simpl String.eqb. cbv iota.
    exists (advance s3). split; [|exact Hu4]. f_equal. token_eq.
  - destruct (unread_nil _ Hu3) as (_ & Hc3). rewrite Hc3. simpl String.eqb. cbv iota.
    exists s3. split; [|exact Hu3]. f_equal. token_eq.
Qed.

Lemma readWord_run s word rest :
  unread s = word ++ rest -> word <> [] ->
  Forall (fun c => wordClass c = true) word ->
  (forall c, hd_error rest = Some c -> wordClass c = false) ->
  exists s',
    readWord s
    = (Token.mk (wordKind (string_of_list_ascii word)) (string_of_list_ascii word)
                (spanFrom s (length word)), s') /\
    unread s' = rest.
Proof.
  intros Hu Hne Hw Hr. destruct word as [|c word]; [contradiction|].
  simpl in Hu. destruct (unread_cons _ _ _ Hu) as (Hc & Hi & _).
  unfold readWord. rewrite Hc, isWordChar_char.
  pose proof Hw as Hw'. apply Forall_cons_iff in Hw' as [Hw1 _]. rewrite Hw1.
  cbv beta iota zeta. simpl negb. cbv iota.
  destruct (collect_run isWordChar (c :: word) s rest Hu) as (s1 & E & Hp1 & Hu1).
  { eapply Forall_impl; [|exact Hw]. intros d H. rewrite isWordChar_char. exact H. }
  { intros d H. rewrite isWordChar_char. apply Hr. exact H. }
  rewrite E. exists s1. split; [|exact Hu1]. unfold wordKind. f_equal. token_eq.
Qed.

Lemma readWord_other s c rest :
  unread s = c :: rest -> wordClass c = false ->
  readWord s = (Token.mk WORD (String c EmptyString) (spanFrom s 1), advance s) /\
  unread (advance s) = rest.
Proof.
  intros Hu Hw. destruct (unread_cons _ _ _ Hu) as (Hc & Hi & Hu1 & Hp1).
  unfold readWord. rewrite Hc, isWordChar_char, Hw. simpl negb. cbv iota zeta.
  split; [|exact Hu1]. f_equal. token_eq.
Qed.

(** ** Blanks and operators *)

Lemma skipWhitespace_loop_run : forall blanks n s rest,
    unread s = blanks ++ rest ->
    Forall (fun c => blankClass c = true) blanks ->
    (forall c, hd_error rest = Some c -> blankClass c = false) ->
    length blanks <= n ->
    unread (skipWhitespace_loop n s) = rest /\
    position (skipWhitespace_loop n s) = position s + length blanks /\
    line (skipWhitespace_loop n s) = line s /\
    column (skipWhitespace_loop n s) = column s + length blanks.
Proof.
  induction blanks as [|c blanks IH]; intros n s rest Hu Hb Hr Hn.
  - simpl in Hu. rewrite !Nat.add_0_r.
    assert (E : skipWhitespace_loop n s = s); [|rewrite E; auto].
    destruct n as [|n]; [reflexivity|]. simpl.
    destruct rest as [|c rest].
    + destruct (unread_nil _ Hu) as [-> _]. reflexivity.
    + destruct (unread_cons _ _ _ Hu) as (-> & _ & _).
      unfold test. simpl. rewrite (Hr c eq_refl), andb_false_r. reflexivity.
  - destruct n as [|n]; [simpl in Hn; lia|].
    simpl in Hu. destruct (unread_cons _ _ _ Hu) as (Hc & Hi & Hu' & Hp').
    apply Forall_cons_iff in Hb as [Hb1 Hb2].
    assert (E : skipWhitespace_loop (S n) s = skipWhitespace_loop n (advance s)).
    { simpl. rewrite Hi, Hc. unfold test. simpl. rewrite Hb1. reflexivity. }
    rewrite E.
    destruct (IH n (advance s) rest Hu' Hb2 Hr) as (H1 & H2 & H3 & H4).
    { simpl in Hn. lia. }
    rewrite H1, H2, H3, H4, Hp'.
    assert (Hnl : (String c EmptyString =? NL)%string = false).
    { unfold NL. rewrite char_eqb. apply Ascii.eqb_neq. intros ->. discriminate Hb1. }
    unfold advance. rewrite Hc, Hnl. simpl. repeat split; lia.
Qed.

Lemma skipWhitespace_run blanks s rest :
  unread s = blanks ++ rest ->
  Forall (fun c => blankClass c = true) blanks ->
  (forall c, hd_error rest = Some c -> blankClass c = false) ->
  unread (skipWhitespace s) = rest /\
  position (skipWhitespace s) = position s + length blanks /\
  line (skipWhitespace s) = line s /\
  column (skipWhitespace s) = column s + length blanks.
Proof.
  intros Hu Hb Hr. unfold skipWhitespace.
  apply skipWhitespace_loop_run; auto.
  rewrite left_unread, Hu, length_app. lia.
Qed.

Lemma skipWhitespace_done s rest :
  unread s = rest -> (forall c, hd_error rest = Some c -> blankClass c = false) ->
  skipWhitespace s = s.
Proof.
  intros Hu Hr. destruct rest as [|c rest].
  - unfold skipWhitespace. rewrite left_unread, Hu. reflexivity.
  - apply (skipWhitespace_stays s c rest Hu). apply Hr. reflexivity.
Qed.

Lemma nextToken_operator s c two one rest :
  In (c, two, one) operators -> unread s = c :: rest ->
  nextToken s = some (operator (String c EmptyString) two one (getPosition s) s).
Proof.
  intros Hin Hu. destruct (unread_cons _ _ _ Hu) as (Hc & Hi & _).
  unfold nextToken.
  simpl in Hin. destruct Hin as [E|[E|[E|[]]]]; inversion E; subst;
    rewrite (skipWhitespace_stays _ _ _ Hu eq_refl), Hi, Hc; reflexivity.
Qed.

End ScanRuns.

(** * The errors of the builder *)

Module ErrorFacts.
Import BashParser BuilderFacts.
#[local] Open Scope list_scope.
#[local] Open Scope builder_scope.

Section Errors.

Variable tokens : list Token.t.

Hypothesis last : eofLast tokens.

#[local] Abbreviation size := (length tokens).

Lemma raises_bind {A B} (m : M A) (k : A -> M B) p :
  raises tokens (m p) -> (forall a p', p' < size -> raises tokens (k a p')) ->
  raises tokens (bind m k p).
Proof. unfold bind. destruct (m p) as [a p'|[e|] p'|]; simpl; auto. Qed.

Lemma advance_raises p : p < size -> raises tokens (advance tokens p).
Proof.
  intros Hp. unfold advance. simpl. destruct (isAtEnd tokens p) eqn:E; [exact Hp|].
  unfold isAtEnd in E. apply orb_false_elim in E as [_ E].
  destruct (nth_error tokens p) as [tok|] eqn:En; [|apply nth_error_None in En; lia].
  apply (last p tok En). rewrite (check_token _ _ _ _ En) in E.
  apply TokenType_beq_neq. exact E.
Qed.

Lemma parseError_raises {A} message p :
  p < size -> In message expectations ->
  raises tokens (@parseError tokens A message p).
Proof.
  intros Hp Hin. unfold parseError, currentPosition, currentToken. simpl.
  split; [exact Hin|].
  destruct (nth_error tokens p) as [tok|] eqn:En; [|apply nth_error_None in En; lia].
  exists tok. auto.
Qed.

Lemma consume_raises type message p :
  p < size -> In message expectations ->
  raises tokens (consume tokens type message p).
Proof.
  intros Hp Hin. unfold consume. destruct (check tokens type p).
  - apply advance_raises. exact Hp.
  - apply parseError_raises; assumption.
Qed.

Lemma consume_checked type message p :
  p < size -> check tokens type p = true ->
  raises tokens (consume tokens type message p).
Proof. intros Hp Hc. unfold consume. rewrite Hc. apply advance_raises. exact Hp. Qed.

Lemma field_raises {A} (f : Token.t -> A) token p :
  p < size -> raises tokens (field f token p).
Proof. intros Hp. destruct token; simpl; auto. Qed.

Ltac expected := simpl; tauto.

Ltac step :=
  first
    [ apply raises_bind;
      [ first [ apply advance_raises; assumption
              | apply field_raises; assumption
              | apply consume_raises; [assumption | expected] ]
      | intros ? ? ? ]
    | apply field_raises; assumption ].

Lemma parseExpression_raises p :
  p < size -> raises tokens (parseExpression tokens p).
Proof.
  intros Hp. unfold parseExpression.
  destruct (check tokens WORD p || check tokens QUOTED_STRING p).
  - repeat step. simpl. assumption.
  - destruct (check tokens VARIABLE p).
    + repeat step. simpl. assumption.
    + apply parseError_raises; [assumption | expected].
Qed.

Lemma parseCommand_args_raises fuel : forall args p,
    p < size -> raises tokens (parseCommand_args tokens fuel args p).
Proof.
  induction fuel as [|fuel IH]; intros args p Hp; simpl; [exact I|].
  destruct (check tokens WORD p || check tokens QUOTED_STRING p); [|exact Hp].
  repeat step. apply IH. assumption.
Qed.

Lemma parseCommand_raises fuel p :
  p < size -> raises tokens (parseCommand tokens fuel p).
Proof.
  intros Hp. unfold parseCommand. destruct (check tokens WORD p); simpl negb; cbv iota.
  - repeat step. apply raises_bind; [apply parseCommand_args_raises; assumption|].
    intros args p1 Hp1. simpl. assumption.
  - apply parseError_raises; [assumption | expected].
Qed.

Lemma parsePipeline_rest_raises fuel : forall commands p,
    p < size -> raises tokens (parsePipeline_rest tokens fuel commands p).
Proof.
  induction fuel as [|fuel IH]; intros commands p Hp; simpl; [exact I|].
  destruct (check tokens PIPE p); [|exact Hp].
  step. apply raises_bind; [apply parseCommand_raises; assumption|].
  intros c p2 Hp2. apply IH. assumption.
Qed.

Lemma parsePipeline_raises fuel p :
  p < size -> raises tokens (parsePipeline tokens fuel p).
Proof.
  intros Hp. unfold parsePipeline.
  apply raises_bind; [apply parseCommand_raises; assumption|]. intros c p1 Hp1.
  apply raises_bind; [apply parsePipeline_rest_raises; assumption|]. intros cs p2 Hp2.
  destruct cs as [|c1 [|c2 cs]]; simpl; assumption.
Qed.

Lemma parseVariableAssignment_raises p :
  p < size -> raises tokens (parseVariableAssignment tokens p).
Proof.
  intros Hp. unfold parseVariableAssignment. repeat step.
  apply raises_bind; [apply parseExpression_raises; assumption|].
  intros e p3 Hp3. simpl. assumption.
Qed.

Section Nested.

Variable parseStatement : M (option Statement).

Hypothesis parseStatement_raises : forall p, p < size -> raises tokens (parseStatement p).

Lemma parseBody_raises continues fuel : forall body p,
    p < size -> raises tokens (parseBody tokens parseStatement continues fuel body p).
Proof.
  induction fuel as [|fuel IH]; intros body p Hp; simpl; [exact I|].
  destruct (continues p); [|exact Hp].
  destruct (check tokens NEWLINE p).
  - step. apply IH. assumption.
  - apply raises_bind; [apply parseStatement_raises; assumption|].
    intros [stmt|] p1 Hp1; [apply IH; assumption|].
    step. apply IH. assumption.
Qed.

Lemma parseConditional_raises fuel p :
  p < size -> check tokens IF p = true ->
  raises tokens (parseConditional tokens parseStatement fuel p).
Proof.
  intros Hp Hc. unfold parseConditional.
  apply raises_bind; [apply consume_checked; assumption|]. intros _ p1 Hp1.
  apply raises_bind; [apply parseExpression_raises; assumption|]. intros e p2 Hp2.
  step.
  apply raises_bind; [apply parseBody_raises; assumption|]. intros then_ p4 Hp4.
  apply raises_bind.
  { destruct (check tokens ELSE p4); [|exact Hp4].
    step. apply raises_bind; [apply parseBody_raises; assumption|].
    intros body p6 Hp6. simpl. assumption. }
  intros else_ p7 Hp7. step. simpl. assumption.
Qed.

Lemma parseLoop_raises fuel p :
  p < size -> raises tokens (parseLoop tokens parseStatement fuel p).
Proof.
  intros Hp. unfold parseLoop. repeat step.
  apply raises_bind.
  { destruct (_ =? "for")%string.
    - repeat step.
      apply raises_bind; [apply parseExpression_raises; assumption|].
      intros e p5 Hp5. simpl. assumption.
    - apply raises_bind; [apply parseExpression_raises; assumption|].
      intros e p5 Hp5. simpl. assumption. }
  intros [[condition variable] iterable] p6 Hp6. step.
  apply raises_bind; [apply parseBody_raises; assumption|]. intros body p8 Hp8.
  step. simpl. assumption.
Qed.

Lemma parseFunction_raises fuel p :
  p < size -> check tokens FUNCTION p = true ->
  raises tokens (parseFunction tokens parseStatement fuel p).
Proof.
  intros Hp Hc. unfold parseFunction.
  apply raises_bind; [apply consume_checked; assumption|]. intros _ p1 Hp1.
  repeat step.
  apply raises_bind; [apply parseBody_raises; assumption|]. intros body p8 Hp8.
  step. simpl. assumption.
Qed.

End Nested.

Lemma some_raises {A} (m : M A) p :
  raises tokens (m p) -> raises tokens (some m p).
Proof.
  intros H. unfold some. apply raises_bind; [exact H|]. intros a p' Hp'. exact Hp'.
Qed.

Lemma parseStatement_raises fuel : forall p,
    p < size -> raises tokens (parseStatement tokens fuel p).
Proof.
  induction fuel as [|fuel IH]; intros p Hp; simpl; [exact I|].
  destruct (check tokens COMMENT p).
  { step. simpl. assumption. }
  destruct (check tokens EOF p); [exact Hp|].
  destruct (check tokens IF p) eqn:Ei.
  { apply some_raises, parseConditional_raises; assumption. }
  destruct (check tokens FOR p || check tokens WHILE p).
  { apply some_raises, parseLoop_raises; assumption. }
  destruct (check tokens FUNCTION p) eqn:Ef.
  { apply some_raises, parseFunction_raises; assumption. }
  destruct (isVariableAssignment tokens p).
  { apply some_raises, parseVariableAssignment_raises; assumption. }
  destruct (check tokens WORD p); [|exact Hp].
  apply some_raises, parsePipeline_raises; assumption.
Qed.

Lemma parseStatements_loop_raises fuel n : forall statements p,
    p < size -> raises tokens (parseStatements_loop tokens fuel n statements p).
Proof.
  induction n as [|n IH]; intros statements p Hp; simpl; [exact I|].
  destruct (negb (isAtEnd tokens p) && negb (check tokens EOF p)); [|exact Hp].
  destruct (check tokens NEWLINE p).
  - step. apply IH. assumption.
  - apply raises_bind; [apply parseStatement_raises; assumption|]. intros stmt p1 Hp1.
    apply raises_bind.
    { destruct stmt; [exact Hp1|]. step. simpl. assumption. }
    intros statements' p2 Hp2.
    apply raises_bind.
    { destruct (check tokens SEMICOLON p2 || check tokens NEWLINE p2); [|exact Hp2].
      apply advance_raises. assumption. }
    intros _ p3 Hp3. apply IH. assumption.
Qed.

Lemma parseTokens_raises error :
  tokens <> [] -> parseTokens tokens = Raised error ->
  In (ParseError.message error) expectations /\
  exists tok, In tok tokens /\ ParseError.position error = Some (Token.position tok).
Proof.
  intros Hne H. pose proof (parseTokens_built tokens) as Hb. rewrite H in Hb.
  destruct Hb as (p & Hb).
  assert (H0 : 0 < size) by (destruct tokens; [congruence | simpl; lia]).
  pose proof (parseStatements_loop_raises (S size) (S size) [] 0 H0) as Hr.
  unfold parseStatements in Hb. rewrite Hb in Hr.
  destruct Hr as (Hin & tok & Hn & Hp). split; [exact Hin|].
  exists tok. split; [eapply nth_error_In; exact Hn | exact Hp].
Qed.

End Errors.

Lemma parse_raises source error :
  parse source = Raised error ->
  exists tokens tok,
    Tokenizer.tokenize source = Some tokens /\ In tok tokens /\
    In (ParseError.message error) expectations /\
    ParseError.position error = Some (Token.position tok).
Proof.
  unfold parse. destruct (TokenizerFacts.tokenize_total source) as (tokens & E & Ht).
  rewrite E. intros H.
  destruct (parseTokens_raises tokens (tokenized_eofLast _ Ht) error) as (Hin & tok & Hi & Hp);
    auto.
  - destruct Ht as (body & eof & -> & _). destruct body; discriminate.
  - exists tokens, tok. auto.
Qed.

End ErrorFacts.

(** * The nodes of the tree *)

Module TreeFacts.
Import BashParser BuilderFacts.
#[local] Open Scope list_scope.

Section Tree.

Variable tokens : list Token.t.

Lemma BuiltPipeline_commands first next commands :
  BuiltPipeline tokens first next commands ->
  forall c, In c commands -> exists a b, BuiltCommand tokens a b c.
Proof.
  induction 1 as [first next c0 Hc | first bar next cs c0 Hp IH Hb Hc]; intros c Hin.
  - destruct Hin as [<-|[]]. eauto.
  - apply in_app_or in Hin as [Hin|[<-|[]]]; eauto.
Qed.

(** Every statement node of a derived statement was itself derived. *)
Lemma Built_each :
  (forall first next s,
      Built tokens first next s ->
      forall node, In node (nodes s) -> exists a b, Built tokens a b node) /\
  (forall first next l,
      BuiltBody tokens first next l ->
      forall node, In node (flat_map nodes l) -> exists a b, Built tokens a b node).
Proof.
  apply Built_BuiltBody_ind; intros; simpl in *;
    try match goal with
        | H : _ = ?node \/ _ |- exists a b, Built _ a b ?node =>
            destruct H as [<-|H];
            [ do 2 eexists; solve [econstructor; eauto] |]
        end;
    try contradiction; eauto.
  - apply in_map_iff in H1 as (c & <- & Hin).
    destruct (BuiltPipeline_commands _ _ _ H c Hin) as (a & b & Hc).
    exists a, b. constructor. exact Hc.
  - rewrite app_nil_r in H5. eauto.
  - apply in_app_or in H8 as [Hin|Hin]; eauto.
  - rewrite flat_map_nodes_snoc in H3. apply in_app_or in H3 as [Hin|Hin]; eauto.
Qed.

End Tree.

Lemma parse_each source program node :
  parse source = Returned program -> In node (programNodes program) ->
  exists tokens a b,
    Tokenizer.tokenize source = Some tokens /\ Built tokens a b node.
Proof.
  intros H Hin. apply parse_built in H as (tokens & last & Ht & _ & _ & Hb).
  destruct (proj2 (Built_each tokens) _ _ _ Hb node Hin) as (a & b & Hn).
  exists tokens, a, b. auto.
Qed.

Lemma scanned_kindText source tokens i tok :
  Tokenizer.tokenize source = Some tokens -> nth_error tokens i = Some tok ->
  kindText tok.
Proof.
  intros H Hn. destruct (ScanFacts.tokenize_scanned _ _ H) as (Hall & _).
  rewrite Forall_forall in Hall. apply Hall. eapply nth_error_In. exact Hn.
Qed.

Lemma scanned_word source tokens i tok :
  Tokenizer.tokenize source = Some tokens -> nth_error tokens i = Some tok ->
  Token.type tok = WORD -> Tokenizer.getKeywordType (Token.value tok) = None.
Proof.
  intros H Hn Hty. pose proof (scanned_kindText _ _ _ _ H Hn) as Hk.
  unfold kindText in Hk. rewrite Hty in Hk. exact Hk.
Qed.

End TreeFacts.

(** * Runs of the builder: statements, one after the other *)

Module BuilderRuns.
Import BashParser BuilderFacts.
#[local] Open Scope list_scope.
#[local] Open Scope builder_scope.

Section Runs.

Variable tokens : list Token.t.

(** At a token that starts no statement [parseStatement] returns
    [null]; it has moved, by one token, over a comment only. *)
Lemma parseStatement_inert fuel p :
  (forall tok, nth_error tokens p = Some tok -> starts (Token.type tok) = false) ->
  exists p',
    parseStatement tokens (S fuel) p = Return None p' /\ p <= p' /\ p' <= S p /\
    (forall tok, nth_error tokens p = Some tok -> Token.type tok <> COMMENT -> p' = p).
Proof.
  intros H. simpl parseStatement. unfold isVariableAssignment.
  destruct (nth_error tokens p) as [tok|] eqn:En.
  - rewrite !(check_token _ _ _ _ En). specialize (H tok eq_refl).
    destruct (Token.type tok) eqn:Ety; try discriminate H; simpl;
      try (exists p; repeat split; auto; fail).
    unfold bind, advance, ret. eexists. split; [reflexivity|].
    destruct (isAtEnd tokens p); repeat split; try lia;
      intros t E; inversion E; subst; congruence.
  - unfold check, currentToken. rewrite En. simpl.
    exists p. repeat split; auto.
Qed.

Lemma parseStatements_loop_inert fuel n : forall p,
    Forall (fun tok => starts (Token.type tok) = false) tokens ->
    length tokens - p < n ->
    exists p', parseStatements_loop tokens (S fuel) n [] p = Return [] p'.
Proof.
  induction n as [|n IH]; intros p Hall Hn; [lia|].
  destruct (isAtEnd tokens p) eqn:Ea.
  { exists p. apply parseStatements_loop_end. exact Ea. }
  assert (Hp : p < length tokens) by (apply isAtEnd_false; exact Ea).
  destruct (nth_error tokens p) as [tok|] eqn:En; [|apply nth_error_None in En; lia].
  assert (Heof : check tokens EOF p = false).
  { unfold isAtEnd in Ea. apply orb_false_elim in Ea as [_ E]. exact E. }
  destruct (check tokens NEWLINE p) eqn:Enl.
  { rewrite (parseStatements_loop_newline tokens (S fuel) n [] p tok En);
      [apply IH; auto; lia|].
    rewrite (check_token _ _ _ _ En) in Enl. apply TokenType_beq_eq. exact Enl. }
  rewrite parseStatements_loop_step by assumption.
  destruct (parseStatement_inert fuel p) as (p1 & E1 & Hle & Hle' & _).
  { intros t Ht. rewrite Forall_forall in Hall. apply Hall. eapply nth_error_In; eauto. }
  unfold bind at 1. rewrite E1. unfold bind, advance, ret. cbv beta iota.
  assert (Hlt : p < (if isAtEnd tokens p1 then p1 else S p1)).
  { destruct (isAtEnd tokens p1) eqn:E; [|lia].
    destruct (Nat.eq_dec p1 p); [congruence|lia]. }
  destruct (check tokens SEMICOLON _ || check tokens NEWLINE _).
  - apply IH; auto. destruct (isAtEnd tokens (if isAtEnd tokens p1 then p1 else S p1)); lia.
  - apply IH; auto. lia.
Qed.

Lemma parseTokens_inert :
  Forall (fun tok => starts (Token.type tok) = false) tokens ->
  parseTokens tokens = Returned (Program.mk [] None).
Proof.
  intros H. unfold parseTokens, parseStatements.
  destruct (parseStatements_loop_inert (length tokens) (S (length tokens)) 0 H) as (p' & E);
    [lia|].
  rewrite E. reflexivity.
Qed.

Lemma separator_kind type :
  separator type = true ->
  starts type = false /\ type <> COMMENT /\ type <> EOF /\ type <> PIPE /\
  type <> WORD /\ type <> QUOTED_STRING /\
  (TokenType_beq type SEMICOLON || TokenType_beq type NEWLINE = false ->
   type <> NEWLINE).
Proof.
  destruct type; simpl; intros H; try discriminate H; repeat split;
    try discriminate; intros E; discriminate E.
Qed.

Lemma parsePipeline_run_at pre (s : Piped) rest fuel :
  tokens = pre ++ pipedTokens s ++ rest ->
  simpleCommand (fst s) -> Forall barred (snd s) -> ends rest ->
  length (pipedTokens s) <= fuel ->
  exists stmt,
    parsePipeline tokens fuel (length pre)
    = Return stmt (length pre + length (pipedTokens s)) /\
    pipedStatement s stmt.
Proof.
  destruct s as [first more]. unfold pipedTokens, pipedStatement. simpl fst. simpl snd.
  intros Ht Hfirst Hm He Hf. destruct first as [|name args]; [contradiction|].
  rewrite <- app_assoc in Ht. rewrite length_app in Hf. simpl in Hf.
  destruct (parseCommand_run tokens pre name args (flat_map piped more ++ rest) fuel
              Ht Hfirst) as (command & Hrun & Hof).
  { apply stops_piped; assumption. }
  { lia. }
  unfold parsePipeline. unfold bind at 1. rewrite Hrun.
  assert (Ht' : tokens = (pre ++ name :: args) ++ flat_map piped more ++ rest).
  { rewrite Ht, <- app_assoc. reflexivity. }
  destruct (parsePipeline_rest_run tokens more (pre ++ name :: args) rest [command] fuel
              Ht' Hm He) as (commands & Hrest & Hall).
  { lia. }
  replace (length pre + length (name :: args)) with (length (pre ++ name :: args))
    by (rewrite length_app; reflexivity).
  unfold bind at 1. rewrite Hrest.
  replace (length (pre ++ name :: args) + length (flat_map piped more))
    with (length pre + length ((name :: args) ++ flat_map piped more))
    by (rewrite !length_app; lia).
  simpl app. destruct commands as [|c commands].
  - exists (Cmd command). split; [reflexivity|]. exists command, []. auto.
  - exists (Pipeline (command :: c :: commands) None). split; [reflexivity|].
    exists command, (c :: commands). auto.
Qed.

Lemma pipedTokens_head (s : Piped) :
  simpleCommand (fst s) ->
  exists name l, pipedTokens s = name :: l /\ Token.type name = WORD.
Proof.
  destruct s as [[|name args] more]; simpl; [contradiction|].
  intros [Hn _]. exists name, (args ++ flat_map piped more). auto.
Qed.

(** A command or a pipeline where a statement starts. *)
Lemma parseStatement_piped pre (s : Piped) next rest fuel :
  tokens = pre ++ pipedTokens s ++ next :: rest ->
  isPiped s next -> Token.type next <> PIPE -> ~ isArgument next ->
  length (pipedTokens s) <= fuel ->
  exists stmt,
    parseStatement tokens (S fuel) (length pre)
    = Return (Some stmt) (length pre + length (pipedTokens s)) /\
    pipedStatement s stmt.
Proof.
  intros Ht (Hfirst & Hm & Hna) Hp Ha Hf.
  destruct (pipedTokens_head s Hfirst) as (name & l & El & Hn).
  assert (H0 : forall type, check tokens type (length pre) = TokenType_beq WORD type).
  { intros type. rewrite <- Hn. apply (check_head tokens pre name (l ++ next :: rest)).
    rewrite Ht, El. reflexivity. }
  assert (Hva : isVariableAssignment tokens (length pre) = false).
  { unfold isVariableAssignment. rewrite H0.
    change (TokenType_beq WORD WORD) with true. rewrite andb_true_l.
    destruct (length pre + 1 <? length tokens)%nat; [|reflexivity].
    destruct (nth_error tokens (length pre + 1)) as [tok|] eqn:E; [|reflexivity].
    apply String.eqb_neq. apply Hna.
    rewrite Ht, nth_error_app2 in E by lia.
    replace (length pre + 1 - length pre) with 1 in E by lia.
    rewrite El in *. simpl in E. simpl.
    destruct l as [|x l]; simpl in *; exact E. }
  rewrite parseStatement_word; [| rewrite H0; reflexivity | exact Hva].
  destruct (parsePipeline_run_at pre s (next :: rest) fuel Ht Hfirst Hm)
    as (stmt & Hrun & Hof); auto.
  { intros tok E. inversion E; subst. auto. }
  exists stmt. split; [|exact Hof]. unfold some, bind. rewrite Hrun. reflexivity.
Qed.

Lemma separated_length items :
  Forall (fun item : Piped * Token.t => simpleCommand (fst (fst item))) items ->
  2 * length items <= length (separated items).
Proof.
  induction 1 as [|item items Hs _ IH]; simpl; [lia|].
  destruct (pipedTokens_head _ Hs) as (name & l & El & _).
  rewrite !length_app, El. simpl in *. lia.
Qed.

(** The first token after a separator is a word or the last token. *)
Lemma separated_head items final eof :
  Forall (fun item : Piped * Token.t => simpleCommand (fst (fst item))) items ->
  (forall s, final = Some s -> simpleCommand (fst s)) -> Token.type eof = EOF ->
  exists tok l,
    separated items ++ finalTokens final ++ [eof] = tok :: l /\
    (Token.type tok = WORD \/ Token.type tok = EOF).
Proof.
  intros Hi Hf He. destruct items as [|item items].
  - destruct final as [s|]; simpl.
    + destruct (pipedTokens_head s (Hf s eq_refl)) as (name & l & El & Hn).
      rewrite El. simpl. eauto.
    + eauto.
  - apply Forall_cons_iff in Hi as [Hs _].
    destruct (pipedTokens_head _ Hs) as (name & l & El & Hn).
    simpl. rewrite El. simpl. eauto.
Qed.

Lemma parseStatements_loop_separated fuel final eof : forall items pre acc n,
    tokens = pre ++ separated items ++ finalTokens final ++ [eof] ->
    Token.type eof = EOF ->
    Forall (fun item => isPiped (fst item) (snd item) /\
                        separator (Token.type (snd item)) = true) items ->
    (forall s, final = Some s -> isPiped s eof) ->
    length tokens <= fuel -> 2 * length items + 2 <= n ->
    exists stmts,
      parseStatements_loop tokens (S fuel) n acc (length pre)
      = Return (acc ++ stmts)
               (length pre + length (separated items) + length (finalTokens final)) /\
      Forall2 pipedStatement (map fst items ++ finalItems final) stmts.
Proof.
  induction items as [|[s sep] items IH]; intros pre acc n Ht He Hi Hfin Hf Hn.
  - simpl in Ht. simpl separated. simpl length. rewrite Nat.add_0_r. simpl map. simpl app.
    destruct n as [|[|n]]; try (simpl in Hn; lia).
    destruct final as [s|]; simpl in Ht; simpl finalTokens; simpl finalItems.
    + destruct (Hfin s eq_refl) as (Hfirst & Hm & Hna).
      destruct (pipedTokens_head s Hfirst) as (name & l & El & Hname).
      assert (H0 : forall type, check tokens type (length pre) = TokenType_beq WORD type).
      { intros type. rewrite <- Hname. apply (check_head tokens pre name (l ++ [eof])).
        rewrite Ht, El. reflexivity. }
      rewrite parseStatements_loop_step;
        [| unfold isAtEnd; rewrite H0;
           assert (length pre < length tokens)
             by (rewrite Ht, !length_app, El; simpl; lia);
           apply orb_false_intro; [apply Nat.leb_gt; assumption | reflexivity]
         | rewrite H0; reflexivity | rewrite H0; reflexivity ].
      destruct (parseStatement_piped pre s eof [] fuel Ht (Hfin s eq_refl))
        as (stmt & Hrun & Hof).
      { rewrite He. discriminate. }
      { intros [E|E]; rewrite He in E; discriminate. }
      { rewrite Ht, !length_app in Hf. lia. }
      unfold bind at 1. rewrite Hrun. 
      assert (Hp : forall type,
                 check tokens type (length pre + length (pipedTokens s))
                 = TokenType_beq EOF type).
      { intros type. rewrite <- He, <- length_app.
        apply (check_head tokens (pre ++ pipedTokens s) eof []).
        rewrite Ht, <- app_assoc. reflexivity. }
      unfold bind, ret. cbv beta iota. rewrite !Hp. simpl orb. cbv iota.
      rewrite parseStatements_loop_end;
        [| unfold isAtEnd; rewrite Hp; apply orb_true_r ].
      exists [stmt]. split; [reflexivity|]. constructor; [exact Hof|constructor].
    + rewrite Nat.add_0_r. exists []. rewrite app_nil_r. split; [|constructor].
      apply parseStatements_loop_end. unfold isAtEnd.
      rewrite (check_head tokens pre eof [] EOF Ht), He. apply orb_true_r.
  - apply Forall_cons_iff in Hi as [[Hs Hsep] Hi]. simpl fst in *. simpl snd in *.
    destruct Hs as (Hfirst & Hm & Hna).
    destruct (separator_kind _ Hsep) as (Hst & Hcom & Heof & Hpipe & Hword & Hquo & Hnl).
    destruct (pipedTokens_head s Hfirst) as (name & l & El & Hname).
    simpl separated in *. rewrite <- !app_assoc in Ht. simpl app in Ht.
    set (rest := separated items ++ finalTokens final ++ [eof]) in *.
    assert (H0 : forall type, check tokens type (length pre) = TokenType_beq WORD type).
    { intros type. rewrite <- Hname.
      apply (check_head tokens pre name (l ++ sep :: rest)).
      rewrite Ht, El. reflexivity. }
    assert (Hlen : length tokens
                   = length pre + length (pipedTokens s) + 1 + length rest).
    { rewrite Ht, !length_app. simpl. lia. }
    destruct n as [|n]; [lia|].
    rewrite parseStatements_loop_step;
      [| unfold isAtEnd; rewrite H0;
         apply orb_false_intro; [apply Nat.leb_gt; rewrite El in Hlen; simpl in Hlen; lia
                                | reflexivity]
       | rewrite H0; reflexivity | rewrite H0; reflexivity ].
    destruct (parseStatement_piped pre s sep rest fuel Ht) as (stmt & Hrun & Hof).
    { repeat split; assumption. }
    { assumption. }
    { intros [E|E]; congruence. }
    { lia. }
    unfold bind at 1. rewrite Hrun.
    set (p1 := length pre + length (pipedTokens s)) in *.
    assert (Ht1 : tokens = (pre ++ pipedTokens s) ++ sep :: rest).
    { rewrite Ht, <- app_assoc. reflexivity. }
    assert (Hp1 : nth_error tokens p1 = Some sep).
    { unfold p1. rewrite <- length_app, Ht1. apply nth_error_after. }
    assert (Ht2 : tokens = (pre ++ pipedTokens s ++ [sep]) ++ rest).
    { rewrite Ht, <- !app_assoc. reflexivity. }
    assert (HS : S p1 = length (pre ++ pipedTokens s ++ [sep])).
    { unfold p1. rewrite !length_app. simpl. lia. }
    assert (Hivs : Forall (fun item : Piped * Token.t => simpleCommand (fst (fst item)))
                          items).
    { eapply Forall_impl; [|exact Hi]. intros item [[H _] _]. exact H. }
    assert (Hfinish : forall n',
               2 * length items + 2 <= n' ->
               exists stmts,
                 parseStatements_loop tokens (S fuel) n' (acc ++ [stmt]) (S p1)
                 = Return (acc ++ stmts)
                          (length pre
                           + length ((pipedTokens s ++ [sep]) ++ separated items)
                           + length (finalTokens final)) /\
                 Forall2 pipedStatement (map fst (((s, sep) :: items)) ++ finalItems final)
                         stmts).
    { intros n' Hn'.
      destruct (IH (pre ++ pipedTokens s ++ [sep]) (acc ++ [stmt]) n' Ht2 He Hi Hfin Hf Hn')
        as (stmts & Hloop & Hall).
      rewrite <- HS in Hloop.
      exists (stmt :: stmts). split; [|simpl; constructor; assumption].
      rewrite Hloop. rewrite <- app_assoc. simpl app. f_equal.
      unfold p1. rewrite !length_app. simpl. lia. }
    unfold bind at 1, ret at 1. cbv beta iota. unfold bind at 1.
    rewrite !(check_token _ _ _ _ Hp1).
    destruct (TokenType_beq (Token.type sep) SEMICOLON
              || TokenType_beq (Token.type sep) NEWLINE) eqn:Esn.
    + rewrite (advance_token _ _ _ Hp1 Heof). apply Hfinish. simpl in Hn. lia.
    + destruct n as [|n]; [simpl in Hn; lia|].
      rewrite parseStatements_loop_step;
        [| apply (isAtEnd_token _ _ _ Hp1 Heof)
         | rewrite (check_token _ _ _ _ Hp1); apply TokenType_beq_neq; exact Heof
         | rewrite (check_token _ _ _ _ Hp1); apply TokenType_beq_neq; apply Hnl;
           reflexivity ].
      destruct (parseStatement_inert fuel p1) as (p' & E' & _ & _ & Hsame).
      { intros t E. rewrite Hp1 in E. inversion E; subst. exact Hst. }
      rewrite (Hsame sep Hp1 Hcom) in E'.
      unfold bind at 1. rewrite E'.
      rewrite bind_bind, (bind_advance _ _ _ _ Hp1 Heof). unfold bind at 1, ret at 1.
      cbv beta iota. unfold bind at 1.
      destruct (separated_head items final eof Hivs) as (tok & l' & Erest & Hty); auto.
      { intros s0 E. destruct (Hfin s0 E) as [H _]. exact H. }
      fold rest in Erest.
      assert (HpS : nth_error tokens (S p1) = Some tok).
      { rewrite HS, Ht2, Erest. apply nth_error_after. }
      rewrite !(check_token _ _ _ _ HpS).
      replace (TokenType_beq (Token.type tok) SEMICOLON
               || TokenType_beq (Token.type tok) NEWLINE) with false
        by (destruct Hty as [E|E]; rewrite E; reflexivity).
      apply Hfinish. simpl in Hn. lia.
Qed.


Lemma parseTokens_separated items final eof :
  tokens = separated items ++ finalTokens final ++ [eof] ->
  Token.type eof = EOF ->
  Forall (fun item => isPiped (fst item) (snd item) /\
                      separator (Token.type (snd item)) = true) items ->
  (forall s, final = Some s -> isPiped s eof) ->
  exists stmts,
    parseTokens tokens = Returned (Program.mk stmts None) /\
    Forall2 pipedStatement (map fst items ++ finalItems final) stmts.
Proof.
  intros Ht He Hi Hfin. unfold parseTokens, parseStatements.
  assert (Hivs : Forall (fun item : Piped * Token.t => simpleCommand (fst (fst item)))
                        items).
  { eapply Forall_impl; [|exact Hi]. intros item [[H _] _]. exact H. }
  pose proof (separated_length items Hivs) as Hlen.
  destruct (parseStatements_loop_separated (length tokens) final eof items [] []
              (S (length tokens)) Ht He Hi Hfin) as (stmts & E & Hall).
  { lia. }
  { rewrite Ht, !length_app. simpl. lia. }
  change (length (@nil Token.t)) with 0 in E. rewrite E.
  exists stmts. split; [reflexivity | exact Hall].
Qed.

(** ** A bar with no command after it *)

Lemma stops_bar (more : list (Token.t * list Token.t)) bar rest :
  Forall barred more -> Token.type bar = PIPE ->
  stops (flat_map piped more ++ bar :: rest).
Proof.
  intros Hm Hb tok. destruct more as [|[b seg] more]; simpl.
  - intros E. inversion E; subst. intros [H|H]; congruence.
  - intros E. inversion E; subst. apply Forall_cons_iff in Hm as [[Hb' _] _].
    simpl in Hb'. intros [H|H]; congruence.
Qed.

Lemma parsePipeline_rest_fails bar tok rest : forall more pre acc fuel,
    tokens = pre ++ flat_map piped more ++ bar :: tok :: rest ->
    Forall barred more -> Token.type bar = PIPE -> Token.type tok <> WORD ->
    length (flat_map piped more) + 1 < fuel ->
    exists p,
      parsePipeline_rest tokens fuel acc (length pre)
      = Throw (Parse (ParseError.mk "Expected command name" (Some (Token.position tok)))) p.
Proof.
  induction more as [|[b seg] more IH]; intros pre acc fuel Ht Hm Hb Hw Hf;
    destruct fuel as [|fuel]; try (simpl in Hf; lia); simpl parsePipeline_rest.
  - simpl in Ht. rewrite (check_head tokens pre bar _ PIPE Ht), Hb.
    simpl TokenType_beq. cbv iota.
    assert (Hn : nth_error tokens (length pre) = Some bar).
    { rewrite Ht. apply nth_error_after. }
    rewrite (bind_advance _ _ _ _ Hn) by congruence.
    assert (Ht1 : tokens = (pre ++ [bar]) ++ tok :: rest).
    { rewrite Ht, <- app_assoc. reflexivity. }
    assert (Hn1 : nth_error tokens (S (length pre)) = Some tok).
    { replace (S (length pre)) with (length (pre ++ [bar]))
        by (rewrite length_app; simpl; lia).
      rewrite Ht1. apply nth_error_after. }
    unfold bind, parseCommand. rewrite (check_token _ _ _ _ Hn1).
    apply TokenType_beq_neq in Hw. rewrite Hw. simpl negb. cbv iota.
    unfold parseError, currentPosition, currentToken. rewrite Hn1. simpl. eauto.
  - pose proof Hm as Hm'. apply Forall_cons_iff in Hm' as [[Hb1 Hseg] Hmore].
    simpl in Hb1, Hseg. destruct seg as [|name args]; [contradiction|].
    simpl in Ht. rewrite <- app_assoc in Ht.
    rewrite (check_head tokens pre b _ PIPE Ht), Hb1. simpl TokenType_beq. cbv iota.
    assert (Hn : nth_error tokens (length pre) = Some b).
    { rewrite Ht. apply nth_error_after. }
    rewrite (bind_advance _ _ _ _ Hn) by congruence.
    assert (Ht1 : tokens = (pre ++ [b]) ++ (name :: args)
                             ++ flat_map piped more ++ bar :: tok :: rest).
    { rewrite Ht, <- app_assoc. reflexivity. }
    destruct (parseCommand_run tokens (pre ++ [b]) name args
                (flat_map piped more ++ bar :: tok :: rest) (S fuel) Ht1 Hseg)
      as (command & Hrun & Hof).
    { apply stops_bar; assumption. }
    { simpl in Hf. rewrite length_app in Hf. simpl in Hf. lia. }
    replace (length (pre ++ [b])) with (S (length pre)) in Hrun
      by (rewrite length_app; simpl; lia).
    unfold bind at 1. rewrite Hrun.
    assert (Ht2 : tokens = (pre ++ b :: name :: args)
                             ++ flat_map piped more ++ bar :: tok :: rest).
    { rewrite Ht, <- app_assoc. reflexivity. }
    destruct (IH (pre ++ b :: name :: args) (acc ++ [command]) fuel Ht2 Hmore Hb Hw)
      as (p & Hrest).
    { simpl in Hf. rewrite length_app in Hf. simpl in Hf. lia. }
    exists p. rewrite <- Hrest. f_equal. rewrite length_app. simpl. lia.
Qed.

Lemma parseTokens_bar (s : Piped) bar tok rest :
  tokens = pipedTokens s ++ bar :: tok :: rest ->
  isPiped s bar -> Token.type bar = PIPE -> Token.type tok <> WORD ->
  parseTokens tokens
  = Raised (ParseError.mk "Expected command name" (Some (Token.position tok))).
Proof.
  intros Ht (Hfirst & Hm & Hna) Hb Hw.
  destruct (pipedTokens_head s Hfirst) as (name & l & El & Hn).
  assert (H0 : forall type, check tokens type 0 = TokenType_beq WORD type).
  { intros type. rewrite <- Hn. apply (check_head tokens [] name (l ++ bar :: tok :: rest)).
    rewrite Ht, El. reflexivity. }
  assert (Hlen : length tokens = length (pipedTokens s) + 2 + length rest).
  { rewrite Ht, length_app. simpl. lia. }
  assert (Hva : isVariableAssignment tokens 0 = false).
  { unfold isVariableAssignment. rewrite H0.
    change (TokenType_beq WORD WORD) with true. rewrite andb_true_l.
    change (0 + 1) with 1.
    destruct (1 <? length tokens)%nat; [|reflexivity].
    destruct (nth_error tokens 1) as [t|] eqn:E; [|reflexivity].
    apply String.eqb_neq. apply Hna. rewrite Ht, El in E. rewrite El.
    destruct l as [|x l]; simpl in *; exact E. }
  destruct s as [first more]. unfold pipedTokens in *. simpl fst in *. simpl snd in *.
  destruct first as [|name' args]; [contradiction|].
  rewrite <- app_assoc in Ht.
  assert (Hlen' : length tokens
                  = S (length args) + length (flat_map piped more) + 2 + length rest).
  { rewrite Ht. repeat (rewrite length_app; simpl). lia. }
  destruct (parseCommand_run tokens [] name' args
              (flat_map piped more ++ bar :: tok :: rest) (length tokens) Ht Hfirst)
    as (command & Hrun & Hof).
  { apply stops_bar; assumption. }
  { lia. }
  destruct (parsePipeline_rest_fails bar tok rest more (name' :: args) [command]
              (length tokens) Ht Hm Hb Hw) as (p & Hrest).
  { lia. }
  unfold parseTokens, parseStatements.
  rewrite parseStatements_loop_step;
    [| unfold isAtEnd; rewrite H0; apply orb_false_intro;
       [apply Nat.leb_gt; lia | reflexivity]
     | rewrite H0; reflexivity | rewrite H0; reflexivity ].
  unfold bind at 1.
  rewrite parseStatement_word; [| rewrite H0; reflexivity | exact Hva ].
  unfold some, parsePipeline. unfold bind at 1. unfold bind at 1.
  change (length (@nil Token.t)) with 0 in Hrun. rewrite Hrun.
  change (0 + length (name' :: args)) with (length (name' :: args)).
  unfold bind at 1. rewrite Hrest. reflexivity.
Qed.

(** ** A construct that is not closed *)

Lemma BuiltPipeline_first first next commands :
  BuiltPipeline tokens first next commands -> typeAt tokens first WORD.
Proof.
  induction 1 as [first next c Hc | first bar next cs c Hp IH Hb Hc]; [|exact IH].
  inversion Hc; subst. eexists. eauto.
Qed.

Lemma Built_closer first next stmt tok kind :
  Built tokens first next stmt ->
  nth_error tokens first = Some tok -> closer (Token.type tok) = Some kind ->
  exists last t, nth_error tokens last = Some t /\ Token.type t = kind.
Proof.
  intros Hb Hn Hc.
  inversion Hb; subst;
    repeat match goal with
           | H : typeAt _ _ _ |- _ => destruct H as (? & ? & ?)
           | H : BuiltCommand _ _ _ _ |- _ => inversion H; subst; clear H
           | H : BuiltPipeline _ _ _ _ |- _ =>
               apply BuiltPipeline_first in H
           end;
    repeat match goal with
           | H1 : nth_error tokens first = Some ?a, H2 : nth_error tokens first = Some ?b
             |- _ => rewrite H1 in H2; inversion H2; subst; clear H2
           end;
    try match goal with
        | H : Token.type ?t = _ \/ Token.type ?t = _, Hc : closer (Token.type ?t) = _
          |- _ => destruct H as [H|H]
        end;
    try match goal with
        | H : Token.type ?t = _, Hc : closer (Token.type ?t) = _ |- _ =>
            rewrite H in Hc; simpl in Hc
        end;
    try discriminate; inversion Hc; subst; eauto.
Qed.

Lemma parseTokens_unclosed tok rest kind :
  tokens = tok :: rest -> closer (Token.type tok) = Some kind ->
  Forall (fun t => Token.type t <> kind) tokens ->
  exists error, parseTokens tokens = Raised error.
Proof.
  intros Ht Hc Hall.
  assert (Hn : nth_error tokens 0 = Some tok) by (rewrite Ht; reflexivity).
  assert (Hlen : 0 < length tokens) by (rewrite Ht; simpl; lia).
  assert (Hs : starts (Token.type tok) = true /\ Token.type tok <> EOF /\
               Token.type tok <> NEWLINE /\ Token.type tok <> COMMENT /\
               Token.type tok <> WORD).
  { destruct (Token.type tok); try discriminate Hc; repeat split; discriminate. }
  destruct Hs as (Hst & Heof & Hnl & Hcom & Hw).
  unfold parseTokens, parseStatements.
  rewrite parseStatements_loop_step;
    [| apply (isAtEnd_token _ _ _ Hn Heof)
     | rewrite (check_token _ _ _ _ Hn); apply TokenType_beq_neq; exact Heof
     | rewrite (check_token _ _ _ _ Hn); apply TokenType_beq_neq; exact Hnl ].
  pose proof (parseStatement_builds tokens (S (length tokens)) 0) as Hb.
  unfold bind at 1.
  assert (Hsome : forall p', parseStatement tokens (S (length tokens)) 0 <> Return None p').
  { intros p'. simpl parseStatement. unfold isVariableAssignment.
    rewrite !(check_token _ _ _ _ Hn).
    destruct (Token.type tok); try discriminate Hc; simpl; unfold some, bind;
      match goal with
      | |- context [match ?m with _ => _ end] => destruct m; discriminate
      end. }
  destruct (parseStatement tokens (S (length tokens)) 0) as [r p'|[e|] p'|] eqn:E.
  - destruct r as [stmt|]; [|exfalso; eapply Hsome; reflexivity].
    destruct Hb as [_ Hb]; [lia|]. destruct (Hb stmt eq_refl) as [_ Hbuilt].
    destruct (Built_closer _ _ _ _ _ Hbuilt Hn Hc) as (last & t & Hl & Hk).
    rewrite Forall_forall in Hall. exfalso. apply (Hall t); [|exact Hk].
    eapply nth_error_In. exact Hl.
  - eauto.
  - exfalso. apply Hb. lia.
  - exfalso. apply Hb. lia.
Qed.

(** ** The header of a conditional and of a loop *)

Lemma consume_at p tok type message :
  nth_error tokens p = Some tok -> Token.type tok = type -> type <> EOF ->
  consume tokens type message p = Return (Some tok) (S p).
Proof.
  intros Hn Ht He. unfold consume. rewrite (check_token _ _ _ _ Hn), Ht.
  rewrite (proj2 (TokenType_beq_eq type type) eq_refl).
  apply advance_token; congruence.
Qed.


Lemma parseExpression_at p tok :
  nth_error tokens p = Some tok -> isExpression tok ->
  parseExpression tokens p = Return (expressionOf tok) (S p).
Proof.
  intros Hn He. unfold parseExpression, expressionOf.
  rewrite !(check_token _ _ _ _ Hn).
  destruct He as [[Ht|Ht]|Ht]; rewrite Ht; simpl TokenType_beq; simpl orb; cbv iota;
    rewrite (bind_advance _ _ _ _ Hn) by congruence; simpl field; pure;
    rewrite ?Ht; reflexivity.
Qed.



(** ** The body of a construct *)

Lemma parseBody_step ps continues n body p :
  continues p = true -> check tokens NEWLINE p = false ->
  parseBody tokens ps continues (S n) body p =
  (stmt <- ps ;;
   match stmt with
   | Some stmt => parseBody tokens ps continues n (body ++ [stmt])
   | None => advance tokens ;; parseBody tokens ps continues n body
   end) p.
Proof. intros H1 H2. simpl. rewrite H1, H2. reflexivity. Qed.

Lemma parseBody_end ps continues n body p :
  continues p = false -> parseBody tokens ps continues (S n) body p = Return body p.
Proof. intros H. simpl. rewrite H. reflexivity. Qed.

Lemma parseBody_newline ps continues n body p :
  continues p = true -> check tokens NEWLINE p = true ->
  parseBody tokens ps continues (S n) body p =
  (advance tokens ;; parseBody tokens ps continues n body) p.
Proof. intros H1 H2. simpl. rewrite H1, H2. reflexivity. Qed.

Lemma parseBody_separated fuel continues (stop : TokenType -> bool) final close rest :
  (forall p t, nth_error tokens p = Some t ->
               continues p = negb (stop (Token.type t))
                             && negb (TokenType_beq (Token.type t) EOF)) ->
  (forall type, stop type = true -> closing type = true) ->
  stop (Token.type close) = true ->
  (forall s, final = Some s -> isPiped s close) ->
  length tokens <= S fuel ->
  forall items pre acc n,
    tokens = pre ++ separated items ++ finalTokens final ++ close :: rest ->
    Forall bodyItem items ->
    2 * length items + 2 <= n ->
    exists stmts,
      parseBody tokens (parseStatement tokens (S fuel)) continues n acc (length pre)
      = Return (acc ++ stmts)
               (length pre + length (separated items) + length (finalTokens final)) /\
      Forall2 pipedStatement (map fst items ++ finalItems final) stmts.
Proof.
  intros Hcont Hstop Hclose Hfin Hf.
  assert (Hcl : closing (Token.type close) = true) by (apply Hstop; exact Hclose).
  assert (Hgo : forall p t, nth_error tokens p = Some t ->
                            closing (Token.type t) = false -> Token.type t <> EOF ->
                            continues p = true).
  { intros p t Hn Hc He. rewrite (Hcont p t Hn).
    destruct (stop (Token.type t)) eqn:E; [apply Hstop in E; congruence|].
    apply TokenType_beq_neq in He. rewrite He. reflexivity. }
  induction items as [|[s sep] items IH]; intros pre acc n Ht Hi Hn.
  - simpl in Ht. simpl separated. simpl length. rewrite Nat.add_0_r. simpl map. simpl app.
    destruct n as [|[|n]]; try (simpl in Hn; lia).
    destruct final as [s|]; simpl in Ht; simpl finalTokens; simpl finalItems.
    + destruct (Hfin s eq_refl) as (Hfirst & Hm & Hna).
      destruct (pipedTokens_head s Hfirst) as (name & l & El & Hname).
      assert (H0 : nth_error tokens (length pre) = Some name).
      { rewrite Ht, El. apply nth_error_after. }
      rewrite parseBody_step;
        [| apply (Hgo _ _ H0); rewrite Hname; [reflexivity | discriminate]
         | rewrite (check_token _ _ _ _ H0), Hname; reflexivity ].
      destruct (parseStatement_piped pre s close rest fuel Ht (Hfin s eq_refl))
        as (stmt & Hrun & Hof).
      { intros E. rewrite E in Hcl. discriminate. }
      { intros [E|E]; rewrite E in Hcl; discriminate. }
      { rewrite Ht, !length_app in Hf. simpl in Hf. lia. }
      unfold bind at 1. rewrite Hrun.
      assert (Hp : nth_error tokens (length pre + length (pipedTokens s)) = Some close).
      { rewrite <- length_app, Ht, app_assoc. apply nth_error_after. }
      rewrite parseBody_end;
        [| rewrite (Hcont _ _ Hp), Hclose; reflexivity ].
      exists [stmt]. split; [reflexivity|]. constructor; [exact Hof|constructor].
    + rewrite Nat.add_0_r. exists []. rewrite app_nil_r. split; [|constructor].
      assert (Hp : nth_error tokens (length pre) = Some close).
      { rewrite Ht. apply nth_error_after. }
      apply parseBody_end. rewrite (Hcont _ _ Hp), Hclose. reflexivity.
  - apply Forall_cons_iff in Hi as [(Hs & Hsep & Hnc) Hi]. simpl fst in *. simpl snd in *.
    destruct Hs as (Hfirst & Hm & Hna).
    destruct (separator_kind _ Hsep) as (Hst & Hcom & Heof & Hpipe & Hword & Hquo & _).
    destruct (pipedTokens_head s Hfirst) as (name & l & El & Hname).
    simpl separated in *. rewrite <- !app_assoc in Ht. simpl app in Ht.
    set (tail := separated items ++ finalTokens final ++ close :: rest) in *.
    assert (H0 : nth_error tokens (length pre) = Some name).
    { rewrite Ht, El. apply nth_error_after. }
    assert (Hlen : length tokens
                   = length pre + length (pipedTokens s) + 1 + length tail).
    { rewrite Ht, !length_app. simpl. lia. }
    destruct n as [|[|n]]; try (simpl in Hn; lia).
    rewrite parseBody_step;
      [| apply (Hgo _ _ H0); rewrite Hname; [reflexivity | discriminate]
       | rewrite (check_token _ _ _ _ H0), Hname; reflexivity ].
    destruct (parseStatement_piped pre s sep tail fuel Ht) as (stmt & Hrun & Hof).
    { repeat split; assumption. }
    { assumption. }
    { intros [E|E]; congruence. }
    { lia. }
    unfold bind at 1. rewrite Hrun.
    set (p1 := length pre + length (pipedTokens s)) in *.
    assert (Ht1 : tokens = (pre ++ pipedTokens s) ++ sep :: tail).
    { rewrite Ht, <- app_assoc. reflexivity. }
    assert (Hp1 : nth_error tokens p1 = Some sep).
    { unfold p1. rewrite <- length_app, Ht1. apply nth_error_after. }
    assert (Ht2 : tokens = (pre ++ pipedTokens s ++ [sep]) ++ tail).
    { rewrite Ht, <- !app_assoc. reflexivity. }
    assert (HS : S p1 = length (pre ++ pipedTokens s ++ [sep])).
    { unfold p1. rewrite !length_app. simpl. lia. }
    destruct (IH (pre ++ pipedTokens s ++ [sep]) (acc ++ [stmt]) n Ht2 Hi)
      as (stmts & Hloop & Hall).
    { simpl in Hn. lia. }
    rewrite <- HS in Hloop.
    exists (stmt :: stmts). split; [|simpl; constructor; assumption].
    replace (length pre + length ((pipedTokens s ++ [sep]) ++ separated items)
             + length (finalTokens final))
      with (S p1 + length (separated items) + length (finalTokens final))
      by (unfold p1; rewrite !length_app; simpl; lia).
    replace (acc ++ stmt :: stmts) with ((acc ++ [stmt]) ++ stmts)
      by (rewrite <- app_assoc; reflexivity).
    rewrite <- Hloop.
    assert (Hc1 : continues p1 = true) by (apply (Hgo _ _ Hp1); assumption).
    destruct (check tokens NEWLINE p1) eqn:Enl.
    + rewrite parseBody_newline by assumption.
      rewrite (bind_advance _ _ _ _ Hp1 Heof). reflexivity.
    + rewrite parseBody_step by assumption.
      destruct (parseStatement_inert fuel p1) as (p' & E' & _ & _ & Hsame).
      { intros t E. rewrite Hp1 in E. inversion E; subst. exact Hst. }
      rewrite (Hsame sep Hp1 Hcom) in E'.
      unfold bind at 1. rewrite E'.
      rewrite (bind_advance _ _ _ _ Hp1 Heof). reflexivity.
Qed.

Lemma guard_closer closer p t :
  nth_error tokens p = Some t ->
  negb (check tokens closer p) && negb (isAtEnd tokens p)
  = negb (TokenType_beq (Token.type t) closer)
    && negb (TokenType_beq (Token.type t) EOF).
Proof.
  intros Hn. unfold isAtEnd. rewrite !(check_token _ _ _ _ Hn).
  assert (Hlt : p < length tokens) by (apply nth_error_Some; congruence).
  apply Nat.leb_gt in Hlt. rewrite Hlt. reflexivity.
Qed.

Lemma bind_return {A B} (m : M A) (k : A -> M B) p a p' :
  m p = Return a p' -> bind m k p = k a p'.
Proof. intros E. unfold bind. rewrite E. reflexivity. Qed.

Lemma some_return {A} (m : M A) p a p' :
  m p = Return a p' -> some m p = Return (Some a) p'.
Proof. intros E. unfold some, bind. rewrite E. reflexivity. Qed.

(** A construct whose body holds commands and pipelines. *)
Lemma parseStatement_opening opening closer make items final close next rest fuel :
  tokens = opening ++ separated items ++ finalTokens final ++ close :: next :: rest ->
  Opening opening closer make ->
  (forall kw, hd_error opening = Some kw -> keywordText kw) ->
  Token.type close = closer ->
  Forall bodyItem items -> (forall s, final = Some s -> isPiped s close) ->
  length tokens <= S fuel ->
  exists stmts,
    parseStatement tokens (S (S fuel)) 0
    = Return (Some (make stmts (nodePosition tokens 0 (length tokens - S (length rest)))))
             (length tokens - S (length rest)) /\
    Forall2 pipedStatement (map fst items ++ finalItems final) stmts.
Proof.
  intros Ht Ho Hk Hc Hi Hfin Hf.
  assert (Hivs : Forall (fun item : Piped * Token.t => simpleCommand (fst (fst item)))
                        items).
  { eapply Forall_impl; [|exact Hi]. intros item [[H _] _]. exact H. }
  pose proof (separated_length items Hivs) as Hsl.
  set (body := separated items ++ finalTokens final) in *.
  assert (Hlen : length tokens = length opening + length body + 2 + length rest).
  { rewrite Ht. unfold body. rewrite !length_app. simpl. lia. }
  assert (Hbl : length body = length (separated items) + length (finalTokens final))
    by (unfold body; apply length_app).
  assert (Hq : length tokens - S (length rest) = S (length opening + length body))
    by lia.
  rewrite Hq.
  assert (Hclose : nth_error tokens (length opening + length body) = Some close).
  { unfold body. rewrite <- length_app, Ht, !app_assoc, <- (app_assoc opening).
    apply nth_error_after. }
  assert (Hne : closer <> EOF) by (destruct Ho; discriminate).
  assert (Hbody : forall continues (stop : TokenType -> bool),
             (forall p t, nth_error tokens p = Some t ->
                          continues p = negb (stop (Token.type t))
                                        && negb (TokenType_beq (Token.type t) EOF)) ->
             (forall type, stop type = true -> closing type = true) ->
             stop (Token.type close) = true ->
             exists stmts,
               parseBody tokens (parseStatement tokens (S fuel)) continues (S fuel) []
                         (length opening)
               = Return stmts (length opening + length body) /\
               Forall2 pipedStatement (map fst items ++ finalItems final) stmts).
  { intros continues stop H1 H2 H3.
    destruct (parseBody_separated fuel continues stop final close (next :: rest)
                H1 H2 H3 Hfin Hf items opening [] (S fuel) Ht Hi)
      as (stmts & E & Hall).
    { assert (3 <= length opening) by (destruct Ho; simpl; lia). lia. }
    exists stmts. split; [|exact Hall]. rewrite E. f_equal. lia. }
  remember (S fuel) as f eqn:Ef.
  destruct Ho as [kw c th Hkw Hcond Hth
                 | kw c do Hkw Hcond Hdo
                 | kw v w e do Hkw Hv Hw He Hdo
                 | kw name lp rp lb Hkw Hname Hlp Hrp Hlb];
    pose proof (Hk kw eq_refl) as [Hfor Hwhile]; simpl in Ht; simpl length in *.
  - assert (H0 : nth_error tokens 0 = Some kw) by (rewrite Ht; reflexivity).
    assert (H1 : nth_error tokens 1 = Some c) by (rewrite Ht; reflexivity).
    assert (H2 : nth_error tokens 2 = Some th) by (rewrite Ht; reflexivity).
    destruct (Hbody (fun p => negb (check tokens ELSE p) && negb (check tokens FI p)
                              && negb (isAtEnd tokens p))
                    (fun type => TokenType_beq type ELSE || TokenType_beq type FI))
      as (stmts & E & Hall).
    { intros p t Hn.
      rewrite <- andb_assoc, (guard_closer FI p t Hn), (check_token _ _ _ _ Hn),
        negb_orb, andb_assoc. reflexivity. }
    { intros type H. apply orb_prop in H as [H|H]; apply TokenType_beq_eq in H;
        subst; reflexivity. }
    { rewrite Hc. reflexivity. }
    exists stmts. split; [|exact Hall].
    simpl parseStatement. rewrite !(check_token _ _ _ _ H0), Hkw.
    simpl TokenType_beq. cbv iota.
    apply some_return. unfold parseConditional. cbv beta zeta.
    rewrite (bind_return _ _ _ _ _ (consume_at 0 kw IF _ H0 Hkw ltac:(discriminate))).
    rewrite (bind_return _ _ _ _ _ (parseExpression_at 1 c H1 Hcond)).
    rewrite (bind_return _ _ _ _ _ (consume_at 2 th THEN _ H2 Hth ltac:(discriminate))).
    rewrite (bind_return _ _ _ _ _ E).
    erewrite bind_return;
      [| cbv beta; rewrite (check_token _ _ _ _ Hclose), Hc; reflexivity ].
    rewrite (bind_return _ _ _ _ _ (consume_at _ close FI _ Hclose Hc Hne)).
    reflexivity.
  - assert (H0 : nth_error tokens 0 = Some kw) by (rewrite Ht; reflexivity).
    assert (H1 : nth_error tokens 1 = Some c) by (rewrite Ht; reflexivity).
    assert (H2 : nth_error tokens 2 = Some do) by (rewrite Ht; reflexivity).
    destruct (Hbody (fun p => negb (check tokens DONE p) && negb (isAtEnd tokens p))
                    (fun type => TokenType_beq type DONE))
      as (stmts & E & Hall).
    { intros p t Hn. apply guard_closer. exact Hn. }
    { intros type H. apply TokenType_beq_eq in H. subst. reflexivity. }
    { rewrite Hc. reflexivity. }
    exists stmts. split; [|exact Hall].
    simpl parseStatement. rewrite !(check_token _ _ _ _ H0), Hkw.
    simpl TokenType_beq. simpl orb. cbv iota.
    apply some_return. unfold parseLoop. cbv beta zeta.
    rewrite (bind_advance _ _ _ _ H0) by congruence.
    simpl field. rewrite bind_ret.
    rewrite (Hwhile Hkw). change ("while" =? "for")%string with false. cbv iota.
    rewrite !bind_bind.
    rewrite (bind_return _ _ _ _ _ (parseExpression_at 1 c H1 Hcond)).
    rewrite bind_ret.
    rewrite (bind_return _ _ _ _ _ (consume_at 2 do DO _ H2 Hdo ltac:(discriminate))).
    rewrite (bind_return _ _ _ _ _ E).
    rewrite (bind_return _ _ _ _ _ (consume_at _ close DONE _ Hclose Hc Hne)).
    reflexivity.
  - assert (H0 : nth_error tokens 0 = Some kw) by (rewrite Ht; reflexivity).
    assert (H1 : nth_error tokens 1 = Some v) by (rewrite Ht; reflexivity).
    assert (H2 : nth_error tokens 2 = Some w) by (rewrite Ht; reflexivity).
    assert (H3 : nth_error tokens 3 = Some e) by (rewrite Ht; reflexivity).
    assert (H4 : nth_error tokens 4 = Some do) by (rewrite Ht; reflexivity).
    destruct (Hbody (fun p => negb (check tokens DONE p) && negb (isAtEnd tokens p))
                    (fun type => TokenType_beq type DONE))
      as (stmts & E & Hall).
    { intros p t Hn. apply guard_closer. exact Hn. }
    { intros type H. apply TokenType_beq_eq in H. subst. reflexivity. }
    { rewrite Hc. reflexivity. }
    exists stmts. split; [|exact Hall].
    simpl parseStatement. rewrite !(check_token _ _ _ _ H0), Hkw.
    simpl TokenType_beq. simpl orb. cbv iota.
    apply some_return. unfold parseLoop. cbv beta zeta.
    rewrite (bind_advance _ _ _ _ H0) by congruence.
    simpl field. rewrite bind_ret.
    rewrite (Hfor Hkw). change ("for" =? "for")%string with true. cbv iota.
    rewrite !bind_bind.
    rewrite (bind_return _ _ _ _ _ (consume_at 1 v WORD _ H1 Hv ltac:(discriminate))).
    simpl field. rewrite !bind_bind, bind_ret, !bind_bind.
    rewrite (bind_return _ _ _ _ _ (consume_at 2 w WORD _ H2 Hw ltac:(discriminate))).
    rewrite !bind_bind.
    rewrite (bind_return _ _ _ _ _ (parseExpression_at 3 e H3 He)).
    rewrite bind_ret.
    rewrite (bind_return _ _ _ _ _ (consume_at 4 do DO _ H4 Hdo ltac:(discriminate))).
    rewrite (bind_return _ _ _ _ _ E).
    rewrite (bind_return _ _ _ _ _ (consume_at _ close DONE _ Hclose Hc Hne)).
    reflexivity.
  - assert (H0 : nth_error tokens 0 = Some kw) by (rewrite Ht; reflexivity).
    assert (H1 : nth_error tokens 1 = Some name) by (rewrite Ht; reflexivity).
    assert (H2 : nth_error tokens 2 = Some lp) by (rewrite Ht; reflexivity).
    assert (H3 : nth_error tokens 3 = Some rp) by (rewrite Ht; reflexivity).
    assert (H4 : nth_error tokens 4 = Some lb) by (rewrite Ht; reflexivity).
    destruct (Hbody (fun p => negb (check tokens RBRACE p) && negb (isAtEnd tokens p))
                    (fun type => TokenType_beq type RBRACE))
      as (stmts & E & Hall).
    { intros p t Hn. apply guard_closer. exact Hn. }
    { intros type H. apply TokenType_beq_eq in H. subst. reflexivity. }
    { rewrite Hc. reflexivity. }
    exists stmts. split; [|exact Hall].
    simpl parseStatement. rewrite !(check_token _ _ _ _ H0), Hkw.
    simpl TokenType_beq. simpl orb. cbv iota.
    apply some_return. unfold parseFunction. cbv beta zeta.
    rewrite (bind_return _ _ _ _ _
               (consume_at 0 kw FUNCTION _ H0 Hkw ltac:(discriminate))).
    rewrite (bind_return _ _ _ _ _ (consume_at 1 name WORD _ H1 Hname ltac:(discriminate))).
    simpl field. rewrite bind_ret.
    rewrite (bind_return _ _ _ _ _ (consume_at 2 lp LPAREN _ H2 Hlp ltac:(discriminate))).
    rewrite (bind_return _ _ _ _ _ (consume_at 3 rp RPAREN _ H3 Hrp ltac:(discriminate))).
    rewrite (bind_return _ _ _ _ _ (consume_at 4 lb LBRACE _ H4 Hlb ltac:(discriminate))).
    rewrite (bind_return _ _ _ _ _ E).
    rewrite (bind_return _ _ _ _ _ (consume_at _ close RBRACE _ Hclose Hc Hne)).
    reflexivity.
Qed.

Lemma parseTokens_opening opening kind make items final close eof :
  tokens = opening ++ separated items ++ finalTokens final ++ [close; eof] ->
  Opening opening kind make ->
  (forall kw, hd_error opening = Some kw -> keywordText kw) ->
  Token.type close = kind -> Token.type eof = EOF ->
  Forall bodyItem items -> (forall s, final = Some s -> isPiped s close) ->
  exists stmts,
    parseTokens tokens
    = Returned (Program.mk [make stmts (nodePosition tokens 0 (length tokens - 1))] None) /\
    Forall2 pipedStatement (map fst items ++ finalItems final) stmts.
Proof.
  intros Ht Ho Hk Hc He Hi Hfin.
  assert (Hlen : length tokens
                 = length opening + length (separated items)
                   + length (finalTokens final) + 2).
  { rewrite Ht, !length_app. simpl. lia. }
  destruct (parseStatement_opening opening kind make items final close eof []
              (length tokens - 1) Ht Ho Hk Hc Hi Hfin) as (stmts & E & Hall); [lia|].
  exists stmts. split; [|exact Hall].
  replace (S (length tokens - 1)) with (length tokens) in E by lia.
  change (length (@nil Token.t)) with 0 in E.
  assert (exists kw l, tokens = kw :: l /\ closer (Token.type kw) <> None)
    as (kw & l & Hl & Hcl).
  { destruct Ho as [kw ? ? Hkw|kw ? ? Hkw|kw ? ? ? ? Hkw|kw ? ? ? ? Hkw]; simpl in Ht;
      eexists; eexists; (split; [exact Ht|]); rewrite Hkw; discriminate. }
  assert (H0 : nth_error tokens 0 = Some kw) by (rewrite Hl; reflexivity).
  assert (Hty : Token.type kw <> EOF /\ Token.type kw <> NEWLINE).
  { destruct (Token.type kw); simpl in Hcl; try congruence; split; discriminate. }
  destruct Hty as [Heof Hnl].
  assert (Hp : forall type, check tokens type (length tokens - 1) = TokenType_beq EOF type).
  { intros type. rewrite <- He.
    replace (length tokens - 1)
      with (length (opening ++ separated items ++ finalTokens final ++ [close]))
      by (rewrite !length_app; simpl; lia).
    apply (check_head tokens (opening ++ separated items ++ finalTokens final ++ [close])
                      eof []).
    rewrite Ht, <- !app_assoc. reflexivity. }
  unfold parseTokens, parseStatements.
  rewrite parseStatements_loop_step;
    [| apply (isAtEnd_token _ _ _ H0 Heof)
     | rewrite (check_token _ _ _ _ H0); apply TokenType_beq_neq; exact Heof
     | rewrite (check_token _ _ _ _ H0); apply TokenType_beq_neq; exact Hnl ].
  rewrite (bind_return _ _ _ _ _ E). rewrite bind_ret.
  unfold bind at 1. rewrite !Hp. simpl orb. cbv iota.
  assert (Hend : forall n body,
             0 < n ->
             parseStatements_loop tokens (S (length tokens)) n body (length tokens - 1)
             = Return body (length tokens - 1)).
  { intros n body Hn. destruct n; [lia|]. apply parseStatements_loop_end.
    unfold isAtEnd. rewrite Hp. apply orb_true_r. }
  rewrite Hend by lia. reflexivity.
Qed.

(** ** An assignment *)

Lemma parseTokens_assignment name eq value eof :
  tokens = [name; eq; value; eof] ->
  Token.type name = WORD -> Token.type eq = WORD -> Token.value eq = "="%string ->
  isExpression value -> Token.type eof = EOF ->
  parseTokens tokens
  = Returned (Program.mk [VariableAssignment (Token.value name) (expressionOf value)
                                             (nodePosition tokens 0 3)] None).
Proof.
  intros Ht Hn He Hv Hx Hf.
  assert (H0 : nth_error tokens 0 = Some name) by (rewrite Ht; reflexivity).
  assert (H1 : nth_error tokens 1 = Some eq) by (rewrite Ht; reflexivity).
  assert (H2 : nth_error tokens 2 = Some value) by (rewrite Ht; reflexivity).
  assert (H3 : nth_error tokens 3 = Some eof) by (rewrite Ht; reflexivity).
  assert (Hlen : length tokens = 4) by (rewrite Ht; reflexivity).
  assert (Ha : isVariableAssignment tokens 0 = true).
  { apply isVariableAssignment_iff. split.
    - rewrite (check_token _ _ _ _ H0), Hn. reflexivity.
    - exists eq. auto. }
  assert (Es : parseStatement tokens 5 0
               = Return (Some (VariableAssignment (Token.value name) (expressionOf value)
                                                  (nodePosition tokens 0 3))) 3).
  { simpl parseStatement. rewrite !(check_token _ _ _ _ H0), Hn, Ha.
    simpl TokenType_beq. simpl orb. cbv iota.
    apply some_return. unfold parseVariableAssignment. cbv beta zeta.
    rewrite (bind_advance _ _ _ _ H0) by congruence.
    simpl field. rewrite bind_ret.
    rewrite (bind_return _ _ _ _ _ (consume_at 1 eq WORD _ H1 He ltac:(discriminate))).
    rewrite (bind_return _ _ _ _ _ (parseExpression_at 2 value H2 Hx)).
    reflexivity. }
  unfold parseTokens, parseStatements. rewrite Hlen.
  rewrite parseStatements_loop_step;
    [| apply (isAtEnd_token _ _ _ H0); congruence
     | rewrite (check_token _ _ _ _ H0), Hn; reflexivity
     | rewrite (check_token _ _ _ _ H0), Hn; reflexivity ].
  rewrite (bind_return _ _ _ _ _ Es). rewrite bind_ret.
  unfold bind at 1. rewrite !(check_token _ _ _ _ H3), Hf. simpl orb. cbv iota.
  rewrite parseStatements_loop_end; [reflexivity|].
  unfold isAtEnd. rewrite (check_token _ _ _ _ H3), Hf. apply orb_true_r.
Qed.

End Runs.

End BuilderRuns.

(** * The fields of the nodes *)

Module NodeFacts.
Import BashParser BuilderFacts.
#[local] Open Scope list_scope.

Section Nodes.

Variable tokens : list Token.t.

Lemma BuiltExpression_of i e :
  BuiltExpression tokens i e ->
  exists tok, nth_error tokens i = Some tok /\ isExpression tok /\ e = expressionOf tok.
Proof.
  destruct 1 as [i tok Hn Ha | i tok Hn Ht]; exists tok; unfold isExpression, expressionOf.
  - split; [exact Hn|]. split; [left; exact Ha|].
    destruct Ha as [Ha|Ha]; rewrite Ha; reflexivity.
  - split; [exact Hn|]. split; [right; exact Ht|]. rewrite Ht. reflexivity.
Qed.

Lemma Built_expressions first next s e :
  Built tokens first next s -> In e (expressionsOf s) ->
  exists i, BuiltExpression tokens i e.
Proof.
  intros Hb Hin. inversion Hb; subst; simpl in Hin;
    repeat match goal with
           | H : _ \/ _ |- exists i, BuiltExpression _ i _ => destruct H as [<-|H]
           | H : False |- _ => contradiction
           end; eauto.
Qed.

(** The first and the last token of a statement with a position, and
    the position as [getNodePosition] computes it. *)
Lemma Built_position first next s pos :
  Built tokens first next s -> statementPosition s = Some pos ->
  exists tf tl,
    nth_error tokens first = Some tf /\ starts (Token.type tf) = true /\
    nth_error tokens (next - 1) = Some tl /\ Token.type tl <> EOF /\
    first < next /\ nodePosition tokens first next = Some pos.
Proof.
  intros Hb Hp. pose proof (Built_lt _ _ _ _ Hb) as Hlt.
  inversion Hb; subst; simpl in Hp; try discriminate Hp;
    repeat match goal with
           | H : typeAt _ _ _ |- _ => destruct H as (? & ? & ?)
           | H : BuiltExpression _ _ _ |- _ =>
               apply BuiltExpression_token in H; destruct H as (? & ? & ?)
           end;
    simpl Nat.sub; rewrite ?Nat.sub_0_r.
  - match goal with
    | H : BuiltCommand _ _ _ _ |- _ =>
        destruct (BuiltCommand_last _ _ _ _ H) as (tl & Hl & Hty);
        inversion H; subst
    end.
    simpl in Hp. eexists. exists tl. repeat split; eauto.
    match goal with H : Token.type _ = WORD |- _ => rewrite H end. reflexivity.
  - do 2 eexists. repeat split; eauto; try congruence.
    match goal with H : Token.type _ = IF |- _ => rewrite H end. reflexivity.
  - do 2 eexists. repeat split; eauto; try congruence.
    match goal with H : Token.type _ = IF |- _ => rewrite H end. reflexivity.
  - do 2 eexists. repeat split; eauto; try congruence.
    match goal with H : _ \/ _ |- _ => destruct H as [H|H]; rewrite H; reflexivity end.
  - do 2 eexists. repeat split; eauto; try congruence.
    match goal with H : _ \/ _ |- _ => destruct H as [H|H]; rewrite H; reflexivity end.
  - do 2 eexists. repeat split; eauto; try congruence.
    match goal with H : Token.type _ = FUNCTION |- _ => rewrite H end. reflexivity.
  - do 2 eexists. repeat split; eauto; try congruence.
    match goal with H : Token.type tok = WORD |- _ => rewrite H end. reflexivity.
Qed.

Lemma nodePosition_exact first next tf tn :
  nth_error tokens first = Some tf -> nth_error tokens next = Some tn ->
  Position.end_ (Token.position tn) <> 0 ->
  nodePosition tokens first next
  = Some (Position.mk (Position.start (Token.position tf))
                      (Position.end_ (Token.position tn))
                      (Position.line (Token.position tf))
                      (Position.column (Token.position tf))).
Proof.
  intros Hf Hn He. unfold nodePosition, getNodePosition, currentPosition, currentToken.
  rewrite Hf, Hn. simpl. apply Nat.eqb_neq in He. rewrite He. reflexivity.
Qed.

(** ** The tokens of every node *)

Lemma BuiltPipeline_within first next commands :
  BuiltPipeline tokens first next commands ->
  forall c, In c commands ->
            exists a b, first <= a /\ b <= next /\ BuiltCommand tokens a b c.
Proof.
  induction 1 as [first next c0 Hc | first bar next cs c0 Hp IH Hb Hc]; intros c Hin.
  - destruct Hin as [<-|[]]. exists first, next. auto.
  - pose proof (BuiltPipeline_lt _ _ _ _ Hp). pose proof (BuiltCommand_lt _ _ _ _ Hc).
    apply in_app_or in Hin as [Hin|[<-|[]]].
    + destruct (IH c Hin) as (a & b & ? & ? & ?). exists a, b. repeat split; auto; lia.
    + exists (S bar), next. repeat split; auto; lia.
Qed.

Ltac inside :=
  match goal with
  | IH : forall node, In node ?l -> _, H : In ?n ?l |- _ =>
      let a := fresh "a" in
      let b := fresh "b" in
      destruct (IH _ H) as (a & b & ? & ? & ?); exists a, b;
      repeat split; auto; simpl in *; lia
  end.

(** Every statement node of a derived statement was derived from
    tokens among those of the statement. *)
Lemma Built_within :
  (forall first next s,
      Built tokens first next s ->
      forall node, In node (nodes s) ->
                   exists a b, first <= a /\ b <= next /\ Built tokens a b node) /\
  (forall first next l,
      BuiltBody tokens first next l ->
      forall node, In node (flat_map nodes l) ->
                   exists a b, first <= a /\ b <= next /\ Built tokens a b node).
Proof.
  apply Built_BuiltBody_ind; intros; simpl in *;
    try match goal with
        | H : _ = ?node \/ _ |- exists a b, _ /\ _ /\ Built _ a b ?node =>
            destruct H as [<-|H];
            [ do 2 eexists; (split; [|split; [|solve [econstructor; eauto]]]); lia |]
        end;
    repeat match goal with
           | H : BuiltBody _ _ _ _ |- _ => apply BuiltBody_le in H
           | H : Built _ _ _ _ |- _ => apply Built_lt in H
           | H : In _ (_ ++ []) |- _ => rewrite app_nil_r in H
           | H : In _ (flat_map nodes (_ ++ [_])) |- _ => rewrite flat_map_nodes_snoc in H
           | H : In _ (_ ++ _) |- _ => apply in_app_or in H; destruct H
           end;
    try contradiction; try inside.
  apply in_map_iff in H1 as (c & <- & Hin).
  destruct (BuiltPipeline_within _ _ _ H c Hin) as (a & b & ? & ? & Hc).
  exists a, b. repeat split; auto. constructor. exact Hc.
Qed.

Lemma Built_expressions_within first next s e :
  Built tokens first next s -> In e (expressionsOf s) ->
  exists i, first <= i /\ i < next /\ BuiltExpression tokens i e.
Proof.
  intros Hb Hin. inversion Hb; subst; simpl in Hin;
    repeat match goal with
           | H : BuiltBody _ _ _ _ |- _ => apply BuiltBody_le in H
           | H : _ \/ _ |- exists i, _ => destruct H as [<-|H]
           | H : False |- _ => contradiction
           end;
    eexists; (split; [|split; [|eassumption]]); simpl in *; lia.
Qed.

Section Spans.

Hypothesis ascend : endsAscend tokens.
Hypothesis last : eofLast tokens.

Lemma Built_encloses first next s :
  Built tokens first next s -> encloses tokens first next (statementPosition s).
Proof.
  intros Hb. apply (proj1 (Built_Enclosed tokens ascend last)) in Hb.
  inversion Hb; subst; simpl; assumption.
Qed.

(** What the positions of a derived node and of its expressions
    enclose. *)
Lemma Built_spans first next s :
  Built tokens first next s ->
  encloses tokens first next (statementPosition s) /\
  forall e, In e (expressionsOf s) ->
            exists i, first <= i /\ i < next /\ BuiltExpression tokens i e /\
                      encloses tokens i (S i) (expressionPosition e).
Proof.
  intros Hb. split; [apply Built_encloses; exact Hb|].
  intros e He. destruct (Built_expressions_within _ _ _ _ Hb He) as (i & H1 & H2 & Hi).
  exists i. repeat split; auto. apply (BuiltExpression_encloses tokens i e Hi).
Qed.

End Spans.

End Nodes.

End NodeFacts.

(** * Further statements: the scanner *)

(** X1: the line of a token is one more than the number of newlines
    before its start offset, and its column one more than the number of
    characters between the last of these newlines and that offset. *)
Theorem token_line_and_column source tokens tok :
  Tokenizer.tokenize source = Some tokens -> In tok tokens ->
  let before :=
    firstn (Position.start (Token.position tok)) (list_ascii_of_string source) in
  Position.line (Token.position tok) = S (newlinesIn before) /\
  Position.column (Token.position tok) = S (untilNewline (rev before)).
Proof.
  intros H Hin before.
  destruct (ScanFacts.tokenize_scanned _ _ H) as (Hall & _).
  rewrite Forall_forall in Hall. destruct (Hall tok Hin) as ((_ & _ & _ & Hlc) & _).
  fold before in Hlc. rewrite ScanFacts.cursorAfter_counts in Hlc.
  inversion Hlc. auto.
Qed.

Lemma token_line_and_column_witness :
  let tok := Token.mk WORD "f" (Position.mk 7 8 2 5) in
  let before := firstn 7 (list_ascii_of_string (lines ["ls"; "cat f"])) in
  Position.line (Token.position tok) = S (newlinesIn before) /\
  Position.column (Token.position tok) = S (untilNewline (rev before)).
Proof.
  intros tok before.
  eapply (token_line_and_column (lines ["ls"; "cat f"]) _ tok);
    [vm_compute; reflexivity | simpl; tauto].
Defined.

(** X2: the spans of the tokens lie in the input and follow one another
    in the order of the source without overlap; the span of a token
    other than [EOF] holds one character at least. *)
Theorem token_spans_are_ordered source tokens :
  Tokenizer.tokenize source = Some tokens ->
  ordered tokens /\
  Forall (fun tok =>
            let pos := Token.position tok in
            Position.start pos <= Position.end_ pos /\
            Position.end_ pos <= String.length source /\
            (Token.type tok <> EOF -> Position.start pos < Position.end_ pos))
         tokens.
Proof.
  intros H. destruct (ScanFacts.tokenize_scanned _ _ H) as (Hall & Ho & _).
  split; [exact Ho|]. eapply Forall_impl; [|exact Hall].
  intros tok ((H1 & H2 & H3 & _) & _). cbv zeta.
  rewrite ScanFacts.length_chars in H2. auto.
Qed.

Lemma token_spans_are_ordered_witness :
  exists tokens,
    Tokenizer.tokenize "ls|wc" = Some tokens /\ ordered tokens /\
    Forall (fun tok =>
              let pos := Token.position tok in
              Position.start pos <= Position.end_ pos /\
              Position.end_ pos <= 5 /\
              (Token.type tok <> EOF -> Position.start pos < Position.end_ pos))
           tokens.
Proof.
  eexists. split; [vm_compute; reflexivity|].
  apply (token_spans_are_ordered "ls|wc"). vm_compute. reflexivity.
Defined.

(** X3: the sequence [tokenize] returns ends with the one token of kind
    [EOF] it holds: it has no text, and its span is empty at the length
    of the input, with the line and the column counted over the whole
    input. *)
Theorem eof_token_closes_the_sequence source tokens :
  Tokenizer.tokenize source = Some tokens ->
  exists body,
    tokens = body ++ [eofAt (list_ascii_of_string source)] /\
    Forall (fun tok => Token.type tok <> EOF) body.
Proof.
  intros H. destruct (ScanFacts.tokenize_scanned _ _ H) as (_ & _ & body & eof & E & _).
  subst tokens. exists body. apply ScanFacts.tokenize_last in H as [<- Hb]. auto.
Qed.

Lemma eof_token_closes_the_sequence_witness :
  exists body,
    [ Token.mk WORD "ls" (Position.mk 0 2 1 1);
      Token.mk NEWLINE NL (Position.mk 2 3 1 3);
      Token.mk EOF EmptyString (Position.mk 3 3 2 1) ]
    = body ++ [eofAt (list_ascii_of_string (lines ["ls"; EmptyString]))] /\
    Forall (fun tok => Token.type tok <> EOF) body.
Proof.
  apply (eof_token_closes_the_sequence (lines ["ls"; EmptyString])).
  vm_compute. reflexivity.
Defined.

(** X4: the text of a token is read off the source text of its span: it
    is that text for a word, a keyword, an operator and a newline; a
    comment leaves out the [#], and a variable the [$] or the braces
    [${] and [}], of which the closing one may be missing. *)
Theorem token_text_is_the_source_text source tokens tok :
  Tokenizer.tokenize source = Some tokens -> In tok tokens ->
  let text := sourceText (list_ascii_of_string source)
                         (Position.start (Token.position tok))
                         (Position.end_ (Token.position tok)) in
  (plainKind (Token.type tok) = true -> text = Token.value tok) /\
  (Token.type tok = COMMENT -> text = "#" ++ Token.value tok)%string /\
  (Token.type tok = VARIABLE ->
   text = "$" ++ Token.value tok \/
   text = "${" ++ Token.value tok ++ "}" \/
   text = "${" ++ Token.value tok)%string.
Proof.
  intros H Hin text.
  destruct (ScanFacts.tokenize_scanned _ _ H) as (Hall & _).
  rewrite Forall_forall in Hall. destruct (Hall tok Hin) as (_ & Hs & _).
  unfold spelled in Hs. fold text in Hs.
  destruct (Token.type tok); simpl; repeat split; intros E; try discriminate; exact Hs.
Qed.

Lemma token_text_is_the_source_text_witness :
  let tok := Token.mk VARIABLE "HOME" (Position.mk 5 12 1 6) in
  let text := sourceText (list_ascii_of_string "echo ${HOME} # home") 5 12 in
  (plainKind (Token.type tok) = true -> text = Token.value tok) /\
  (Token.type tok = COMMENT -> text = "#" ++ Token.value tok)%string /\
  (Token.type tok = VARIABLE ->
   text = "$" ++ Token.value tok \/
   text = "${" ++ Token.value tok ++ "}" \/
   text = "${" ++ Token.value tok)%string.
Proof.
  intros tok text.
  eapply (token_text_is_the_source_text "echo ${HOME} # home" _ tok);
    [vm_compute; reflexivity | simpl; tauto].
Defined.

(** X5: the kind of a token fixes its text, for an operator, a keyword
    and a newline; a [WORD] never reads as a keyword, nor as a key that
    the keyword table inherits; and a token that carries its source text
    and reads as a keyword has the kind the table gives. *)
Theorem token_kind_fixes_its_text source tokens tok :
  Tokenizer.tokenize source = Some tokens -> In tok tokens ->
  kindText tok /\
  forall kind,
    plainKind (Token.type tok) = true ->
    Tokenizer.getKeywordType (Token.value tok) = Some kind ->
    Token.type tok = kind.
Proof.
  intros H Hin.
  destruct (ScanFacts.tokenize_scanned _ _ H) as (Hall & _).
  rewrite Forall_forall in Hall. destruct (Hall tok Hin) as (_ & _ & Hk).
  split; [exact Hk|]. intros kind Hp Hg. unfold kindText in Hk.
  destruct (Token.type tok); try discriminate Hp; cbv zeta in Hk;
    try (rewrite Hk in Hg; vm_compute in Hg; congruence).
  simpl in Hk.
  repeat (destruct Hk as [Hk|Hk];
          [rewrite <- Hk in Hg; vm_compute in Hg; congruence|]).
  contradiction.
Qed.

Lemma token_kind_fixes_its_text_witness :
  let tok := Token.mk DONE "done" (Position.mk 13 17 1 14) in
  kindText tok /\
  forall kind,
    plainKind (Token.type tok) = true ->
    Tokenizer.getKeywordType (Token.value tok) = Some kind ->
    Token.type tok = kind.
Proof.
  intros tok.
  eapply (token_kind_fixes_its_text "while x do y done" _ tok);
    [vm_compute; reflexivity | simpl; tauto].
Defined.

(** X6: a quoted string reads the text between its quotes with every
    backslash dropped and the character after it kept, whichever quote
    opened it; where the closing quote is missing the string runs to the
    end of the input and no error is raised. *)
Theorem quoted_string_is_unescaped s quote body rest (closed : bool) :
  quote = "034"%char \/ quote = "'"%char ->
  unread s = quote :: body ++ (if closed then quote :: rest else []) ->
  quotable quote body ->
  exists s',
    Tokenizer.nextToken s
    = (Some (Token.mk QUOTED_STRING (string_of_list_ascii (unescape body))
                      (spanFrom s (S (length body) + if closed then 1 else 0))), s') /\
    unread s' = if closed then rest else [].
Proof.
  intros Hq Hu Hb. rewrite (ScanRuns.nextToken_quoted _ _ _ Hq Hu).
  destruct (ScanRuns.readQuotedString_run s quote body rest closed) as (s' & E & Hu'); auto.
  { destruct Hq; subst; discriminate. }
  exists s'. unfold Tokenizer.some. rewrite E. auto.
Qed.

Lemma quoted_string_is_unescaped_witness :
  exists s',
    Tokenizer.nextToken (Tokenizer.init "'it\'s' x")
    = (Some (Token.mk QUOTED_STRING "it's" (Position.mk 0 7 1 1)), s') /\
    unread s' = [" "; "x"]%char.
Proof.
  apply (quoted_string_is_unescaped (Tokenizer.init "'it\'s' x") "'"%char
           ["i"; "t"; "\"; "'"; "s"]%char [" "; "x"]%char true);
    [right; reflexivity | reflexivity | simpl; repeat split; discriminate].
Defined.

(** X7: a comment reads the text after its [#] up to the end of the
    line, and leaves the newline unread. *)
Theorem comment_runs_to_the_end_of_line s text rest :
  unread s = "#"%char :: text ++ rest ->
  Forall (fun c => c <> "010"%char) text ->
  (forall c, hd_error rest = Some c -> c = "010"%char) ->
  exists s',
    Tokenizer.nextToken s
    = (Some (Token.mk COMMENT (string_of_list_ascii text) (spanFrom s (S (length text)))),
       s') /\
    unread s' = rest.
Proof.
  intros Hu Ht Hr. rewrite (ScanRuns.nextToken_comment _ _ Hu).
  destruct (ScanRuns.readComment_run s text rest Hu Ht Hr) as (s' & E & Hu').
  exists s'. unfold Tokenizer.some. rewrite E. auto.
Qed.

Lemma comment_runs_to_the_end_of_line_witness :
  exists s',
    Tokenizer.nextToken (Tokenizer.init (lines ["# a|b"; "ls"]))
    = (Some (Token.mk COMMENT " a|b" (Position.mk 0 5 1 1)), s') /\
    unread s' = ["010"; "l"; "s"]%char.
Proof.
  apply (comment_runs_to_the_end_of_line (Tokenizer.init (lines ["# a|b"; "ls"]))
           [" "; "a"; "|"; "b"]%char ["010"; "l"; "s"]%char);
    [ reflexivity
    | repeat constructor; discriminate
    | intros c H; inversion H; reflexivity ].
Defined.

(** X8: after a [$] the name of a variable is the longest run of word
    characters, which may be empty. *)
Theorem variable_name_is_the_longest_run s name rest :
  unread s = "$"%char :: name ++ rest ->
  Forall (fun c => Tokenizer.wordClass c = true) name ->
  (forall c, hd_error rest = Some c -> Tokenizer.wordClass c = false) ->
  hd_error (name ++ rest) <> Some "{"%char ->
  exists s',
    Tokenizer.nextToken s
    = (Some (Token.mk VARIABLE (string_of_list_ascii name) (spanFrom s (S (length name)))),
       s') /\
    unread s' = rest.
Proof.
  intros Hu Hn Hr Hb. rewrite (ScanRuns.nextToken_variable _ _ Hu).
  destruct (ScanRuns.readVariable_name_run s name rest Hu Hn Hr Hb) as (s' & E & Hu').
  exists s'. unfold Tokenizer.some. rewrite E. auto.
Qed.

Lemma variable_name_is_the_longest_run_witness :
  exists s',
    Tokenizer.nextToken (Tokenizer.init "$a_1+2")
    = (Some (Token.mk VARIABLE "a_1" (Position.mk 0 4 1 1)), s') /\
    unread s' = ["+"; "2"]%char.
Proof.
  apply (variable_name_is_the_longest_run (Tokenizer.init "$a_1+2")
           ["a"; "_"; "1"]%char ["+"; "2"]%char);
    [ reflexivity
    | repeat constructor
    | intros c H; inversion H; reflexivity
    | discriminate ].
Defined.

(** X9: between [${] and the next [}] the name of a variable is the
    text as it stands, whatever its characters; where the [}] is missing
    the name runs to the end of the input and no error is raised. *)
Theorem braced_variable_name_is_the_text s name rest (closed : bool) :
  unread s = "$"%char :: "{"%char :: name ++ (if closed then "}"%char :: rest else []) ->
  Forall (fun c => c <> "}"%char) name ->
  exists s',
    Tokenizer.nextToken s
    = (Some (Token.mk VARIABLE (string_of_list_ascii name)
                      (spanFrom s (2 + length name + if closed then 1 else 0))), s') /\
    unread s' = if closed then rest else [].
Proof.
  intros Hu Hn. rewrite (ScanRuns.nextToken_variable _ _ Hu).
  destruct (ScanRuns.readVariable_braces_run s name rest closed Hu Hn) as (s' & E & Hu').
  exists s'. unfold Tokenizer.some. rewrite E. auto.
Qed.

Lemma braced_variable_name_is_the_text_witness :
  exists s',
    Tokenizer.nextToken (Tokenizer.init "${a b")
    = (Some (Token.mk VARIABLE "a b" (Position.mk 0 5 1 1)), s') /\
    unread s' = [].
Proof.
  apply (braced_variable_name_is_the_text (Tokenizer.init "${a b")
           ["a"; " "; "b"]%char [] false);
    [ reflexivity | repeat constructor; discriminate ].
Defined.

(** X10: a word is the longest run of word characters; its kind is the
    one the keyword table gives its text, and [WORD] where the table has
    none. *)
Theorem word_is_the_longest_run s word rest :
  unread s = word ++ rest -> word <> [] ->
  Forall (fun c => Tokenizer.wordClass c = true) word ->
  (forall c, hd_error rest = Some c -> Tokenizer.wordClass c = false) ->
  exists s',
    Tokenizer.nextToken s
    = (Some (Token.mk (wordKind (string_of_list_ascii word)) (string_of_list_ascii word)
                      (spanFrom s (length word))), s') /\
    unread s' = rest.
Proof.
  intros Hu Hne Hw Hr. destruct word as [|c w]; [contradiction|].
  pose proof Hw as Hw'. apply Forall_cons_iff in Hw' as [Hc _].
  destruct (ScanRuns.wordClass_plain c Hc) as [Hs Hb].
  rewrite (ScanRuns.nextToken_word s c (w ++ rest) Hu Hs Hb).
  destruct (ScanRuns.readWord_run s (c :: w) rest Hu Hne Hw Hr) as (s' & E & Hu').
  exists s'. unfold Tokenizer.some. rewrite E. auto.
Qed.

Lemma word_is_the_longest_run_witness :
  exists s',
    Tokenizer.nextToken (Tokenizer.init "done;")
    = (Some (Token.mk DONE "done" (Position.mk 0 4 1 1)), s') /\
    unread s' = [";"]%char.
Proof.
  apply (word_is_the_longest_run (Tokenizer.init "done;")
           ["d"; "o"; "n"; "e"]%char [";"]%char);
    [ reflexivity
    | discriminate
    | repeat constructor
    | intros c H; inversion H; reflexivity ].
Defined.

(** X11: a character that is no blank, starts no comment, newline,
    operator, quoted string or variable, and is no word character, is a
    [WORD] token of its own: no character is refused. *)
Theorem other_character_is_a_word s c rest :
  unread s = c :: rest -> ~ In c special ->
  Tokenizer.blankClass c = false -> Tokenizer.wordClass c = false ->
  Tokenizer.nextToken s
  = (Some (Token.mk WORD (String c EmptyString) (spanFrom s 1)), Tokenizer.advance s) /\
  unread (Tokenizer.advance s) = rest.
Proof.
  intros Hu Hs Hb Hw. rewrite (ScanRuns.nextToken_word s c rest Hu Hs Hb).
  destruct (ScanRuns.readWord_other s c rest Hu Hw) as [E Hu'].
  unfold Tokenizer.some. rewrite E. auto.
Qed.

Lemma other_character_is_a_word_witness :
  Tokenizer.nextToken (Tokenizer.init "=1")
  = (Some (Token.mk WORD "=" (Position.mk 0 1 1 1)),
     Tokenizer.advance (Tokenizer.init "=1")) /\
  unread (Tokenizer.advance (Tokenizer.init "=1")) = ["1"]%char.
Proof.
  apply (other_character_is_a_word (Tokenizer.init "=1") "="%char ["1"]%char);
    [ reflexivity
    | simpl; intros H; repeat (destruct H as [H|H]; [discriminate|]); exact H
    | reflexivity | reflexivity ].
Defined.

(** * Further statements: the errors *)

(** X12: a [ParseError] the methods of the builder throw on the tokens
    of a source, which [parse] hands on as it is, carries one of
    fourteen messages, never [Expected 'if'] nor [Expected 'function'],
    which the statement dispatch rules out, and the position of a token
    of the source, whatever the bound of the loops and of the recursion;
    where that bound is above the number of the tokens the methods
    throw no [TypeError], [advance()] returning a token wherever a field
    of it is read, and do not use the bound up. *)
Theorem errors_carry_a_position_and_an_expectation source tokens fuel :
  Tokenizer.tokenize source = Some tokens ->
  match BashParser.parseStatements tokens fuel 0 with
  | BashParser.Throw (BashParser.Parse e) _ =>
      In (ParseError.message e) expectations /\
      ParseError.message e <> "Expected 'if'" /\
      ParseError.message e <> "Expected 'function'" /\
      exists tok, In tok tokens /\ ParseError.position e = Some (Token.position tok)
  | BashParser.Throw BashParser.TypeError _ => fuel <= length tokens
  | BashParser.OutOfFuel => fuel <= length tokens
  | BashParser.Return _ position => position < length tokens
  end.
Proof.
  intros Ht.
  destruct (TokenizerFacts.tokenize_total source) as (tokens' & Ht' & Hz).
  rewrite Ht in Ht'. inversion Ht'; subst tokens'; clear Ht'.
  assert (H0 : 0 < length tokens).
  { destruct Hz as (body & eof & -> & _). rewrite length_app. simpl. lia. }
  pose proof (ErrorFacts.parseStatements_loop_raises
                tokens (BuilderFacts.tokenized_eofLast _ Hz) fuel fuel [] 0 H0) as Hr.
  assert (Hs : length tokens < fuel ->
               sat (BashParser.parseStatements tokens fuel 0) (fun _ _ => True)).
  { intros Hf.
    pose proof (BuilderFacts.parseStatements_loop_sat tokens fuel fuel [] 0) as H.
    unfold BashParser.parseStatements.
    destruct (BashParser.parseStatements_loop tokens fuel fuel [] 0)
      as [body p|[e|] p|]; simpl in *; auto; apply H; try lia; apply Built_nil. }
  unfold BashParser.parseStatements in *.
  destruct (BashParser.parseStatements_loop tokens fuel fuel [] 0)
    as [body p|[e|] p|]; simpl in *.
  - exact Hr.
  - destruct Hr as (Hi & t & Hn & Hpos).
    assert (Hno : ParseError.message e <> "Expected 'if'" /\
                  ParseError.message e <> "Expected 'function'").
    { clear - Hi. simpl in Hi.
      repeat (destruct Hi as [<-|Hi]; [split; discriminate|]). contradiction. }
    destruct Hno as [H1 H2].
    split; [exact Hi|]. split; [exact H1|]. split; [exact H2|].
    exists t. split; [eapply nth_error_In; exact Hn | exact Hpos].
  - destruct (Nat.le_gt_cases fuel (length tokens)) as [Hle|Hgt]; [exact Hle|].
    destruct (Hs Hgt).
  - destruct (Nat.le_gt_cases fuel (length tokens)) as [Hle|Hgt]; [exact Hle|].
    destruct (Hs Hgt).
Qed.

Lemma errors_carry_a_position_and_an_expectation_witness :
  In "Expected 'done'" expectations /\
  "Expected 'done'" <> "Expected 'if'" /\
  "Expected 'done'" <> "Expected 'function'" /\
  exists tok,
    In tok [token1 WHILE "while" 0 5; token1 WORD "x" 6 7; token1 DO "do" 8 10;
            token1 WORD "ls" 11 13; token1 EOF EmptyString 13 13] /\
    Some (Position.mk 13 13 1 14) = Some (Token.position tok).
Proof.
  exact (errors_carry_a_position_and_an_expectation
           "while x do ls"
           [token1 WHILE "while" 0 5; token1 WORD "x" 6 7; token1 DO "do" 8 10;
            token1 WORD "ls" 11 13; token1 EOF EmptyString 13 13]
           6 ltac:(vm_compute; reflexivity)).
Defined.

(** X13: the text of an error [parse] raises always names the line and
    the column of a token of the input before the message. *)
Theorem errors_render_with_line_and_column source error :
  parse source = Raised error ->
  exists tokens tok,
    Tokenizer.tokenize source = Some tokens /\ In tok tokens /\
    ParseError.toString error
    = ("ParseError at line " ++ ParseError.decimal (Position.line (Token.position tok))
         ++ ", column " ++ ParseError.decimal (Position.column (Token.position tok))
         ++ ": " ++ ParseError.message error)%string.
Proof.
  intros H. apply ErrorFacts.parse_raises in H as (tokens & tok & Ht & Hin & _ & Hp).
  exists tokens, tok. split; [exact Ht|]. split; [exact Hin|].
  unfold ParseError.toString. rewrite Hp. reflexivity.
Qed.

Lemma errors_render_with_line_and_column_witness :
  exists tokens tok,
    Tokenizer.tokenize (lines ["ls"; "if x"]) = Some tokens /\ In tok tokens /\
    "ParseError at line 2, column 5: Expected 'then'"
    = ("ParseError at line " ++ ParseError.decimal (Position.line (Token.position tok))
         ++ ", column " ++ ParseError.decimal (Position.column (Token.position tok))
         ++ ": " ++ "Expected 'then'")%string.
Proof.
  apply (errors_render_with_line_and_column
           (lines ["ls"; "if x"])
           (ParseError.mk "Expected 'then'" (Some (Position.mk 7 7 2 5)))).
  vm_compute. reflexivity.
Defined.

(** * Further statements: the tree *)

(** X14: in the tree [parse] returns, a loop of kind [for] has a
    variable and an iterable and no condition, and a loop of kind
    [while] has a condition and neither variable nor iterable. *)
Theorem loop_fields_follow_its_kind source program kind condition variable iterable
        body position :
  parse source = Returned program ->
  In (Loop kind condition variable iterable body position) (programNodes program) ->
  (kind = "for" /\ condition = None /\
   exists name e, variable = Some name /\ iterable = Some e) \/
  (kind = "while" /\ variable = None /\ iterable = None /\
   exists e, condition = Some e).
Proof.
  intros H Hin.
  destruct (TreeFacts.parse_each _ _ _ H Hin) as (tokens & a & b & Ht & Hb).
  inversion Hb; subst.
  - left. repeat split; eauto.
  - right.
    match goal with
    | Hn : nth_error tokens _ = Some ?tok, Hty : _ \/ _ |- _ =>
        pose proof (TreeFacts.scanned_kindText _ _ _ _ Ht Hn) as Hk;
        unfold kindText in Hk; destruct Hty as [Hty|Hty]; rewrite Hty in Hk
    end.
    + congruence.
    + cbv zeta in Hk. rewrite Hk. repeat split; eauto.
Qed.

Lemma loop_fields_follow_its_kind_witness :
  ("for" = "for" /\ @None Expression = None /\
   exists name e, Some "f" = Some name /\
                  Some (Literal "x" false (Some (Position.mk 9 10 1 10))) = Some e) \/
  ("for" = "while" /\ Some "f" = None /\
   Some (Literal "x" false (Some (Position.mk 9 10 1 10))) = None /\
   exists e, @None Expression = Some e).
Proof.
  eapply (loop_fields_follow_its_kind "for f in x do ls done");
    [vm_compute; reflexivity | simpl; left; reflexivity].
Defined.

(** X15: in the tree [parse] returns, the name of a command, of a
    function, of an assigned variable and of the variable of a [for]
    loop is never a keyword: it is the text of a [WORD] token. *)
Theorem names_are_no_keywords source program node name :
  parse source = Returned program -> In node (programNodes program) ->
  nodeName node = Some name ->
  Tokenizer.getKeywordType name = None.
Proof.
  intros H Hin Hname.
  destruct (TreeFacts.parse_each _ _ _ H Hin) as (tokens & a & b & Ht & Hb).
  inversion Hb; subst; simpl in Hname; try discriminate;
    try (inversion Hname; subst; eapply TreeFacts.scanned_word; eauto; fail).
  match goal with
  | Hc : BuiltCommand _ _ _ _ |- _ => inversion Hc; subst
  end.
  simpl in Hname. inversion Hname; subst. eapply TreeFacts.scanned_word; eauto.
Qed.

Lemma names_are_no_keywords_witness :
  Tokenizer.getKeywordType "greet" = None.
Proof.
  eapply (names_are_no_keywords "function greet ( ) { echo hi }" _ _ "greet");
    [vm_compute; reflexivity | simpl; left; reflexivity | reflexivity].
Defined.

(** * Further statements: the statements of a program *)

(** X16: a token that starts no statement is passed over without an
    error: a source with no word and none of [if], [for], [while] and
    [function] among its tokens parses to the empty program. *)
Theorem tokens_that_start_no_statement_are_dropped source tokens :
  Tokenizer.tokenize source = Some tokens ->
  Forall (fun tok => starts (Token.type tok) = false) tokens ->
  parse source = Returned (Program.mk [] None).
Proof.
  intros Ht Hall. unfold parse. rewrite Ht.
  apply BuilderRuns.parseTokens_inert. exact Hall.
Qed.

Lemma tokens_that_start_no_statement_are_dropped_witness :
  parse "fi ) > $x 'a b' ; done # c" = Returned (Program.mk [] None).
Proof.
  eapply (tokens_that_start_no_statement_are_dropped "fi ) > $x 'a b' ; done # c");
    [vm_compute; reflexivity | repeat constructor].
Defined.

(** X17: where the tokens of the source are commands and pipelines
    ([WORD] tokens with [WORD] and [QUOTED_STRING] arguments, [PIPE]
    tokens between the commands), each followed by one token that is no
    word, no quoted string, no bar and no comment and starts no statement
    (a semicolon, a newline, a redirection, [&&], a variable, ...), and
    where in none of them the token after the first word reads [=] (be
    it an argument, a bar or the token that follows the statement: the
    dispatch would take the statement for an assignment), [parse] returns
    the statements in the order of the source, the token between them
    left out; the last statement may stand before the end of the
    input. *)
Theorem statements_follow_one_another source items final eof :
  Tokenizer.tokenize source = Some (separated items ++ finalTokens final ++ [eof]) ->
  Forall (fun item => isPiped (fst item) (snd item) /\
                      separator (Token.type (snd item)) = true) items ->
  (forall s, final = Some s -> isPiped s eof) ->
  exists stmts,
    parse source = Returned (Program.mk stmts None) /\
    Forall2 pipedStatement (map fst items ++ finalItems final) stmts.
Proof.
  intros Ht Hi Hf. unfold parse. rewrite Ht.
  apply (BuilderRuns.parseTokens_separated _ items final eof); auto.
  rewrite app_assoc in Ht. apply ScanFacts.tokenize_last in Ht as [-> _]. reflexivity.
Qed.

Lemma statements_follow_one_another_witness :
  exists stmts,
    parse "ls -l | wc; echo hi > out" = Returned (Program.mk stmts None) /\
    Forall2 pipedStatement
            [ ([token1 WORD "ls" 0 2; token1 WORD "-l" 3 5],
               [(token1 PIPE "|" 6 7, [token1 WORD "wc" 8 10])]);
              ([token1 WORD "echo" 12 16; token1 WORD "hi" 17 19], []);
              ([token1 WORD "out" 22 25], []) ]
            stmts.
Proof.
  apply (statements_follow_one_another
           "ls -l | wc; echo hi > out"
           [ (([token1 WORD "ls" 0 2; token1 WORD "-l" 3 5],
               [(token1 PIPE "|" 6 7, [token1 WORD "wc" 8 10])]),
              token1 SEMICOLON ";" 10 11);
             (([token1 WORD "echo" 12 16; token1 WORD "hi" 17 19], []),
              token1 REDIRECT_OUT ">" 20 21) ]
           (Some ([token1 WORD "out" 22 25], []))
           (token1 EOF EmptyString 25 25)).
  - vm_compute. reflexivity.
  - repeat (apply Forall_cons || apply Forall_nil);
      (split; [|reflexivity]); (split; [|split]);
      try (intros tok E; inversion E; subst; discriminate);
      repeat (constructor || split).
  - intros s E. inversion E; subst. split; [|split];
      try (intros tok E'; inversion E'; subst; discriminate);
      repeat (constructor || split).
Defined.

(** X18: where the source starts with a command or a pipeline, of which
    the token after the first word does not read [=], and a bar comes
    after it that no [WORD] token follows, [parse] raises
    [Expected command name], with the position of the token after the
    bar. *)
Theorem bar_without_a_command_raises source s bar tok rest :
  Tokenizer.tokenize source = Some (pipedTokens s ++ bar :: tok :: rest) ->
  isPiped s bar -> Token.type bar = PIPE -> Token.type tok <> WORD ->
  parse source
  = Raised (ParseError.mk "Expected command name" (Some (Token.position tok))).
Proof.
  intros Ht Hs Hb Hw. unfold parse. rewrite Ht.
  apply (BuilderRuns.parseTokens_bar _ s bar tok rest); auto.
Qed.

Lemma bar_without_a_command_raises_witness :
  parse "ls | 'wc'"
  = Raised (ParseError.mk "Expected command name" (Some (Position.mk 5 9 1 6))).
Proof.
  apply (bar_without_a_command_raises
           "ls | 'wc'" ([token1 WORD "ls" 0 2], []) (token1 PIPE "|" 3 4)
           (token1 QUOTED_STRING "wc" 5 9) [token1 EOF EmptyString 9 9]).
  - vm_compute. reflexivity.
  - split; [|split];
      try (intros tok E; inversion E; subst; discriminate);
      repeat (constructor || split).
  - reflexivity.
  - discriminate.
Defined.

(** X19: a source that starts with [if] and has no [fi], with [for] or
    [while] and has no [done], or with [function] and has no [}], never
    parses to a program: [parse] raises. *)
Theorem unclosed_construct_raises source tok rest kind :
  Tokenizer.tokenize source = Some (tok :: rest) ->
  closer (Token.type tok) = Some kind ->
  Forall (fun t => Token.type t <> kind) rest ->
  exists error, parse source = Raised error.
Proof.
  intros Ht Hc Hall. unfold parse. rewrite Ht.
  apply (BuilderRuns.parseTokens_unclosed _ tok rest kind); auto.
  constructor; [|exact Hall].
  destruct (Token.type tok); try discriminate Hc; inversion Hc; discriminate.
Qed.

Lemma unclosed_construct_raises_witness :
  exists error, parse "while x do ls | wc" = Raised error.
Proof.
  eapply (unclosed_construct_raises "while x do ls | wc" _ _ DONE);
    [vm_compute; reflexivity | reflexivity | repeat constructor; discriminate].
Defined.

(** * Further statements: blanks and operators *)

(** X20: the blanks before a token are skipped: they make no token and
    leave the line as it is, and the token after them is read as if the
    scan had started there. *)
Theorem blanks_before_a_token_are_skipped s blanks rest :
  unread s = blanks ++ rest ->
  Forall (fun c => Tokenizer.blankClass c = true) blanks ->
  (forall c, hd_error rest = Some c -> Tokenizer.blankClass c = false) ->
  exists s',
    unread s' = rest /\
    Tokenizer.position s' = Tokenizer.position s + length blanks /\
    Tokenizer.line s' = Tokenizer.line s /\
    Tokenizer.column s' = Tokenizer.column s + length blanks /\
    Tokenizer.nextToken s = Tokenizer.nextToken s'.
Proof.
  intros Hu Hb Hr.
  destruct (ScanRuns.skipWhitespace_run blanks s rest Hu Hb Hr) as (H1 & H2 & H3 & H4).
  exists (Tokenizer.skipWhitespace s). repeat split; auto.
  unfold Tokenizer.nextToken.
  rewrite (ScanRuns.skipWhitespace_done (Tokenizer.skipWhitespace s) rest H1 Hr).
  reflexivity.
Qed.

Lemma blanks_before_a_token_are_skipped_witness :
  exists s',
    unread s' = ["l"; "s"]%char /\
    Tokenizer.position s' = 2 /\ Tokenizer.line s' = 1 /\ Tokenizer.column s' = 3 /\
    Tokenizer.nextToken (Tokenizer.init (TAB ++ " ls")) = Tokenizer.nextToken s'.
Proof.
  apply (blanks_before_a_token_are_skipped
           (Tokenizer.init (TAB ++ " ls")) ["009"; " "]%char ["l"; "s"]%char);
    [ reflexivity
    | repeat constructor
    | intros c H; inversion H; reflexivity ].
Defined.

(** X21: [|], [&] and [>] take the character after them when it is the
    same, for [||], [&&] and [>>], and stand alone otherwise. *)
Theorem operator_takes_the_longer_form s c two one rest :
  In (c, two, one) operators -> unread s = c :: rest ->
  (forall rest', rest = c :: rest' ->
     Tokenizer.nextToken s
     = (Some (Token.mk two (String c (String c EmptyString)) (spanFrom s 2)),
        Tokenizer.advance (Tokenizer.advance s)) /\
     unread (Tokenizer.advance (Tokenizer.advance s)) = rest') /\
  (hd_error rest <> Some c ->
     Tokenizer.nextToken s
     = (Some (Token.mk one (String c EmptyString) (spanFrom s 1)), Tokenizer.advance s) /\
     unread (Tokenizer.advance s) = rest).
Proof.
  intros Hin Hu. rewrite (ScanRuns.nextToken_operator s c two one rest Hin Hu).
  destruct (ScanRuns.unread_cons _ _ _ Hu) as (Hc & Hi & Hu1 & Hp1).
  unfold Tokenizer.some, Tokenizer.operator. split.
  - intros rest' ->.
    destruct (ScanRuns.unread_cons _ _ _ Hu1) as (Hc1 & Hi1 & Hu2 & Hp2).
    rewrite Hc1, String.eqb_refl. simpl fst. simpl snd. split; [|exact Hu2].
    f_equal. f_equal. unfold Tokenizer.createToken, Tokenizer.getPosition, spanFrom.
    simpl. f_equal. f_equal. lia.
  - intros Hne.
    assert (E : (Tokenizer.current (Tokenizer.advance s) =? String c EmptyString)%string
                = false).
    { destruct rest as [|d rest].
      - destruct (ScanRuns.unread_nil _ Hu1) as [_ ->]. reflexivity.
      - destruct (ScanRuns.unread_cons _ _ _ Hu1) as (-> & _).
        rewrite ScanRuns.char_eqb. apply Ascii.eqb_neq. intros ->. apply Hne. reflexivity. }
    rewrite E. simpl fst. simpl snd. split; [|exact Hu1].
    f_equal. f_equal. unfold Tokenizer.createToken, Tokenizer.getPosition, spanFrom.
    simpl. f_equal. f_equal. lia.
Qed.

Lemma operator_takes_the_longer_form_witness :
  (forall rest', ["|"; "|"]%char = "|"%char :: rest' ->
     Tokenizer.nextToken (Tokenizer.init "|||")
     = (Some (Token.mk OR "||" (Position.mk 0 2 1 1)),
        Tokenizer.advance (Tokenizer.advance (Tokenizer.init "|||"))) /\
     unread (Tokenizer.advance (Tokenizer.advance (Tokenizer.init "|||"))) = rest') /\
  (hd_error ["|"; "|"]%char <> Some "|"%char ->
     Tokenizer.nextToken (Tokenizer.init "|||")
     = (Some (Token.mk PIPE "|" (Position.mk 0 1 1 1)),
        Tokenizer.advance (Tokenizer.init "|||")) /\
     unread (Tokenizer.advance (Tokenizer.init "|||")) = ["|"; "|"]%char).
Proof.
  apply (operator_takes_the_longer_form (Tokenizer.init "|||") "|"%char OR PIPE
           ["|"; "|"]%char);
    [simpl; left; reflexivity | reflexivity].
Defined.

(** * Further statements: the fields of the nodes *)

(** X22: in the tree [parse] returns, the condition of a conditional
    and of a loop, the iterable of a loop and the value of an assignment
    are made of one token each: a word or a quoted string gives a literal
    with the text and the position of the token, quoted for the quoted
    string only, and a variable gives a variable with the name and the
    position of the token. *)
Theorem expressions_are_single_tokens source program node e :
  parse source = Returned program -> In node (programNodes program) ->
  In e (expressionsOf node) ->
  exists tokens tok,
    Tokenizer.tokenize source = Some tokens /\ In tok tokens /\
    isExpression tok /\ e = expressionOf tok.
Proof.
  intros H Hin He.
  destruct (TreeFacts.parse_each _ _ _ H Hin) as (tokens & a & b & Ht & Hb).
  destruct (NodeFacts.Built_expressions tokens a b node e Hb He) as (i & Hi).
  destruct (NodeFacts.BuiltExpression_of tokens i e Hi) as (tok & Hn & Hx & Heq).
  exists tokens, tok. repeat split; auto. eapply nth_error_In. exact Hn.
Qed.

Lemma expressions_are_single_tokens_witness :
  exists tokens tok,
    Tokenizer.tokenize "if $x then ls fi" = Some tokens /\ In tok tokens /\
    isExpression tok /\
    Variable_ "x" (Some (Position.mk 3 5 1 4)) = expressionOf tok.
Proof.
  eapply (expressions_are_single_tokens "if $x then ls fi");
    [vm_compute; reflexivity | simpl; left; reflexivity | simpl; left; reflexivity].
Defined.

(** X23: the position of a statement node of the tree [parse] returns
    has the start offset, the line and the column of the first token of
    the statement, and the end offset of the token that follows the
    statement. *)
Theorem node_position_runs_to_the_next_token source program node pos :
  parse source = Returned program -> In node (programNodes program) ->
  statementPosition node = Some pos ->
  exists tokens first next tf tn,
    Tokenizer.tokenize source = Some tokens /\ Built tokens first next node /\
    nth_error tokens first = Some tf /\ starts (Token.type tf) = true /\
    nth_error tokens next = Some tn /\
    pos = Position.mk (Position.start (Token.position tf))
                      (Position.end_ (Token.position tn))
                      (Position.line (Token.position tf))
                      (Position.column (Token.position tf)).
Proof.
  intros H Hin Hp.
  destruct (TreeFacts.parse_each _ _ _ H Hin) as (tokens & a & b & Ht & Hb).
  destruct (NodeFacts.Built_position tokens a b node pos Hb Hp)
    as (tf & tl & Hf & Hs & Hl & Hty & Hlt & Hpos).
  destruct (TokenizerFacts.tokenize_total source) as (tokens' & Ht' & Hz).
  rewrite Ht in Ht'. inversion Ht'; subst tokens'.
  pose proof (BuilderFacts.tokenized_eofLast _ Hz _ _ Hl Hty) as Hsize.
  replace (S (b - 1)) with b in Hsize by lia.
  destruct (nth_error tokens b) as [tn|] eqn:Hn; [|apply nth_error_None in Hn; lia].
  destruct (ScanFacts.tokenize_scanned _ _ Ht) as (Hall & Hord & _).
  assert (He : Position.end_ (Token.position tn) <> 0).
  { pose proof (Hord a b tf tn Hlt Hf Hn) as Hle.
    rewrite Forall_forall in Hall.
    destruct (Hall tf (nth_error_In _ _ Hf)) as ((_ & _ & Hne & _) & _).
    destruct (Hall tn (nth_error_In _ _ Hn)) as ((Hse & _) & _).
    assert (Hnot : Token.type tf <> EOF) by (intros E; rewrite E in Hs; discriminate).
    specialize (Hne Hnot). lia. }
  rewrite (NodeFacts.nodePosition_exact tokens a b tf tn Hf Hn He) in Hpos.
  inversion Hpos; subst pos.
  exists tokens, a, b, tf, tn. repeat split; auto.
Qed.

Lemma node_position_runs_to_the_next_token_witness :
  exists tokens first next tf tn,
    Tokenizer.tokenize "ls -l ; wc" = Some tokens /\
    Built tokens first next
          (Cmd (Command.mk "ls" ["-l"] (Some (Position.mk 0 7 1 1)))) /\
    nth_error tokens first = Some tf /\ starts (Token.type tf) = true /\
    nth_error tokens next = Some tn /\
    Position.mk 0 7 1 1
    = Position.mk (Position.start (Token.position tf))
                  (Position.end_ (Token.position tn))
                  (Position.line (Token.position tf))
                  (Position.column (Token.position tf)).
Proof.
  eapply (node_position_runs_to_the_next_token "ls -l ; wc");
    [vm_compute; reflexivity | simpl; left; reflexivity | reflexivity].
Defined.



(** * Further statements: the constructs *)

(** X25: a source that is one conditional without an else branch, one
    [while] loop, one [for] loop or one function, whose body holds
    commands and pipelines, each followed by one token that parts it
    from the next and closes nothing, and in none of which the token
    after the first word reads [=] (the dispatch would take the statement
    for an assignment), parses to the one node of the construct, with
    the statements of the body in the order of the source. *)
Theorem construct_reads_its_body source opening closer make items final close eof :
  Tokenizer.tokenize source
  = Some (opening ++ separated items ++ finalTokens final ++ [close; eof]) ->
  Opening opening closer make -> Token.type close = closer ->
  Forall bodyItem items -> (forall s, final = Some s -> isPiped s close) ->
  exists stmts pos,
    parse source = Returned (Program.mk [make stmts (Some pos)] None) /\
    Forall2 pipedStatement (map fst items ++ finalItems final) stmts.
Proof.
  intros Ht Ho Hc Hi Hfin. unfold parse.
  destruct (TokenizerFacts.tokenize_total source) as (tokens & Ht' & Hz).
  rewrite Ht in Ht'. inversion Ht'; subst tokens. rewrite Ht.
  assert (He : Token.type eof = EOF).
  { replace (opening ++ separated items ++ finalTokens final ++ [close; eof])
      with ((opening ++ separated items ++ finalTokens final ++ [close]) ++ [eof]) in Ht
      by (rewrite <- !app_assoc; reflexivity).
    apply ScanFacts.tokenize_last in Ht as [-> _]. reflexivity. }
  destruct (BuilderRuns.parseTokens_opening _ opening closer make items final close eof
              eq_refl Ho) as (stmts & E & Hall); auto.
  { intros kw Hkw. apply (BuilderFacts.tokenized_keywordText _ kw Hz).
    apply in_or_app. left. destruct opening; [discriminate|].
    inversion Hkw; subst. left. reflexivity. }
  destruct (nodePosition _ 0 _) as [pos|] eqn:Ep.
  - exists stmts, pos. auto.
  - exfalso. destruct Ho; simpl in Ep; discriminate Ep.
Qed.

Lemma construct_reads_its_body_witness :
  exists stmts pos,
    parse "while x do ls | wc; echo hi done"
    = Returned
        (Program.mk
           [Loop "while" (Some (Literal "x" false (Some (Position.mk 6 7 1 7))))
                 None None stmts (Some pos)] None) /\
    Forall2 pipedStatement
            [ ([token1 WORD "ls" 11 13], [(token1 PIPE "|" 14 15, [token1 WORD "wc" 16 18])]);
              ([token1 WORD "echo" 20 24; token1 WORD "hi" 25 27], []) ]
            stmts.
Proof.
  apply (construct_reads_its_body
           "while x do ls | wc; echo hi done"
           [token1 WHILE "while" 0 5; token1 WORD "x" 6 7; token1 DO "do" 8 10]
           DONE
           (fun body => Loop "while" (Some (expressionOf (token1 WORD "x" 6 7)))
                             None None body)
           [ (([token1 WORD "ls" 11 13],
               [(token1 PIPE "|" 14 15, [token1 WORD "wc" 16 18])]),
              token1 SEMICOLON ";" 18 19) ]
           (Some ([token1 WORD "echo" 20 24; token1 WORD "hi" 25 27], []))
           (token1 DONE "done" 28 32) (token1 EOF EmptyString 32 32)).
  - vm_compute. reflexivity.
  - apply (Opening_while (token1 WHILE "while" 0 5) (token1 WORD "x" 6 7)
                         (token1 DO "do" 8 10));
      [reflexivity | left; left; reflexivity | reflexivity].
  - reflexivity.
  - repeat (apply Forall_cons || apply Forall_nil);
      (split; [|split; reflexivity]); (split; [|split]);
      try (intros tok E; inversion E; subst; discriminate);
      repeat (constructor || split).
  - intros s E. inversion E; subst. split; [|split];
      try (intros tok E'; inversion E'; subst; discriminate);
      repeat (constructor || split).
Defined.

(** X26: a word, the word [=] and a word, a quoted string or a variable
    parse to the assignment of that value to that name. *)
Theorem assignment_reads_name_and_value source name eq value eof :
  Tokenizer.tokenize source = Some [name; eq; value; eof] ->
  Token.type name = WORD -> Token.type eq = WORD -> Token.value eq = "="%string ->
  isExpression value ->
  exists pos,
    parse source
    = Returned (Program.mk [VariableAssignment (Token.value name) (expressionOf value)
                                               (Some pos)] None).
Proof.
  intros Ht Hn He Hv Hx. unfold parse. rewrite Ht.
  assert (Hf : Token.type eof = EOF).
  { apply (ScanFacts.tokenize_last source [name; eq; value] eof) in Ht as [-> _].
    reflexivity. }
  rewrite (BuilderRuns.parseTokens_assignment _ name eq value eof eq_refl Hn He Hv Hx Hf).
  destruct (nodePosition _ 0 3) as [pos|] eqn:Ep; [eauto|].
  discriminate Ep.
Qed.

Lemma assignment_reads_name_and_value_witness :
  exists pos,
    parse "x = 'a b'"
    = Returned (Program.mk [VariableAssignment "x"
                              (Literal "a b" true (Some (Position.mk 4 9 1 5)))
                              (Some pos)] None).
Proof.
  apply (assignment_reads_name_and_value
           "x = 'a b'" (token1 WORD "x" 0 1) (token1 WORD "=" 2 3)
           (token1 QUOTED_STRING "a b" 4 9) (token1 EOF EmptyString 9 9));
    [ vm_compute; reflexivity | reflexivity | reflexivity | reflexivity
    | left; right; reflexivity ].
Defined.

(** * The positions of the nodes *)

(** C6: when [parse] returns a program, every statement of its body was
    built from a run of tokens of its own, [first], ..., [next - 1]
    ([Built]: the keywords, the name, the arguments, the expressions and
    the nested statements of the node are those tokens, each in its
    place), and every statement node of its tree, the commands of the
    pipelines among them, was built from a run of tokens [a], ...,
    [b - 1] within the run of the statement it is in; the position of
    the node, where it has one, starts at or before the start of the
    token [a] and ends at or after the end of the token [b - 1]; every
    expression of the node was built from one token of that run and its
    position encloses that token; the program node itself has no
    position.  The run of a statement is the one between the cursor at
    which [parseStatement] is entered and the cursor it leaves. *)
Theorem positions_enclose_the_tokens_consumed :
  forall input program,
    parse input = Returned program ->
    exists tokens,
      Tokenizer.tokenize input = Some tokens /\
      Program.position program = None /\
      (forall stmt,
          In stmt (Program.body program) ->
          exists first next,
            Built tokens first next stmt /\
            forall node,
              In node (nodes stmt) ->
              exists a b,
                first <= a /\ b <= next /\
                Built tokens a b node /\
                encloses tokens a b (statementPosition node) /\
                forall e,
                  In e (expressionsOf node) ->
                  exists i, a <= i /\ i < b /\ BuiltExpression tokens i e /\
                            encloses tokens i (S i) (expressionPosition e)) /\
      (forall fuel first next stmt,
          length tokens - first < fuel ->
          BashParser.parseStatement tokens fuel first = BashParser.Return (Some stmt) next ->
          Built tokens first next stmt).
Proof.
  intros input program H.
  destruct (BuilderFacts.parse_built _ _ H) as (tokens & last & Ht & Hz & Hpos & Hb).
  pose proof (BuilderFacts.tokenized_endsAscend _ Hz) as Ha.
  pose proof (BuilderFacts.tokenized_eofLast _ Hz) as Hl.
  exists tokens. split; [exact Ht|]. split; [exact Hpos|]. split.
  - intros stmt Hin.
    assert (Hs : In stmt (flat_map nodes (Program.body program))).
    { apply in_flat_map. exists stmt. split; [exact Hin|]. destruct stmt; left; reflexivity. }
    destruct (proj2 (NodeFacts.Built_within tokens) _ _ _ Hb stmt Hs)
      as (first & next & _ & _ & Hstmt).
    exists first, next. split; [exact Hstmt|].
    intros node Hnode.
    destruct (proj1 (NodeFacts.Built_within tokens) _ _ _ Hstmt node Hnode)
      as (a & b & Hfa & Hbn & Hn).
    exists a, b. split; [exact Hfa|]. split; [exact Hbn|]. split; [exact Hn|].
    apply (NodeFacts.Built_spans tokens Ha Hl a b node Hn).
  - intros fuel first next stmt Hf Hp.
    pose proof (BuilderFacts.parseStatement_builds tokens fuel first Hf) as Hsat.
    rewrite Hp in Hsat. simpl in Hsat. destruct Hsat as [_ Hsat].
    destruct (Hsat stmt eq_refl) as [_ Hs]. exact Hs.
Qed.

Lemma positions_enclose_the_tokens_consumed_witness :
  exists program tokens,
    parse "if a then b | c fi" = Returned program /\
    Tokenizer.tokenize "if a then b | c fi" = Some tokens /\
    forall stmt,
      In stmt (Program.body program) ->
      exists first next,
        Built tokens first next stmt /\
        forall node,
          In node (nodes stmt) ->
          exists a b,
            first <= a /\ b <= next /\
            Built tokens a b node /\ encloses tokens a b (statementPosition node).
Proof.
  eexists. eexists. split; [vm_compute; reflexivity|].
  destruct (positions_enclose_the_tokens_consumed
              "if a then b | c fi" _ ltac:(vm_compute; reflexivity))
    as (tokens & Ht & _ & Hall & _).
  vm_compute in Ht. inversion Ht; subst tokens; clear Ht.
  split; [vm_compute; reflexivity|].
  intros stmt Hin. destruct (Hall stmt Hin) as (first & next & Hb & Hnodes).
  exists first, next. split; [exact Hb|].
  intros node Hnode. destruct (Hnodes node Hnode) as (a & b & H1 & H2 & H3 & H4 & _).
  exists a, b. auto.
Defined.
